(** * N-gram counter: map / shuffle / reduce over worker threads

    Shallow embedding of [ngram_counter.cpp].

    - A [char] is a byte ([ascii]); a [std::string] is a [list ascii].
    - [uint64_t] counters and the atomic file index are integers in [Z]
      reduced modulo [2^64] at every arithmetic operation.
    - [std::map<std::string, uint64_t>] is an association list kept sorted
      by key, so that iterating the list is iterating the map.
    - The worker threads are a labelled transition system: one atomic step
      per access to shared memory (the fetch-and-add on [global_index], a
      [set_value] on a promise, a [get] on a future, the locked print).
      What a worker does on its own variables between two accesses
      ([process_file], the partition, the merge of one future, the
      selection of the top five) belongs to the step of the access before
      it. The workers exist from the initial state on: a thread that
      [compute] has not started yet is a worker that has not stepped.
    - [std::partial_sort_copy] is the heap algorithm of libstdc++ 12
      ([std::__partial_sort_copy] with [std::__make_heap],
      [std::__adjust_heap], [std::__push_heap] and [std::__sort_heap]),
      so that the slots it fills are the ones the program prints also
      when counts are tied, where the C++ standard leaves the order
      open. *)

From Stdlib Require Import String Ascii DecimalString.
From Stdlib Require Import ZArith List Bool Lia Arith Permutation Sorted.
Import ListNotations.

(** ** Bytes and strings *)

Abbreviation str := (list ascii) (only parsing).

(** String literals for examples. *)
Definition s_ (s : string) : str := list_ascii_of_string s.

(** A [char] holds a signed 8-bit value (the x86-64 ABI); the arithmetic
    of the source is done on that value. *)
Definition char_val (c : ascii) : Z :=
  let u := Z.of_N (N_of_ascii c) in
  if (u <? 128)%Z then u else (u - 256)%Z.

(** Conversion of an [int] result back to [char]. *)
Definition to_char (v : Z) : ascii := ascii_of_N (Z.to_N (v mod 256)).

(** The unsigned reading of a byte, for the other choice of the ABI. *)
Definition uchar_val (c : ascii) : Z := Z.of_N (N_of_ascii c).

Definition toLowerCase (c : ascii) : ascii :=
  let v := char_val c in
  if ((65 <=? v) && (v <=? 90))%Z then to_char (v + 32) else c.

Definition removeNewlineAndTab (c : ascii) : ascii :=
  let v := char_val c in
  if ((v =? 9) || (v =? 10))%Z then to_char 32 else c.

Definition removePunctuationAndNumbers (c : ascii) : ascii :=
  let v := char_val c in
  if ((33 <=? v) && (v <=? 64) || (91 <=? v) && (v <=? 96)
      || (123 <=? v) && (v <=? 126))%Z
  then to_char 124 else c.

(** The three [std::transform] passes of [process_file]. *)
Definition normalize (contents : str) : str :=
  let contents := map toLowerCase contents in
  let contents := map removeNewlineAndTab contents in
  map removePunctuationAndNumbers contents.

(** ** The two regular expressions *)

(** [[|]] matches exactly the byte 124. *)
Definition is_break (c : ascii) : bool := (char_val c =? 124)%Z.

(** [[a-z]] matches the bytes 97..122. *)
Definition is_lower (c : ascii) : bool :=
  let v := char_val c in ((97 <=? v) && (v <=? 122))%Z.

(** [std::sregex_token_iterator(b, e, rgx, -1)] on the pattern [[|]]:
    one token per match, holding the text between the previous match and
    this one (possibly empty), then the text after the last match when
    it is not empty. [cur] is the text read since the previous match. *)
Fixpoint split_tokens (cur : str) (s : str) : list str :=
  match s with
  | [] => match cur with [] => [] | _ => [cur] end
  | c :: s' =>
      if is_break c then cur :: split_tokens [] s'
      else split_tokens (cur ++ [c]) s'
  end.

(** When the pattern never matches, the iterator yields the whole range
    as its only token, even when the range is empty. *)
Definition regex_split (s : str) : list str :=
  if existsb is_break s then split_tokens [] s else [s].

(** [std::sregex_token_iterator(b, e, rgx_word)] on the pattern [[a-z]+]:
    the successive leftmost, longest matches. [cur] is the match being
    extended. *)
Fixpoint words_from (cur : str) (s : str) : list str :=
  match s with
  | [] => match cur with [] => [] | _ => [cur] end
  | c :: s' =>
      if is_lower c then words_from (cur ++ [c]) s'
      else match cur with
           | [] => words_from [] s'
           | _ => cur :: words_from [] s'
           end
  end.

Definition regex_words (sequence : str) : list str := words_from [] sequence.

(** ** Frequency tables *)

Definition UINT64_MOD : Z := 2 ^ 64.

Abbreviation entry := (list ascii * Z)%type (only parsing).
Abbreviation table := (list (list ascii * Z)) (only parsing).

(** [std::string::compare]: lexicographic on unsigned bytes. *)
Fixpoint str_compare (a b : str) : comparison :=
  match a, b with
  | [], [] => Eq
  | [], _ :: _ => Lt
  | _ :: _, [] => Gt
  | x :: a', y :: b' =>
      match Ascii.compare x y with
      | Eq => str_compare a' b'
      | o => o
      end
  end.

(** [m[k] += c], creating the entry with value 0 when [k] is absent. *)
Fixpoint tbl_add (k : str) (c : Z) (m : table) : table :=
  match m with
  | [] => [(k, (0 + c) mod UINT64_MOD)%Z]
  | (k', v) :: m' =>
      match str_compare k k' with
      | Lt => (k, (0 + c) mod UINT64_MOD)%Z :: m
      | Eq => (k', (v + c) mod UINT64_MOD)%Z :: m'
      | Gt => (k', v) :: tbl_add k c m'
      end
  end.

(** [m[k]++] *)
Definition tbl_incr (k : str) (m : table) : table := tbl_add k 1 m.

(** [m.find(k)] *)
Fixpoint tbl_find (k : str) (m : table) : option Z :=
  match m with
  | [] => None
  | (k', v) :: m' =>
      match str_compare k k' with
      | Eq => Some v
      | _ => tbl_find k m'
      end
  end.

(** The count stored for [k], 0 when [k] has no entry. *)
Definition tbl_get (k : str) (m : table) : Z :=
  match tbl_find k m with Some v => v | None => 0%Z end.

(** ** [process_file] *)

Definition space : str := [" "%char].

(** The inner [while (n < ngram && iter_seq_inner != end_seq)] loop:
    [rest] are the words after the current one. The counter [n] is an
    [int] compared with the [uint32_t] field [ngram]; it never exceeds
    the number of words of the sequence, so both are naturals here. *)
Fixpoint extend_ngram (ngram : nat) (n : nat) (current_ngram : str)
    (rest : list str) : nat * str :=
  match rest with
  | [] => (n, current_ngram)
  | word :: rest' =>
      if n <? ngram
      then extend_ngram ngram (S n) (current_ngram ++ space ++ word) rest'
      else (n, current_ngram)
  end.

(** The loop over [iter_seq]: one iteration per word of the sequence. *)
Fixpoint count_sequence (ngram : nat) (ws : list str) (local_freq : table)
  : table :=
  match ws with
  | [] => local_freq
  | w :: rest =>
      let '(n, current_ngram) := extend_ngram ngram 1 w rest in
      count_sequence ngram rest
        (if n =? ngram then tbl_incr current_ngram local_freq
         else local_freq)
  end.

(** The loop over [iter]: one iteration per token, empty tokens skipped. *)
Definition process_file (ngram : nat) (contents : str) (local_freq : table)
  : table :=
  fold_left
    (fun freq sequence =>
       match sequence with
       | [] => freq
       | _ => count_sequence ngram (regex_words sequence) freq
       end)
    (regex_split (normalize contents)) local_freq.

(** The keys incremented by [process_file], in the order of the
    increments. *)
Fixpoint sequence_ngrams (ngram : nat) (ws : list str) : list str :=
  match ws with
  | [] => []
  | w :: rest =>
      let '(n, current_ngram) := extend_ngram ngram 1 w rest in
      (if n =? ngram then [current_ngram] else [])
        ++ sequence_ngrams ngram rest
  end.

Definition file_ngrams (ngram : nat) (contents : str) : list str :=
  flat_map
    (fun sequence =>
       match sequence with
       | [] => []
       | _ => sequence_ngrams ngram (regex_words sequence)
       end)
    (regex_split (normalize contents)).

(** ** Top-five selection and the report *)

(** The comparison passed to [std::partial_sort_copy]:
    [l.second > r.second]. *)
Definition count_gt (l r : entry) : bool := (snd r <? snd l)%Z.

(** A value-initialized pair. *)
Definition empty_slot : entry := ([], 0%Z).

(** Replacement of the element at index [i]; no effect out of range. *)
Fixpoint set_nth {A} (i : nat) (x : A) (l : list A) : list A :=
  match l, i with
  | [], _ => []
  | _ :: l', O => x :: l'
  | y :: l', S i' => y :: set_nth i' x l'
  end.

(** [*(first + i)] *)
Definition at_ (first : list entry) (i : nat) : entry :=
  nth i first empty_slot.

(** The loop of [std::__push_heap]. The hole moves to its parent at each
    turn, so [holeIndex] turns are enough. The indices are signed in the
    source, where [(0 - 1) / 2] is 0 as it is here. *)
Fixpoint push_heap_loop (comp : entry -> entry -> bool) (fuel : nat)
    (first : list entry) (holeIndex topIndex : nat) (value : entry)
  : list entry :=
  let parent := (holeIndex - 1) / 2 in
  match fuel with
  | S fuel' =>
      if (topIndex <? holeIndex) && comp (at_ first parent) value
      then push_heap_loop comp fuel'
             (set_nth holeIndex (at_ first parent) first)
             parent topIndex value
      else set_nth holeIndex value first
  | O => set_nth holeIndex value first
  end.

(** [std::__push_heap(first, holeIndex, topIndex, value, comp)] *)
Definition push_heap (comp : entry -> entry -> bool) (first : list entry)
    (holeIndex topIndex : nat) (value : entry) : list entry :=
  push_heap_loop comp holeIndex first holeIndex topIndex value.

(** The first loop of [std::__adjust_heap]: the hole goes down to the
    child that is not below the other. [secondChild] grows at each turn
    and the loop stops before [(len - 1) / 2], so [len] turns are
    enough. *)
Fixpoint adjust_heap_loop (comp : entry -> entry -> bool) (fuel : nat)
    (first : list entry) (holeIndex secondChild len : nat)
  : list entry * nat * nat :=
  match fuel with
  | S fuel' =>
      if secondChild <? (len - 1) / 2 then
        let secondChild := 2 * (secondChild + 1) in
        let secondChild :=
          if comp (at_ first secondChild) (at_ first (secondChild - 1))
          then secondChild - 1 else secondChild in
        adjust_heap_loop comp fuel'
          (set_nth holeIndex (at_ first secondChild) first)
          secondChild secondChild len
      else (first, holeIndex, secondChild)
  | O => (first, holeIndex, secondChild)
  end.

(** [std::__adjust_heap(first, holeIndex, len, value, comp)]. The
    indices are signed in the source; [(len - 2) / 2] is compared only
    when [len >= 2]. *)
Definition adjust_heap (comp : entry -> entry -> bool) (first : list entry)
    (holeIndex len : nat) (value : entry) : list entry :=
  let topIndex := holeIndex in
  let '(first, holeIndex, secondChild) :=
    adjust_heap_loop comp len first holeIndex holeIndex len in
  let '(first, holeIndex) :=
    if (2 <=? len) && Nat.even len && (secondChild =? (len - 2) / 2) then
      let secondChild := 2 * (secondChild + 1) in
      (set_nth holeIndex (at_ first (secondChild - 1)) first,
       secondChild - 1)
    else (first, holeIndex) in
  push_heap comp first holeIndex topIndex value.

(** The loop of [std::__make_heap], from [parent] down to 0. *)
Fixpoint make_heap_loop (comp : entry -> entry -> bool) (parent : nat)
    (first : list entry) (len : nat) : list entry :=
  let first := adjust_heap comp first parent len (at_ first parent) in
  match parent with
  | O => first
  | S parent' => make_heap_loop comp parent' first len
  end.

(** [std::__make_heap(first, last, comp)] on the whole of [first]. *)
Definition make_heap (comp : entry -> entry -> bool) (first : list entry)
  : list entry :=
  let len := length first in
  if len <? 2 then first
  else make_heap_loop comp ((len - 2) / 2) first len.

(** [std::__sort_heap(first, first + last, comp)]: each turn is
    [--last] and [std::__pop_heap(first, last, last, comp)]. *)
Fixpoint sort_heap (comp : entry -> entry -> bool) (last : nat)
    (first : list entry) : list entry :=
  match last with
  | S last' =>
      if 1 <? last then
        let value := at_ first last' in
        let first := set_nth last' (at_ first 0) first in
        sort_heap comp last' (adjust_heap comp first 0 last' value)
      else first
  | O => first
  end.

(** [std::partial_sort_copy(first, last, d_first, d_last, comp)] as
    libstdc++ 12 computes it ([std::__partial_sort_copy]): the first
    elements of the source are copied to the destination and made a
    heap; every further element that [comp] puts before the top of the
    heap replaces the top; the heap is sorted at the end. The slots of
    the destination past the copied ones are not written. The C++
    standard leaves the order of equivalent elements open; this is the
    order the library gives. *)
Definition partial_sort_copy (comp : entry -> entry -> bool)
    (src dst : list entry) : list entry :=
  match dst with
  | [] => dst
  | _ :: _ =>
      let k := Nat.min (length src) (length dst) in
      let heap := make_heap comp (firstn k src) in
      let heap :=
        fold_left
          (fun heap x =>
             if comp x (at_ heap 0) then adjust_heap comp heap 0 k x
             else heap)
          (skipn k src) heap in
      sort_heap comp k heap ++ skipn k dst
  end.

(** [std::vector<std::pair<std::string, uint64_t>> top_five(5)]. *)
Definition top_five_init : list entry := repeat empty_slot 5.

Definition select_top_five (reduced_freq : table) : list entry :=
  partial_sort_copy count_gt reduced_freq top_five_init.

(** [operator<<] on an unsigned integer: its decimal digits. *)
Definition print_number (v : Z) : str :=
  s_ (NilZero.string_of_uint (N.to_uint (Z.to_N v))).

Definition placeholder_line : str := s_ "       ...".

(** One iteration of the printing loop. *)
Definition report_line (slot : entry) : str :=
  let '(ngram, cnt) := slot in
  if (cnt =? 0)%Z then placeholder_line
  else s_ "       " ++ ngram ++ s_ ": " ++ print_number cnt.

(** The lines a worker prints while it holds [wc_mtx]. *)
Definition report (thread_id : nat) (top_five : list entry) : list str :=
  (s_ "Thread " ++ print_number (Z.of_nat thread_id) ++ s_ ":")
    :: map report_line top_five.

(** ** The engine *)

(** What [compute] closes over. [std::hash<std::string>] is left to the
    C++ implementation, so it is a parameter; a file is its contents. *)
Record engine := mkEngine {
  str_hash : str -> N;
  files_to_sweep : list str;
  num_threads : nat;
  ngram : nat
}.

(** [str_hash(pair.first) % num_threads] *)
Definition assigned_thread (E : engine) (k : str) : nat :=
  N.to_nat (str_hash E k mod N.of_nat (num_threads E)).

(** [assignment_matrix.at(i).push_back(pair)]; [i] is a remainder modulo
    the length of the matrix, hence in range. *)
Definition push_back_at (i : nat) (pair : entry)
    (assignment_matrix : list (list entry)) : list (list entry) :=
  set_nth i (nth i assignment_matrix [] ++ [pair]) assignment_matrix.

(** The loop [for (auto pair : local_freq)], in key order. *)
Definition shuffle_assign (E : engine) (local_freq : table)
  : list (list entry) :=
  fold_left
    (fun am pair => push_back_at (assigned_thread E (fst pair)) pair am)
    local_freq (repeat [] (num_threads E)).

(** The loop [for (auto [ngram, cnt] : updates)]. *)
Definition merge_updates (updates : list entry) (reduced_freq : table)
  : table :=
  fold_left (fun m u => tbl_add (fst u) (snd u) m) updates reduced_freq.

(** Where a worker stands in [sweep]. *)
Inductive phase :=
| PMap                (* at the fetch-and-add of the [while] loop *)
| PWrite (i : nat)    (* at [set_value] for [shuffle_matrix[i][thread_id]] *)
| PRead (t : nat)     (* at [get] for [shuffle_matrix_fut[thread_id][t]] *)
| PPrint              (* at the lock of [wc_mtx] *)
| PDone               (* returned from [sweep] *)
| PAbort.             (* an exception left [sweep] *)

(** The local variables of [sweep]. *)
Record worker := mkWorker {
  pc : phase;
  local_freq : table;
  assignment_matrix : list (list entry);
  reduced_freq : table;
  top_five : list entry
}.

(** A promise and its future: [None] until [set_value]. *)
Abbreviation promise := (option (list (list ascii * Z))) (only parsing).

(** The variables shared by the threads. *)
Record state := mkState {
  global_index : Z;
  shuffle_matrix : list (list promise);
  workers : list worker
}.

(** What a step does to shared memory or to the console. *)
Inductive event :=
| Claim (w : nat) (file_index : Z)
| Write (w i : nat)
| Read (w t : nat)
| Print (w : nat) (block : list str)
| Abort (w : nat).

Definition fresh_worker : worker :=
  mkWorker PMap [] [] [] [].

Definition init (E : engine) : state :=
  mkState 0
    (repeat (repeat None (num_threads E)) (num_threads E))
    (repeat fresh_worker (num_threads E)).

(** [shuffle_matrix.at(i).at(j)]; [None] when an index is out of range. *)
Definition slot (s : state) (i j : nat) : option promise :=
  match nth_error (shuffle_matrix s) i with
  | Some row => nth_error row j
  | None => None
  end.

Definition set_slot (i j : nat) (p : promise) (m : list (list promise))
  : list (list promise) :=
  set_nth i (set_nth j p (nth i m [])) m.

Definition set_pc (p : phase) (th : worker) : worker :=
  mkWorker p (local_freq th) (assignment_matrix th) (reduced_freq th)
    (top_five th).

(** Head of the reading loop [for (t = 0; t < num_threads; t++)]; past
    the loop, [top_five] is computed and the worker reaches the lock. *)
Definition enter_read (E : engine) (t : nat) (th : worker) : worker :=
  if t <? num_threads E then set_pc (PRead t) th
  else mkWorker PPrint (local_freq th) (assignment_matrix th)
         (reduced_freq th) (select_top_five (reduced_freq th)).

(** Head of the writing loop [for (i = 0; i < num_threads; i++)]. *)
Definition enter_write (E : engine) (i : nat) (th : worker) : worker :=
  if i <? num_threads E then set_pc (PWrite i) th
  else enter_read E 0 th.

Definition set_worker (w : nat) (th : worker) (s : state) : state :=
  mkState (global_index s) (shuffle_matrix s) (set_nth w th (workers s)).

(** One atomic step of worker [w]; [None] when [w] is blocked on a
    future, has returned, or does not exist. *)
Definition step_thread (E : engine) (w : nat) (s : state)
  : option (event * state) :=
  match nth_error (workers s) w with
  | None => None
  | Some th =>
      match pc th with
      | PMap =>
          (* file_index = global_index++ *)
          let file_index := global_index s in
          let s1 := mkState ((file_index + 1) mod UINT64_MOD)
                      (shuffle_matrix s) (workers s) in
          if (file_index <? Z.of_nat (length (files_to_sweep E)))%Z then
            let contents :=
              nth (Z.to_nat file_index) (files_to_sweep E) [] in
            Some (Claim w file_index,
                  set_worker w
                    (mkWorker PMap
                       (process_file (ngram E) contents (local_freq th))
                       (assignment_matrix th) (reduced_freq th)
                       (top_five th)) s1)
          else
            Some (Claim w file_index,
                  set_worker w
                    (enter_write E 0
                       (mkWorker PMap (local_freq th)
                          (shuffle_assign E (local_freq th))
                          (reduced_freq th) (top_five th))) s1)
      | PWrite i =>
          match slot s i w, nth_error (assignment_matrix th) i with
          | Some None, Some bucket =>
              Some (Write w i,
                    set_worker w (enter_write E (S i) th)
                      (mkState (global_index s)
                         (set_slot i w (Some bucket) (shuffle_matrix s))
                         (workers s)))
          | _, _ => Some (Abort w, set_worker w (set_pc PAbort th) s)
          end
      | PRead t =>
          match slot s w t with
          | Some (Some updates) =>
              Some (Read w t,
                    set_worker w
                      (enter_read E (S t)
                         (mkWorker (PRead t) (local_freq th)
                            (assignment_matrix th)
                            (merge_updates updates (reduced_freq th))
                            (top_five th))) s)
          | Some None => None
          | None => Some (Abort w, set_worker w (set_pc PAbort th) s)
          end
      | PPrint =>
          Some (Print w (report w (top_five th)),
                set_worker w (set_pc PDone th) s)
      | PDone => None
      | PAbort => None
      end
  end.

(** Executions: any interleaving of the workers' steps, with the events
    in the order they happened. *)
Inductive exec (E : engine) : state -> list event -> state -> Prop :=
| exec_nil : forall s, exec E s [] s
| exec_step : forall s tr s1 w ev s2,
    exec E s tr s1 ->
    step_thread E w s1 = Some (ev, s2) ->
    exec E s (tr ++ [ev]) s2.

Definition run (E : engine) (tr : list event) (s : state) : Prop :=
  exec E (init E) tr s.

(** All the threads were joined. *)
Definition finished (s : state) : Prop :=
  Forall (fun th => pc th = PDone) (workers s).

(** An execution under a given schedule, for running the model. *)
Fixpoint run_schedule (E : engine) (sched : list nat) (s : state)
  : option (list event * state) :=
  match sched with
  | [] => Some ([], s)
  | w :: sched' =>
      match step_thread E w s with
      | None => None
      | Some (ev, s1) =>
          match run_schedule E sched' s1 with
          | None => None
          | Some (tr, s2) => Some (ev :: tr, s2)
          end
      end
  end.

(** ** Reference definitions, written from the specification *)

(** Unsigned code of a byte. *)
Definition code (c : ascii) : nat := nat_of_ascii c.

Definition spec_is_upper (c : ascii) : bool :=
  (65 <=? code c) && (code c <=? 90).

Definition spec_is_lower (c : ascii) : bool :=
  (97 <=? code c) && (code c <=? 122).

Definition spec_is_digit (c : ascii) : bool :=
  (48 <=? code c) && (code c <=? 57).

(** The four ranges of ASCII punctuation. *)
Definition spec_is_punct (c : ascii) : bool :=
  (33 <=? code c) && (code c <=? 47) || (58 <=? code c) && (code c <=? 64)
  || (91 <=? code c) && (code c <=? 96) || (123 <=? code c) && (code c <=? 126).

Definition break_marker : ascii := "|"%char.

(** Steps (a), (b) and (c) of the tokenizer. *)
Definition spec_normalize_char (c : ascii) : ascii :=
  let c := if spec_is_upper c then ascii_of_nat (code c + 32) else c in
  let c := if (code c =? 9) || (code c =? 10) then " "%char else c in
  if spec_is_punct c || spec_is_digit c then break_marker else c.

(** Step (d): the segments between break markers. *)
Fixpoint spec_segments (s : str) : list str :=
  match s with
  | [] => [[]]
  | c :: s' =>
      if Ascii.eqb c break_marker then [] :: spec_segments s'
      else match spec_segments s' with
           | seg :: segs => (c :: seg) :: segs
           | [] => [[c]]
           end
  end.

(** Step (e): the maximal runs of lowercase letters. A letter followed
    by a letter belongs to the same word as that letter. *)
Definition starts_lower (s : str) : bool :=
  match s with
  | c :: _ => spec_is_lower c
  | [] => false
  end.

Fixpoint spec_words (s : str) : list str :=
  match s with
  | [] => []
  | c :: s' =>
      let rest := spec_words s' in
      if spec_is_lower c then
        if starts_lower s' then
          match rest with
          | w :: ws => (c :: w) :: ws
          | [] => [[c]]
          end
        else [c] :: rest
      else rest
  end.

(** Words joined by single spaces. *)
Definition join_words (ws : list str) : str :=
  match ws with
  | [] => []
  | w :: rest => w ++ flat_map (fun x => space ++ x) rest
  end.

(** Step (f): one n-gram per position with [n - 1] further words. *)
Definition spec_ngrams (n : nat) (ws : list str) : list str :=
  flat_map
    (fun i =>
       if i + n <=? length ws then [join_words (firstn n (skipn i ws))]
       else [])
    (seq 0 (length ws)).

Definition spec_tokenize (n : nat) (contents : str) : list str :=
  flat_map (fun seg => spec_ngrams n (spec_words seg))
    (spec_segments (map spec_normalize_char contents)).

(** The table of the counts of a sequence of keys. *)
Definition count_table (keys : list str) : table :=
  fold_left (fun m k => tbl_incr k m) keys [].

(** The naive single-threaded reference: tokenize every file in turn and
    count every n-gram in one table. *)
Definition naive_reference (n : nat) (files : list str) : table :=
  count_table (flat_map (spec_tokenize n) files).

(** A maximal-run decomposition: separators without lowercase letters
    around non-empty lowercase words, no two words adjacent. *)
Inductive runs_of : str -> list str -> Prop :=
| runs_nil : forall sep,
    forallb (fun c => negb (is_lower c)) sep = true ->
    runs_of sep []
| runs_cons : forall sep w rest ws,
    forallb (fun c => negb (is_lower c)) sep = true ->
    w <> [] ->
    forallb is_lower w = true ->
    match rest with [] => True | c :: _ => is_lower c = false end ->
    runs_of rest ws ->
    runs_of (sep ++ w ++ rest) (w :: ws).

(** The bytes the three transforms leave alone and that are neither a
    letter nor the break marker: below 33 except tab and newline, or
    above 126. *)
Definition unmapped (c : ascii) : bool :=
  ((code c <? 33) && negb (code c =? 9) && negb (code c =? 10))
  || (126 <? code c).

(** The segments put back together around break markers. *)
Fixpoint join_segments (segs : list str) : str :=
  match segs with
  | [] => []
  | seg :: segs' =>
      match segs' with
      | [] => seg
      | _ => seg ++ break_marker :: join_segments segs'
      end
  end.

(** ** Well-formed tables *)

(** [k] is below every key of [m]. *)
Definition keys_above (k : str) (m : table) : Prop :=
  Forall (fun e => str_compare k (fst e) = Lt) m.

(** The keys of [m] are strictly increasing. *)
Fixpoint tbl_sorted (m : table) : Prop :=
  match m with
  | [] => True
  | (k, _) :: m' => keys_above k m' /\ tbl_sorted m'
  end.

(** [m] holds the counts [f], reduced modulo [2^64], with an entry
    exactly for the keys that were counted. *)
Definition tbl_repr (m : table) (f : str -> nat) : Prop :=
  tbl_sorted m /\
  forall k, tbl_find k m
            = if f k =? 0 then None
              else Some (Z.of_nat (f k) mod UINT64_MOD)%Z.

Definition str_eq_dec (a b : str) : {a = b} + {a <> b} :=
  list_eq_dec ascii_dec a b.

(** Number of occurrences of [k] in a sequence of keys. *)
Definition occ (keys : list str) (k : str) : nat :=
  count_occ str_eq_dec keys k.

(** The entries of a table that worker [j] owns. *)
Definition bucket (E : engine) (j : nat) (m : table) : table :=
  filter (fun e => assigned_thread E (fst e) =? j) m.

(** Descending order of counts. *)
Definition count_ge (a b : entry) : Prop := (snd b <= snd a)%Z.

(** A heap of [std::make_heap] for the comparison [count_gt] on five
    slots: no parent has a larger count than its children, so the top
    holds the smallest count. *)
Definition heap5 (h : list entry) : Prop :=
  match h with
  | [a; b; c; d; e] =>
      (snd a <= snd b)%Z /\ (snd a <= snd c)%Z
      /\ (snd b <= snd d)%Z /\ (snd b <= snd e)%Z
  | _ => False
  end.

(** ** Histories and invariants of the engine *)

Definition worker_at (s : state) (w : nat) : worker :=
  nth w (workers s) fresh_worker.

Definition pc_at (s : state) (w : nat) : phase := pc (worker_at s w).

(** The worker an event belongs to. *)
Definition event_worker (ev : event) : nat :=
  match ev with
  | Claim w _ | Write w _ | Read w _ | Print w _ | Abort w => w
  end.

(** Number of promises a worker at [p] has set. *)
Definition writes_done (E : engine) (p : phase) : nat :=
  match p with
  | PMap | PAbort => 0
  | PWrite i => i
  | PRead _ | PPrint | PDone => num_threads E
  end.

(** Number of futures a worker at [p] has read and merged. *)
Definition reads_done (E : engine) (p : phase) : nat :=
  match p with
  | PMap | PWrite _ | PAbort => 0
  | PRead t => t
  | PPrint | PDone => num_threads E
  end.

(** The fetch-and-add results of a history, oldest first, each with the
    worker that obtained it. *)
Fixpoint claims (tr : list event) : list (nat * Z) :=
  match tr with
  | [] => []
  | Claim w file_index :: tr' => (w, file_index) :: claims tr'
  | _ :: tr' => claims tr'
  end.

(** A fetch-and-add result that is a file index. *)
Definition in_range (E : engine) (c : nat * Z) : bool :=
  (snd c <? Z.of_nat (length (files_to_sweep E)))%Z.

(** The files worker [w] processed, in order. *)
Definition claimed_by (E : engine) (w : nat) (tr : list event) : list nat :=
  map (fun c => Z.to_nat (snd c))
    (filter (fun c => (fst c =? w) && in_range E c) (claims tr)).

Definition file_at (E : engine) (i : nat) : str :=
  nth i (files_to_sweep E) [].

(** The keys worker [w] incremented, in order. *)
Definition emitted_by (E : engine) (w : nat) (tr : list event) : list str :=
  flat_map (fun i => file_ngrams (ngram E) (file_at E i)) (claimed_by E w tr).

(** The keys of all the files, in the order of the file list. *)
Definition all_ngrams (E : engine) : list str :=
  flat_map (file_ngrams (ngram E)) (files_to_sweep E).

(** What worker [w] holds after merging the futures of producers
    [0 .. t-1]. *)
Definition reduced_of (E : engine) (s : state) (w t : nat) : table :=
  fold_left
    (fun m t' => merge_updates (bucket E w (local_freq (worker_at s t'))) m)
    (seq 0 t) [].

(** The file list and the workers fit the 64-bit index. *)
Definition index_fits (E : engine) : Prop :=
  (Z.of_nat (length (files_to_sweep E)) + Z.of_nat (num_threads E)
   < UINT64_MOD)%Z.

Record worker_inv (E : engine) (tr : list event) (s : state) (w : nat)
  : Prop := mkWorkerInv {
  wi_pc :
    match pc_at s w with
    | PWrite i => i < num_threads E
    | PRead t => t < num_threads E
    | PAbort => False
    | _ => True
    end;
  wi_local :
    local_freq (worker_at s w) = count_table (emitted_by E w tr);
  wi_assign :
    pc_at s w <> PMap ->
    assignment_matrix (worker_at s w)
    = shuffle_assign E (local_freq (worker_at s w));
  wi_slots :
    forall i, i < num_threads E ->
      slot s i w
      = Some (if i <? writes_done E (pc_at s w)
              then Some (bucket E i (local_freq (worker_at s w)))
              else None);
  wi_reads :
    forall t, t < reads_done E (pc_at s w) ->
      w < writes_done E (pc_at s t);
  wi_reduced :
    reduced_freq (worker_at s w)
    = reduced_of E s w (reads_done E (pc_at s w));
  wi_top :
    pc_at s w = PPrint \/ pc_at s w = PDone ->
    top_five (worker_at s w)
    = select_top_five (reduced_freq (worker_at s w));
  wi_claims :
    pc_at s w = PMap ->
    forall c, In c (claims tr) -> fst c = w -> in_range E c = true;
  wi_left :
    pc_at s w <> PMap ->
    exists c, In c (claims tr) /\ fst c = w /\ in_range E c = false;
  wi_writes_tr :
    forall i, In (Write w i) tr <-> i < writes_done E (pc_at s w);
  wi_reads_tr :
    forall t, In (Read w t) tr <-> t < reads_done E (pc_at s w);
  wi_print_tr :
    forall b, In (Print w b) tr <->
              pc_at s w = PDone /\ b = report w (top_five (worker_at s w))
}.

Record inv (E : engine) (tr : list event) (s : state) : Prop := mkInv {
  inv_workers : length (workers s) = num_threads E;
  inv_index : global_index s = Z.of_nat (length (claims tr));
  inv_claims :
    map snd (claims tr) = map Z.of_nat (seq 0 (length (claims tr)));
  inv_failed :
    NoDup (map fst (filter (fun c => negb (in_range E c)) (claims tr)));
  inv_bound :
    length (claims tr)
    <= length (files_to_sweep E)
       + length (filter (fun c => negb (in_range E c)) (claims tr));
  inv_claimers : forall c, In c (claims tr) -> fst c < num_threads E;
  inv_no_abort : forall w, ~ In (Abort w) tr;
  inv_each : forall w, w < num_threads E -> worker_inv E tr s w
}.

(** Distance of a worker from the end of [sweep]. *)
Definition rank (E : engine) (p : phase) : nat :=
  match p with
  | PMap => 2 * num_threads E + 3
  | PWrite i => 2 * num_threads E + 2 - i
  | PRead t => num_threads E + 2 - t
  | PPrint => 1
  | PDone | PAbort => 0
  end.

(** A bound on the number of steps left. *)
Definition measure (E : engine) (s : state) : nat :=
  (length (files_to_sweep E) + num_threads E - Z.to_nat (global_index s))
  + list_sum (map (fun th => rank E (pc th)) (workers s)).

(** Sum of a list of integers. *)
Definition Zsum (l : list Z) : Z := fold_right Z.add 0%Z l.

(** The sum, over all the workers, of the count stored for [k] in their
    reduced tables. *)
Definition total_reported (E : engine) (s : state) (k : str) : Z :=
  Zsum (map (fun w => tbl_get k (reduced_freq (worker_at s w)))
          (seq 0 (num_threads E))).

(** Occurrences of [k] counted by the producers [0 .. t-1]. *)
Definition merged_count (E : engine) (tr : list event) (t : nat) (k : str)
  : nat :=
  list_sum (map (fun t' => occ (emitted_by E t' tr) k) (seq 0 t)).

(** ** A small engine to run *)

(** A hash for running the model: the first byte of the key. *)
Definition demo_hash (k : str) : N :=
  match k with
  | c :: _ => N_of_ascii c
  | [] => 0%N
  end.

(** Two files, two workers, bigrams. *)
Definition demo_engine : engine :=
  mkEngine demo_hash [s_ "a b a b"; s_ "a b"] 2 2.

(** Both workers claim a file, then write, read and print in turn. *)
Definition demo_schedule : list nat := [0;1;0;0;0;1;1;1;0;0;0;1;1;1].

Definition demo_run : option (list event * state) :=
  run_schedule demo_engine demo_schedule (init demo_engine).

Definition demo_trace : list event :=
  match demo_run with Some (tr, _) => tr | None => [] end.

Definition demo_state : state :=
  match demo_run with Some (_, s) => s | None => init demo_engine end.

(** Worker 0 runs to its end as early as it can: worker 1 has then set
    only the promise addressed to worker 0. *)
Definition early_schedule : list nat := [0;0;0;0;0;1;1;0;0;0].

Definition early_run : option (list event * state) :=
  run_schedule demo_engine early_schedule (init demo_engine).

Definition early_trace : list event :=
  match early_run with Some (tr, _) => tr | None => [] end.

Definition early_state : state :=
  match early_run with Some (_, s) => s | None => init demo_engine end.

(** "No worker merges a future before all the promises are set." *)
Definition reduce_after_all_writes (E : engine) (tr : list event) : Prop :=
  forall tr1 w t tr2,
    tr = tr1 ++ Read w t :: tr2 ->
    forall i j, i < num_threads E -> j < num_threads E ->
                In (Write j i) tr1.

(** ** The matrices of promises and futures *)

(** [m.at(i).at(j)]; [None] when an index is out of range. *)
Definition at2 {A} (m : list (list A)) (i j : nat) : option A :=
  match nth_error m i with
  | Some row => nth_error row j
  | None => None
  end.

(** The inner loop [for (j = 0; j < num_threads; j++)] that pushes one
    fresh promise per iteration. *)
Definition promise_row (num_threads : nat) : list promise :=
  fold_left (fun vec _ => vec ++ [None]) (seq 0 num_threads) [].

(** The outer loop that pushes [num_threads] such rows. *)
Definition build_shuffle_matrix (num_threads : nat) : list (list promise) :=
  fold_left (fun m _ => m ++ [promise_row num_threads])
    (seq 0 num_threads) [].

(** The loops that fill [shuffle_matrix_fut]: the future pushed at
    [(i, prom_id)] comes from [shuffle_matrix.at(i).at(prom_id)] and is
    written here as the position of that promise; [None] when an [at]
    throws. *)
Definition future_row (m : list (list promise)) (num_threads i : nat)
  : option (list (nat * nat)) :=
  fold_left
    (fun acc prom_id =>
       match acc, at2 m i prom_id with
       | Some vec, Some _ => Some (vec ++ [(i, prom_id)])
       | _, _ => None
       end)
    (seq 0 num_threads) (Some []).

Definition build_future_matrix (m : list (list promise)) (num_threads : nat)
  : option (list (list (nat * nat))) :=
  fold_left
    (fun acc i =>
       match acc, future_row m num_threads i with
       | Some rows, Some vec => Some (rows ++ [vec])
       | _, _ => None
       end)
    (seq 0 num_threads) (Some []).

(** ** One thread, one table *)

(** What a single loop over the files leaves in a single table. *)
Definition sequential_table (E : engine) : table :=
  fold_left (fun m c => process_file (ngram E) c m) (files_to_sweep E) [].

(** ** Steps left *)

(** Number of steps a worker at [p] still takes, its fetches apart. *)
Definition steps_left (E : engine) (p : phase) : nat :=
  match p with
  | PMap => 2 * num_threads E + 1
  | PWrite i => 2 * num_threads E + 1 - i
  | PRead t => num_threads E + 1 - t
  | PPrint => 1
  | PDone | PAbort => 0
  end.

(** Number of steps left to the whole engine. *)
Definition remaining (E : engine) (s : state) : nat :=
  (length (files_to_sweep E) + num_threads E - Z.to_nat (global_index s))
  + list_sum (map (fun th => steps_left E (pc th)) (workers s)).

(** ** Bytes the tokenizer cannot tell apart *)

(** One byte through the three transforms. *)
Definition normalize_char (c : ascii) : ascii :=
  removePunctuationAndNumbers (removeNewlineAndTab (toLowerCase c)).

(** After the transforms, a byte that is neither a letter nor the break
    marker only separates words. *)
Definition is_separator (c : ascii) : bool :=
  negb (is_lower c) && negb (is_break c).

(** Two normalized bytes the two regular expressions treat alike. *)
Definition alike (c1 c2 : ascii) : Prop :=
  c1 = c2 \/ (is_separator c1 = true /\ is_separator c2 = true).

(** Two bytes that normalize to the same byte, or both to separators. *)
Definition same_class (c1 c2 : ascii) : Prop :=
  alike (normalize_char c1) (normalize_char c2).

(** The bytes of all the files. *)
Definition total_bytes (E : engine) : nat :=
  list_sum (map (@length ascii) (files_to_sweep E)).

(** ** [main] *)

(** [isspace] in the C locale. *)
Definition isspace (c : ascii) : bool :=
  (code c =? 32) || ((9 <=? code c) && (code c <=? 13)).

Inductive stoi_result :=
| StoiOk (v : Z)
| InvalidArgument
| OutOfRange.

Fixpoint skip_spaces (s : str) : str :=
  match s with
  | c :: s' => if isspace c then skip_spaces s' else s
  | [] => []
  end.

(** The value of the leading decimal digits. *)
Fixpoint read_digits (acc : Z) (s : str) : Z :=
  match s with
  | c :: s' =>
      if spec_is_digit c
      then read_digits (acc * 10 + (Z.of_nat (code c) - 48)) s'
      else acc
  | [] => acc
  end.

(** [std::stoi(s)]: [strtol] in base 10 (leading white space, an optional
    sign, then digits; what follows the digits is ignored), which throws
    [std::invalid_argument] when there is no digit to convert and
    [std::out_of_range] when the value is not an [int]. *)
Definition stoi (s : str) : stoi_result :=
  let s := skip_spaces s in
  let '(negative, s) :=
    match s with
    | c :: s' =>
        if Ascii.eqb c "-" then (true, s')
        else if Ascii.eqb c "+" then (false, s')
        else (false, s)
    | [] => (false, [])
    end in
  match s with
  | c :: _ =>
      if spec_is_digit c then
        let v := read_digits 0 s in
        let v := if negative then (- v)%Z else v in
        if ((- 2 ^ 31 <=? v) && (v <=? 2 ^ 31 - 1))%Z then StoiOk v
        else OutOfRange
      else InvalidArgument
  | [] => InvalidArgument
  end.

(** What [main] does with its arguments. *)
Inductive main_outcome :=
| MainUsage (line : str)
    (* the usage line is printed and [main] returns 1 *)
| MainThrows
    (* a [std::stoi] threw: no counter is built *)
| MainRuns (dir : str) (threads n : Z).
    (* the counter is built with these arguments and [compute] runs *)

Definition usage_line (argv0 : str) : str :=
  s_ "Usage: " ++ argv0 ++ s_ " <dir> -t=<num-threads> -n=<n-gram>".

(** [main]; [argv] holds the [argc] arguments, the program name first. *)
Definition main (argv : list str) : main_outcome :=
  if length argv <? 4 then MainUsage (usage_line (nth 0 argv []))
  else
    match stoi (nth 2 argv []), stoi (nth 3 argv []) with
    | StoiOk threads, StoiOk n => MainRuns (nth 1 argv []) threads n
    | _, _ => MainThrows
    end.

(** ** More engines to run *)

(** The two files of [demo_engine] with a single worker. *)
Definition solo_engine : engine :=
  mkEngine demo_hash [s_ "a b a b"; s_ "a b"] 1 2.

(** Three fetches, a write, a read and the print. *)
Definition solo_schedule : list nat := [0;0;0;0;0;0].

Definition solo_run : option (list event * state) :=
  run_schedule solo_engine solo_schedule (init solo_engine).

Definition solo_trace : list event :=
  match solo_run with Some (tr, _) => tr | None => [] end.

Definition solo_state : state :=
  match solo_run with Some (_, s) => s | None => init solo_engine end.

(** The two files and two workers of [demo_engine] with [ngram = 0]. *)
Definition zero_engine : engine :=
  mkEngine demo_hash [s_ "a b a b"; s_ "a b"] 2 0.

Definition zero_run : option (list event * state) :=
  run_schedule zero_engine demo_schedule (init zero_engine).

Definition zero_trace : list event :=
  match zero_run with Some (tr, _) => tr | None => [] end.

Definition zero_state : state :=
  match zero_run with Some (_, s) => s | None => init zero_engine end.

(** Two files and no worker. *)
Definition idle_engine : engine :=
  mkEngine demo_hash [s_ "a b a b"; s_ "a b"] 0 2.

(** ** Engines with one file and one worker *)

(** The only worker fetches the file, fails to fetch another, sets its
    promise, reads its future and prints. *)
Definition one_file_schedule : list nat := [0;0;0;0;0].

(** Seven words with the counts 1, 2, 3, 4, 5, 6 and 1. *)
Definition top_engine : engine :=
  mkEngine demo_hash [s_ "a b b c c c d d d d e e e e e f f f f f f g"] 1 1.

Definition top_run : option (list event * state) :=
  run_schedule top_engine one_file_schedule (init top_engine).

Definition top_trace : list event :=
  match top_run with Some (tr, _) => tr | None => [] end.

Definition top_state : state :=
  match top_run with Some (_, s) => s | None => init top_engine end.

(** Four words, each once: every count is tied. *)
Definition tie_engine : engine :=
  mkEngine demo_hash [s_ "a b c d"] 1 1.

Definition tie_run : option (list event * state) :=
  run_schedule tie_engine one_file_schedule (init tie_engine).

Definition tie_trace : list event :=
  match tie_run with Some (tr, _) => tr | None => [] end.

Definition tie_state : state :=
  match tie_run with Some (_, s) => s | None => init tie_engine end.

(** Six words, five of them tied, one more than the slots can hold. *)
Definition spill_engine : engine :=
  mkEngine demo_hash [s_ "a b c d e f f"] 1 1.

Definition spill_run : option (list event * state) :=
  run_schedule spill_engine one_file_schedule (init spill_engine).

Definition spill_trace : list event :=
  match spill_run with Some (tr, _) => tr | None => [] end.

Definition spill_state : state :=
  match spill_run with Some (_, s) => s | None => init spill_engine end.

(* ------------------------------------------------------------------ *)

(** * Bytes *)

(** A property of one byte is checked on the 256 bytes. *)
Ltac each_byte c :=
  destruct c as [[|] [|] [|] [|] [|] [|] [|] [|]];
  vm_compute; try reflexivity; try discriminate; try (intros; discriminate).

Lemma is_lower_spec c : is_lower c = spec_is_lower c.
Proof. each_byte c. Qed.

Lemma is_break_spec c : is_break c = Ascii.eqb c break_marker.
Proof. each_byte c. Qed.

(** The three passes of the source are the normalization of the
    specification. *)
Lemma normalize_char_spec c :
  removePunctuationAndNumbers (removeNewlineAndTab (toLowerCase c))
  = spec_normalize_char c.
Proof. each_byte c. Qed.

Lemma normalize_spec s : normalize s = map spec_normalize_char s.
Proof.
  unfold normalize. rewrite !map_map. apply map_ext, normalize_char_spec.
Qed.

(** Reading [char] as unsigned gives the same three transforms. *)
Lemma signedness_irrelevant c :
  (toLowerCase c =
     if ((65 <=? uchar_val c) && (uchar_val c <=? 90))%Z
     then to_char (uchar_val c + 32) else c)
  /\ (removeNewlineAndTab c =
     if ((uchar_val c =? 9) || (uchar_val c =? 10))%Z then to_char 32 else c)
  /\ (removePunctuationAndNumbers c =
     if ((33 <=? uchar_val c) && (uchar_val c <=? 64)
         || (91 <=? uchar_val c) && (uchar_val c <=? 96)
         || (123 <=? uchar_val c) && (uchar_val c <=? 126))%Z
     then to_char 124 else c).
Proof. each_byte c; repeat split. Qed.

Lemma lower_not_break c : is_lower c = true -> is_break c = false.
Proof. each_byte c. Qed.

Lemma lower_normalized c :
  is_lower c = true ->
  removePunctuationAndNumbers (removeNewlineAndTab (toLowerCase c)) = c.
Proof. each_byte c. Qed.

Lemma unmapped_normalized c :
  unmapped c = true ->
  toLowerCase c = c /\ removeNewlineAndTab c = c
  /\ removePunctuationAndNumbers c = c
  /\ is_break c = false /\ is_lower c = false.
Proof. each_byte c; intros _; repeat split. Qed.

Lemma punct_digit_break c :
  spec_is_punct c || spec_is_digit c = true ->
  spec_normalize_char c = break_marker.
Proof. each_byte c. Qed.

Lemma space_not_lower : is_lower " "%char = false.
Proof. reflexivity. Qed.

(** * Tokens and words *)

Lemma spec_segments_not_nil s : spec_segments s <> [].
Proof.
  destruct s as [|c s]; simpl; [discriminate|].
  destruct (Ascii.eqb c break_marker); [discriminate|].
  destruct (spec_segments s); discriminate.
Qed.

(** The tokens of the iterator are the segments, up to empty tokens,
    which the loop skips. *)
Lemma split_tokens_segments (F : str -> list str) :
  F [] = [] ->
  forall s cur,
    flat_map F (split_tokens cur s)
    = flat_map F (match spec_segments s with
                  | seg :: segs => (cur ++ seg) :: segs
                  | [] => [cur]
                  end).
Proof.
  intros HF. induction s as [|c s IH]; intros cur; simpl.
  - rewrite !app_nil_r. destruct cur; simpl; [now rewrite HF|].
    now rewrite app_nil_r.
  - rewrite is_break_spec. destruct (Ascii.eqb c break_marker); simpl.
    + rewrite app_nil_r, IH. f_equal.
      destruct (spec_segments s) eqn:Hs; [now apply spec_segments_not_nil in Hs|].
      reflexivity.
    + rewrite IH. destruct (spec_segments s) eqn:Hs;
        [now apply spec_segments_not_nil in Hs|].
      simpl. now rewrite <- app_assoc.
Qed.

Lemma split_tokens_no_break s :
  existsb is_break s = false ->
  forall cur, split_tokens cur s
              = match cur ++ s with [] => [] | _ => [cur ++ s] end.
Proof.
  induction s as [|c s IH]; simpl; intros H cur.
  - rewrite app_nil_r. reflexivity.
  - apply orb_false_iff in H as [Hc Hs]. rewrite Hc, IH by assumption.
    rewrite <- app_assoc. reflexivity.
Qed.

Lemma regex_split_segments (F : str -> list str) s :
  F [] = [] ->
  flat_map F (regex_split s) = flat_map F (spec_segments s).
Proof.
  intros HF. unfold regex_split.
  destruct (existsb is_break s) eqn:Hb.
  - rewrite split_tokens_segments by assumption.
    destruct (spec_segments s) eqn:Hs; [now apply spec_segments_not_nil in Hs|].
    reflexivity.
  - pose proof (split_tokens_segments F HF s []) as H.
    destruct (spec_segments s) as [|seg segs] eqn:Hs;
      [now apply spec_segments_not_nil in Hs|].
    change ([] ++ seg) with seg in H. rewrite <- H, split_tokens_no_break by assumption.
    simpl. destruct s; simpl; [now rewrite HF|reflexivity].
Qed.

Lemma starts_lower_words s : starts_lower s = true -> spec_words s <> [].
Proof.
  destruct s as [|c s]; simpl; [discriminate|]. intros ->.
  destruct (starts_lower s); [destruct (spec_words s)|]; discriminate.
Qed.

(** The matches of [[a-z]+] are the maximal runs of lowercase letters. *)
Lemma words_from_spec s :
  forall cur,
    words_from cur s
    = match cur with
      | [] => spec_words s
      | _ => if starts_lower s
             then match spec_words s with
                  | w :: ws => (cur ++ w) :: ws
                  | [] => [cur]
                  end
             else cur :: spec_words s
      end.
Proof.
  induction s as [|c s IH]; intros cur; simpl.
  - destruct cur; reflexivity.
  - rewrite is_lower_spec. destruct (spec_is_lower c) eqn:Hc.
    + rewrite IH. destruct cur as [|a cur]; simpl.
      * destruct (starts_lower s) eqn:Hs.
        -- destruct (spec_words s) eqn:Hw;
             [now apply starts_lower_words in Hs|reflexivity].
        -- reflexivity.
      * destruct (starts_lower s) eqn:Hs.
        -- destruct (spec_words s) eqn:Hw;
             [now apply starts_lower_words in Hs|].
           now rewrite <- app_assoc.
        -- reflexivity.
    + rewrite IH. destruct cur; reflexivity.
Qed.

Lemma regex_words_spec s : regex_words s = spec_words s.
Proof. unfold regex_words. now rewrite words_from_spec. Qed.

(** * N-grams of a sequence of words *)

Lemma extend_ngram_spec n rest :
  forall k cur,
    k <= n ->
    extend_ngram n k cur rest
    = (Nat.min n (k + length rest),
       cur ++ flat_map (fun x => space ++ x) (firstn (n - k) rest)).
Proof.
  induction rest as [|word rest IH]; intros k cur Hk; simpl.
  - rewrite firstn_nil, app_nil_r. f_equal. lia.
  - destruct (k <? n) eqn:Hlt.
    + apply Nat.ltb_lt in Hlt. rewrite IH by lia.
      replace (n - k) with (S (n - S k)) by lia. simpl.
      rewrite <- !app_assoc. f_equal. lia.
    + apply Nat.ltb_ge in Hlt. replace (n - k) with 0 by lia.
      simpl. rewrite app_nil_r. f_equal. lia.
Qed.

Lemma flat_map_map {A B C} (f : B -> list C) (g : A -> B) l :
  flat_map f (map g l) = flat_map (fun x => f (g x)) l.
Proof. induction l; simpl; congruence. Qed.

Lemma spec_ngrams_cons n w rest :
  spec_ngrams n (w :: rest)
  = (if n <=? S (length rest) then [join_words (firstn n (w :: rest))]
     else [])
    ++ spec_ngrams n rest.
Proof.
  unfold spec_ngrams. cbn [length seq flat_map]. f_equal.
  rewrite <- seq_shift, flat_map_map. apply flat_map_ext. intros i.
  reflexivity.
Qed.

(** The two nested loops emit, for every word position with [ngram - 1]
    further words, that word and the next [ngram - 1] joined by spaces. *)
Lemma sequence_ngrams_spec n ws :
  1 <= n -> sequence_ngrams n ws = spec_ngrams n ws.
Proof.
  intros Hn. induction ws as [|w rest IH]; [reflexivity|].
  rewrite spec_ngrams_cons. cbn [sequence_ngrams].
  rewrite extend_ngram_spec by assumption. rewrite IH. f_equal.
  destruct n as [|n']; [lia|]. cbn [firstn join_words].
  replace (S n' - 1) with n' by lia.
  destruct (S n' <=? S (length rest)) eqn:Hle.
  - apply Nat.leb_le in Hle.
    replace (Nat.min (S n') (1 + length rest)) with (S n') by lia.
    now rewrite Nat.eqb_refl.
  - apply Nat.leb_gt in Hle.
    replace (Nat.min (S n') (1 + length rest) =? S n') with false;
      [reflexivity|].
    symmetry. apply Nat.eqb_neq. lia.
Qed.

(** With [ngram = 0] nothing is emitted. *)
Lemma sequence_ngrams_zero ws : sequence_ngrams 0 ws = [].
Proof. induction ws as [|w rest IH]; simpl; [|destruct rest]; auto. Qed.

Lemma count_sequence_ngrams n ws :
  forall m,
    count_sequence n ws m
    = fold_left (fun m k => tbl_incr k m) (sequence_ngrams n ws) m.
Proof.
  induction ws as [|w rest IH]; intros m; [reflexivity|].
  cbn [count_sequence sequence_ngrams].
  destruct (extend_ngram n 1 w rest) as [n' cur].
  rewrite fold_left_app, IH. destruct (n' =? n); reflexivity.
Qed.

(** [process_file] increments the keys of [file_ngrams], in order. *)
Lemma process_file_ngrams n contents m :
  process_file n contents m
  = fold_left (fun m k => tbl_incr k m) (file_ngrams n contents) m.
Proof.
  unfold process_file, file_ngrams.
  generalize (regex_split (normalize contents)) as toks. intros toks.
  revert m. induction toks as [|tok toks IH]; intros m; [reflexivity|].
  cbn [fold_left flat_map]. rewrite fold_left_app, IH.
  destruct tok; [reflexivity|]. now rewrite count_sequence_ngrams.
Qed.

(** The emitted keys are those of the specification's tokenizer. *)
Lemma file_ngrams_spec n contents :
  1 <= n -> file_ngrams n contents = spec_tokenize n contents.
Proof.
  intros Hn. unfold file_ngrams, spec_tokenize.
  rewrite <- normalize_spec.
  rewrite regex_split_segments by reflexivity.
  apply flat_map_ext. intros seg.
  rewrite regex_words_spec, sequence_ngrams_spec by assumption.
  destruct seg; reflexivity.
Qed.

(** * Words are maximal runs *)

Lemma runs_of_sep c s ws :
  is_lower c = false -> runs_of s ws -> runs_of (c :: s) ws.
Proof.
  intros Hc H. inversion H; subst.
  - apply runs_nil. simpl. now rewrite Hc.
  - change (c :: sep ++ w ++ rest) with ((c :: sep) ++ w ++ rest).
    apply runs_cons; auto. simpl. now rewrite Hc.
Qed.

Lemma runs_word w rest ws :
  w <> [] -> forallb is_lower w = true ->
  match rest with [] => True | c :: _ => is_lower c = false end ->
  runs_of rest ws -> runs_of (w ++ rest) (w :: ws).
Proof. intros. now apply (runs_cons [] w rest ws). Qed.

Lemma words_from_runs s :
  runs_of s (words_from [] s)
  /\ forall cur, cur <> [] -> forallb is_lower cur = true ->
                 runs_of (cur ++ s) (words_from cur s).
Proof.
  induction s as [|c s [IH0 IH1]]; split.
  - now apply runs_nil.
  - intros cur Hne Hlow. destruct cur as [|a cur]; [easy|].
    apply (runs_word (a :: cur) [] []); auto. now apply runs_nil.
  - simpl. destruct (is_lower c) eqn:Hc.
    + apply (IH1 [c]); [discriminate|]. simpl. now rewrite Hc.
    + now apply runs_of_sep.
  - intros cur Hne Hlow. simpl. destruct (is_lower c) eqn:Hc.
    + replace (cur ++ c :: s) with ((cur ++ [c]) ++ s)
        by now rewrite <- app_assoc.
      apply IH1; [now destruct cur|].
      rewrite forallb_app, Hlow. simpl. now rewrite Hc.
    + destruct cur as [|a cur]; [easy|].
      apply (runs_word (a :: cur) (c :: s)); auto.
      now apply runs_of_sep.
Qed.

(** The words of a sequence are its maximal runs of lowercase letters. *)
Lemma regex_words_runs s : runs_of s (regex_words s).
Proof. apply words_from_runs. Qed.

Lemma runs_of_lower s ws :
  runs_of s ws -> Forall (fun w => w <> [] /\ forallb is_lower w = true) ws.
Proof. induction 1; constructor; auto. Qed.

(** * Segments *)

Lemma spec_segments_join s : join_segments (spec_segments s) = s.
Proof.
  induction s as [|c s IH]; [reflexivity|]. cbn [spec_segments].
  destruct (spec_segments s) as [|seg segs] eqn:Hs;
    [now apply spec_segments_not_nil in Hs|].
  destruct (Ascii.eqb c break_marker) eqn:Hc.
  - apply Ascii.eqb_eq in Hc. subst c.
    change (join_segments ([] :: seg :: segs))
      with (break_marker :: join_segments (seg :: segs)).
    now rewrite IH.
  - rewrite <- IH. cbn [join_segments]. destruct segs; reflexivity.
Qed.

Lemma spec_segments_no_break s :
  Forall (fun seg => existsb is_break seg = false) (spec_segments s).
Proof.
  induction s as [|c s IH]; simpl; [repeat constructor|].
  destruct (Ascii.eqb c break_marker) eqn:Hc; [now constructor|].
  destruct (spec_segments s) as [|seg segs]; inversion IH; subst;
    constructor; auto; simpl; rewrite is_break_spec, Hc; auto.
Qed.

(** * Shape of the emitted keys *)

Lemma in_spec_ngrams n ws g :
  In g (spec_ngrams n ws) <->
  exists i, i + n <= length ws /\ i < length ws
            /\ g = join_words (firstn n (skipn i ws)).
Proof.
  unfold spec_ngrams. rewrite in_flat_map. split.
  - intros (i & Hi & Hg). apply in_seq in Hi.
    destruct (i + n <=? length ws) eqn:Hle; [|easy].
    apply Nat.leb_le in Hle. destruct Hg as [<-|[]]. exists i. repeat split; lia.
  - intros (i & Hle & Hlt & ->). exists i. split; [apply in_seq; lia|].
    apply Nat.leb_le in Hle. rewrite Hle. now left.
Qed.

Lemma join_words_chars (P : ascii -> bool) ws :
  P " "%char = true ->
  Forall (fun w => forallb P w = true) ws ->
  forallb P (join_words ws) = true.
Proof.
  intros Hsp H. destruct H as [|w rest Hw Hrest]; [reflexivity|].
  simpl. rewrite forallb_app, Hw. simpl.
  induction Hrest as [|x rest Hx _ IH]; [reflexivity|].
  simpl. rewrite Hsp, forallb_app, Hx. exact IH.
Qed.

Lemma Forall_firstn_skipn {A} (P : A -> Prop) n i (l : list A) :
  Forall P l -> Forall P (firstn n (skipn i l)).
Proof.
  intros H. rewrite <- (firstn_skipn i l) in H.
  apply Forall_app in H as [_ H].
  rewrite <- (firstn_skipn n (skipn i l)) in H.
  now apply Forall_app in H as [H _].
Qed.

(** An emitted key is made of lowercase letters and spaces. *)
Lemma file_ngrams_chars n contents :
  1 <= n ->
  Forall (fun g => forallb (fun c => is_lower c || Ascii.eqb c " ") g = true)
    (file_ngrams n contents).
Proof.
  intros Hn. rewrite file_ngrams_spec by assumption. unfold spec_tokenize.
  apply Forall_forall. intros g Hg. apply in_flat_map in Hg as (seg & _ & Hg).
  apply in_spec_ngrams in Hg as (i & _ & _ & ->).
  apply join_words_chars; [reflexivity|].
  apply Forall_firstn_skipn. rewrite <- regex_words_spec.
  eapply Forall_impl; [|apply (runs_of_lower seg), regex_words_runs].
  intros w [_ Hw]. rewrite forallb_forall in *. intros c Hc.
  now rewrite (Hw c Hc).
Qed.

(** * Bytes the transforms leave alone *)

Lemma words_from_lower u s :
  forallb is_lower u = true ->
  forall cur, words_from cur (u ++ s) = words_from (cur ++ u) s.
Proof.
  induction u as [|c u IH]; simpl; intros H cur.
  - now rewrite app_nil_r.
  - apply andb_true_iff in H as [Hc Hu]. rewrite Hc, IH by assumption.
    now rewrite <- app_assoc.
Qed.

Lemma words_from_seps sep s :
  forallb (fun c => negb (is_lower c)) sep = true ->
  words_from [] (sep ++ s) = words_from [] s
  /\ forall cur, cur <> [] -> sep <> [] ->
                 words_from cur (sep ++ s) = cur :: words_from [] s.
Proof.
  induction sep as [|c sep IH]; simpl; intros H; [split; easy|].
  apply andb_true_iff in H as [Hc Hs]. apply negb_true_iff in Hc.
  rewrite Hc. destruct (IH Hs) as [IH0 IH1]. split; [exact IH0|].
  intros cur Hne _. destruct cur; [easy|]. now rewrite IH0.
Qed.

Lemma normalize_fixed s :
  forallb (fun c => is_lower c || unmapped c) s = true -> normalize s = s.
Proof.
  intros H. rewrite normalize_spec. rewrite <- (map_id s) at 2.
  apply map_ext_in. intros c Hc. rewrite forallb_forall in H.
  specialize (H c Hc). rewrite <- normalize_char_spec.
  apply orb_true_iff in H as [H|H].
  - now apply lower_normalized.
  - destruct (unmapped_normalized c H) as (-> & -> & -> & _). reflexivity.
Qed.

(** * Order on strings *)

Lemma str_compare_eq a b : str_compare a b = Eq <-> a = b.
Proof.
  revert b. induction a as [|x a IH]; destruct b as [|y b]; simpl;
    try (split; discriminate); [split; reflexivity|].
  destruct (Ascii.compare x y) eqn:Hxy.
  - apply Ascii.compare_eq_iff in Hxy. subst y. rewrite IH.
    split; congruence.
  - split; [discriminate|]. intros [= -> _].
    unfold Ascii.compare in Hxy. rewrite N.compare_refl in Hxy. discriminate.
  - split; [discriminate|]. intros [= -> _].
    unfold Ascii.compare in Hxy. rewrite N.compare_refl in Hxy. discriminate.
Qed.

Lemma str_compare_refl a : str_compare a a = Eq.
Proof. now apply str_compare_eq. Qed.

Lemma str_compare_antisym a b :
  str_compare a b = CompOpp (str_compare b a).
Proof.
  revert b. induction a as [|x a IH]; destruct b as [|y b]; simpl; auto.
  rewrite (Ascii.compare_antisym x y).
  destruct (Ascii.compare y x); simpl; auto.
Qed.

Lemma str_compare_gt a b : str_compare a b = Gt <-> str_compare b a = Lt.
Proof.
  rewrite (str_compare_antisym a b).
  destruct (str_compare b a); simpl; split; congruence.
Qed.

Lemma str_lt_trans a b c :
  str_compare a b = Lt -> str_compare b c = Lt -> str_compare a c = Lt.
Proof.
  revert b c. induction a as [|x a IH]; intros [|y b] [|z c]; simpl;
    try discriminate; auto.
  unfold Ascii.compare.
  destruct (N.compare_spec (N_of_ascii x) (N_of_ascii y)) as [Hxy|Hxy|Hxy];
    try discriminate;
  destruct (N.compare_spec (N_of_ascii y) (N_of_ascii z)) as [Hyz|Hyz|Hyz];
    try discriminate; intros H1 H2.
  - rewrite Hxy, Hyz, N.compare_refl. eauto.
  - rewrite Hxy. now apply N.compare_lt_iff in Hyz as ->.
  - rewrite <- Hyz. now apply N.compare_lt_iff in Hxy as ->.
  - assert (Hxz : (N_of_ascii x < N_of_ascii z)%N) by lia.
    now apply N.compare_lt_iff in Hxz as ->.
Qed.

Lemma str_lt_neq a b : str_compare a b = Lt -> a <> b.
Proof. intros H ->. rewrite str_compare_refl in H. discriminate. Qed.

(** * Tables *)

Lemma keys_above_find k m : keys_above k m -> tbl_find k m = None.
Proof.
  induction 1 as [|[k' v] m Hk _ IH]; [reflexivity|].
  simpl in *. now rewrite Hk.
Qed.

Lemma keys_above_trans k k' m :
  str_compare k k' = Lt -> keys_above k' m -> keys_above k m.
Proof.
  intros Hk H. eapply Forall_impl; [|exact H].
  intros e He. eapply str_lt_trans; eassumption.
Qed.

Lemma tbl_add_above k0 k c m :
  str_compare k0 k = Lt -> keys_above k0 m -> keys_above k0 (tbl_add k c m).
Proof.
  intros Hk. induction 1 as [|[k' v] m Hk' Hm IH]; simpl.
  - now repeat constructor.
  - destruct (str_compare k k') eqn:Hc; repeat constructor; auto.
Qed.

Lemma tbl_add_sorted k c m : tbl_sorted m -> tbl_sorted (tbl_add k c m).
Proof.
  induction m as [|[k' v] m IH]; simpl; [now repeat constructor|].
  intros [Hab Hs]. destruct (str_compare k k') eqn:Hc; simpl.
  - auto.
  - split; [|auto]. constructor; [exact Hc|].
    eapply keys_above_trans; eassumption.
  - split; [|auto]. apply tbl_add_above; [|assumption].
    now apply str_compare_gt.
Qed.

Lemma tbl_find_add_same k c m :
  tbl_sorted m ->
  tbl_find k (tbl_add k c m) = Some ((tbl_get k m + c) mod UINT64_MOD)%Z.
Proof.
  unfold tbl_get. induction m as [|[k' v] m IH]; simpl.
  - now rewrite str_compare_refl.
  - intros [Hab Hs]. destruct (str_compare k k') eqn:Hc; simpl.
    + now rewrite Hc.
    + rewrite str_compare_refl.
      rewrite (keys_above_find k m); [reflexivity|].
      eapply keys_above_trans; eassumption.
    + rewrite Hc. auto.
Qed.

Lemma tbl_find_add_other k k' c m :
  k' <> k -> tbl_find k' (tbl_add k c m) = tbl_find k' m.
Proof.
  intros Hne. induction m as [|[k1 v] m IH]; simpl.
  - destruct (str_compare k' k) eqn:Hc; auto.
    now apply str_compare_eq in Hc.
  - destruct (str_compare k k1) eqn:Hc; simpl.
    + apply str_compare_eq in Hc. subst k1.
      destruct (str_compare k' k) eqn:Hc'; auto.
      now apply str_compare_eq in Hc'.
    + destruct (str_compare k' k) eqn:Hc'; auto.
      now apply str_compare_eq in Hc'.
    + now rewrite IH.
Qed.

Lemma tbl_find_in k v m :
  tbl_sorted m -> (tbl_find k m = Some v <-> In (k, v) m).
Proof.
  induction m as [|[k' v'] m IH]; simpl; [split; [discriminate|tauto]|].
  intros [Hab Hs]. destruct (str_compare k k') eqn:Hc.
  - apply str_compare_eq in Hc. subst k'. split.
    + intros [= ->]. now left.
    + intros [[= ->]|Hin]; [reflexivity|].
      unfold keys_above in Hab. rewrite Forall_forall in Hab.
      specialize (Hab _ Hin). simpl in Hab.
      rewrite str_compare_refl in Hab. discriminate.
  - rewrite IH by assumption. split; [tauto|].
    intros [[= -> _]|Hin]; [|assumption].
    rewrite str_compare_refl in Hc. discriminate.
  - rewrite IH by assumption. split; [tauto|].
    intros [[= -> _]|Hin]; [|assumption].
    rewrite str_compare_refl in Hc. discriminate.
Qed.

(** Two sorted tables with the same entries are the same list. *)
Lemma tbl_ext m1 :
  forall m2,
    tbl_sorted m1 -> tbl_sorted m2 ->
    (forall k, tbl_find k m1 = tbl_find k m2) -> m1 = m2.
Proof.
  induction m1 as [|[k1 v1] m1 IH]; intros [|[k2 v2] m2] Hs1 Hs2 H.
  - reflexivity.
  - specialize (H k2). simpl in H. rewrite str_compare_refl in H. discriminate.
  - specialize (H k1). simpl in H. rewrite str_compare_refl in H. discriminate.
  - destruct Hs1 as [Ha1 Hs1], Hs2 as [Ha2 Hs2].
    assert (Hk : k1 = k2).
    { destruct (str_compare k1 k2) eqn:Hc.
      - now apply str_compare_eq.
      - pose proof (H k1) as H1. simpl in H1.
        rewrite str_compare_refl, Hc in H1.
        rewrite (keys_above_find k1 m2) in H1; [discriminate|].
        eapply keys_above_trans; eassumption.
      - apply str_compare_gt in Hc. pose proof (H k2) as H2. simpl in H2.
        rewrite str_compare_refl, Hc in H2.
        rewrite (keys_above_find k2 m1) in H2; [discriminate|].
        eapply keys_above_trans; eassumption. }
    subst k2. pose proof (H k1) as H1. simpl in H1.
    rewrite str_compare_refl in H1. injection H1 as ->.
    f_equal. apply IH; auto. intros k. specialize (H k). simpl in H.
    destruct (str_compare k k1) eqn:Hc; auto.
    apply str_compare_eq in Hc. subst k.
    now rewrite !keys_above_find.
Qed.

Lemma filter_keys_above k (p : entry -> bool) m :
  keys_above k m -> keys_above k (filter p m).
Proof.
  intros H. apply Forall_forall. intros e He. apply filter_In in He as [He _].
  exact (proj1 (Forall_forall _ _) H e He).
Qed.

Lemma filter_sorted (p : entry -> bool) m :
  tbl_sorted m -> tbl_sorted (filter p m).
Proof.
  induction m as [|[k v] m IH]; simpl; [auto|]. intros [Hab Hs].
  destruct (p (k, v)); simpl; auto using filter_keys_above.
Qed.

Lemma tbl_find_filter (p : str -> bool) k m :
  tbl_find k (filter (fun e => p (fst e)) m)
  = if p k then tbl_find k m else None.
Proof.
  induction m as [|[k' v] m IH]; simpl; [now destruct (p k)|].
  destruct (p k') eqn:Hp; simpl; destruct (str_compare k k') eqn:Hc;
    auto.
  - apply str_compare_eq in Hc. subst k'. now rewrite Hp.
  - apply str_compare_eq in Hc. subst k'. now rewrite IH, Hp.
Qed.

Lemma merge_updates_sorted us :
  forall m, tbl_sorted m -> tbl_sorted (merge_updates us m).
Proof.
  unfold merge_updates.
  induction us as [|[k c] us IH]; simpl; auto using tbl_add_sorted.
Qed.

(** Merging a bucket adds its count to the count already stored. *)
Lemma tbl_find_merge k us :
  tbl_sorted us ->
  forall m,
    tbl_sorted m ->
    tbl_find k (merge_updates us m)
    = match tbl_find k us with
      | Some c => Some ((tbl_get k m + c) mod UINT64_MOD)%Z
      | None => tbl_find k m
      end.
Proof.
  unfold merge_updates.
  induction us as [|[k1 c1] us IH]; simpl; [reflexivity|].
  intros [Hab Hs] m Hm. rewrite IH by auto using tbl_add_sorted.
  destruct (str_compare k k1) eqn:Hc.
  - apply str_compare_eq in Hc. subst k1.
    rewrite (keys_above_find k us) by assumption.
    now apply tbl_find_add_same.
  - unfold tbl_get. rewrite tbl_find_add_other; [reflexivity|].
    now apply str_lt_neq.
  - unfold tbl_get. rewrite tbl_find_add_other; [reflexivity|].
    apply str_compare_gt in Hc. apply str_lt_neq in Hc. congruence.
Qed.

(** * Tables as counts *)

Lemma tbl_repr_get m f k :
  tbl_repr m f -> tbl_get k m = (Z.of_nat (f k) mod UINT64_MOD)%Z.
Proof.
  intros [_ H]. unfold tbl_get. rewrite H.
  destruct (f k =? 0) eqn:Hz; [|reflexivity].
  apply Nat.eqb_eq in Hz. now rewrite Hz.
Qed.

Lemma tbl_repr_nil : tbl_repr [] (fun _ => 0).
Proof. split; simpl; auto. Qed.

Lemma tbl_repr_fun m f g :
  (forall k, f k = g k) -> tbl_repr m f -> tbl_repr m g.
Proof. intros Hfg [Hs H]. split; [exact Hs|]. intros k. now rewrite <- Hfg. Qed.

Lemma tbl_repr_unique m1 m2 f :
  tbl_repr m1 f -> tbl_repr m2 f -> m1 = m2.
Proof.
  intros [Hs1 H1] [Hs2 H2]. apply tbl_ext; auto.
  intros k. now rewrite H1, H2.
Qed.

Lemma tbl_repr_incr m f k :
  tbl_repr m f ->
  tbl_repr (tbl_incr k m) (fun x => if str_eq_dec x k then S (f x) else f x).
Proof.
  intros Hr. pose proof Hr as [Hs H]. split.
  - now apply tbl_add_sorted.
  - intros x. unfold tbl_incr. destruct (str_eq_dec x k) as [->|Hne].
    + rewrite tbl_find_add_same by assumption.
      rewrite (tbl_repr_get m f k Hr). simpl. f_equal.
      rewrite Zplus_mod_idemp_l. f_equal. lia.
    + rewrite tbl_find_add_other by assumption. apply H.
Qed.

Lemma occ_app l1 l2 k : occ (l1 ++ l2) k = occ l1 k + occ l2 k.
Proof. apply count_occ_app. Qed.

Lemma occ_cons x l k :
  occ (x :: l) k = (if str_eq_dec k x then 1 else 0) + occ l k.
Proof.
  unfold occ. simpl.
  destruct (str_eq_dec x k), (str_eq_dec k x); simpl; congruence.
Qed.

Lemma tbl_repr_fold keys :
  forall m f,
    tbl_repr m f ->
    tbl_repr (fold_left (fun m k => tbl_incr k m) keys m)
      (fun k => f k + occ keys k).
Proof.
  induction keys as [|x keys IH]; intros m f Hr; cbn [fold_left].
  - eapply tbl_repr_fun; [|exact Hr]. intros k. unfold occ. simpl. lia.
  - eapply tbl_repr_fun; [|apply IH, tbl_repr_incr, Hr].
    intros k. cbv beta. rewrite occ_cons.
    destruct (str_eq_dec k x); lia.
Qed.

(** [count_table] holds the number of occurrences of every key. *)
Lemma count_table_repr keys : tbl_repr (count_table keys) (occ keys).
Proof.
  eapply tbl_repr_fun; [|apply (tbl_repr_fold keys), tbl_repr_nil].
  reflexivity.
Qed.

Lemma tbl_repr_filter (p : str -> bool) m f :
  tbl_repr m f ->
  tbl_repr (filter (fun e => p (fst e)) m) (fun k => if p k then f k else 0).
Proof.
  intros [Hs H]. split; [now apply filter_sorted|].
  intros k. rewrite tbl_find_filter, H. now destruct (p k).
Qed.

Lemma tbl_repr_merge us m f g :
  tbl_repr us g -> tbl_repr m f ->
  tbl_repr (merge_updates us m) (fun k => f k + g k).
Proof.
  intros [Hsu Hu] Hr. pose proof Hr as [Hs H]. split.
  - now apply merge_updates_sorted.
  - intros k. rewrite tbl_find_merge by assumption.
    rewrite Hu, (tbl_repr_get m f k Hr).
    destruct (g k =? 0) eqn:Hg.
    + apply Nat.eqb_eq in Hg. rewrite Hg, Nat.add_0_r. apply H.
    + apply Nat.eqb_neq in Hg.
      replace (f k + g k =? 0) with false
        by (symmetry; apply Nat.eqb_neq; lia).
      f_equal. rewrite <- Zplus_mod. f_equal. lia.
Qed.

(** * Top-five selection *)

(** The loops of the heap functions are given enough turns: more
    change nothing. *)
Lemma push_heap_loop_fuel comp fuel1 :
  forall fuel2 first holeIndex topIndex value,
    holeIndex <= fuel1 -> holeIndex <= fuel2 ->
    push_heap_loop comp fuel1 first holeIndex topIndex value
    = push_heap_loop comp fuel2 first holeIndex topIndex value.
Proof.
  induction fuel1 as [|fuel1 IH]; intros fuel2 first hole top value H1 H2.
  - assert (hole = 0) by lia. subst hole.
    destruct fuel2; [reflexivity|].
    cbn [push_heap_loop Nat.ltb Nat.leb andb]. reflexivity.
  - destruct fuel2 as [|fuel2].
    + assert (hole = 0) by lia. subst hole.
      cbn [push_heap_loop Nat.ltb Nat.leb andb]. reflexivity.
    + cbn [push_heap_loop].
      destruct ((top <? hole) && comp (at_ first ((hole - 1) / 2)) value)
        eqn:Hc; [|reflexivity].
      apply andb_true_iff in Hc as [Hlt _]. apply Nat.ltb_lt in Hlt.
      assert ((hole - 1) / 2 <= hole - 1)
        by (apply Nat.Div0.div_le_upper_bound; lia).
      apply IH; lia.
Qed.

Lemma adjust_heap_loop_fuel comp fuel1 :
  forall fuel2 first holeIndex secondChild len,
    (len - 1) / 2 - secondChild <= fuel1 ->
    (len - 1) / 2 - secondChild <= fuel2 ->
    adjust_heap_loop comp fuel1 first holeIndex secondChild len
    = adjust_heap_loop comp fuel2 first holeIndex secondChild len.
Proof.
  induction fuel1 as [|fuel1 IH]; intros fuel2 first hole sc len H1 H2.
  - destruct fuel2; [reflexivity|]. cbn [adjust_heap_loop].
    replace (sc <? (len - 1) / 2) with false; [reflexivity|].
    symmetry. apply Nat.ltb_ge. lia.
  - destruct fuel2 as [|fuel2]; cbn [adjust_heap_loop].
    + replace (sc <? (len - 1) / 2) with false; [reflexivity|].
      symmetry. apply Nat.ltb_ge. lia.
    + destruct (sc <? (len - 1) / 2) eqn:Hlt; [|reflexivity].
      apply Nat.ltb_lt in Hlt.
      destruct (comp (at_ first (2 * (sc + 1)))
                  (at_ first (2 * (sc + 1) - 1))); apply IH; lia.
Qed.

(** The heap functions are run one step at a time on a list that is
    written out, a comparison being decided as soon as it is met. *)
Lemma push_heap_loop_S comp fuel first holeIndex topIndex value :
  push_heap_loop comp (S fuel) first holeIndex topIndex value
  = if topIndex <? holeIndex then
      if comp (at_ first ((holeIndex - 1) / 2)) value
      then push_heap_loop comp fuel
             (set_nth holeIndex (at_ first ((holeIndex - 1) / 2)) first)
             ((holeIndex - 1) / 2) topIndex value
      else set_nth holeIndex value first
    else set_nth holeIndex value first.
Proof. cbn [push_heap_loop]. now destruct (topIndex <? holeIndex). Qed.

Lemma push_heap_loop_O comp first holeIndex topIndex value :
  push_heap_loop comp 0 first holeIndex topIndex value
  = set_nth holeIndex value first.
Proof. reflexivity. Qed.

Lemma adjust_heap_loop_S comp fuel first holeIndex secondChild len :
  adjust_heap_loop comp (S fuel) first holeIndex secondChild len
  = if secondChild <? (len - 1) / 2 then
      if comp (at_ first (2 * (secondChild + 1)))
           (at_ first (2 * (secondChild + 1) - 1))
      then adjust_heap_loop comp fuel
             (set_nth holeIndex (at_ first (2 * (secondChild + 1) - 1))
                first)
             (2 * (secondChild + 1) - 1) (2 * (secondChild + 1) - 1) len
      else adjust_heap_loop comp fuel
             (set_nth holeIndex (at_ first (2 * (secondChild + 1))) first)
             (2 * (secondChild + 1)) (2 * (secondChild + 1)) len
    else (first, holeIndex, secondChild).
Proof.
  cbn [adjust_heap_loop]. destruct (secondChild <? (len - 1) / 2);
    [|reflexivity].
  now destruct (comp (at_ first (2 * (secondChild + 1)))
                  (at_ first (2 * (secondChild + 1) - 1))).
Qed.

Lemma adjust_heap_unfold comp first holeIndex len value :
  adjust_heap comp first holeIndex len value
  = let '(first', holeIndex', secondChild) :=
      adjust_heap_loop comp len first holeIndex holeIndex len in
    let '(first', holeIndex') :=
      if (2 <=? len) && Nat.even len && (secondChild =? (len - 2) / 2) then
        (set_nth holeIndex' (at_ first' (2 * (secondChild + 1) - 1)) first',
         2 * (secondChild + 1) - 1)
      else (first', holeIndex') in
    push_heap_loop comp holeIndex' first' holeIndex' holeIndex value.
Proof. reflexivity. Qed.

Ltac is_explicit l :=
  lazymatch l with
  | nil => idtac
  | cons ?x ?r => is_var x; is_explicit r
  end.

Ltac heap_step :=
  match goal with
  | |- context [if count_gt ?x ?y then _ else _] =>
      let H := fresh "Hc" in destruct (count_gt x y) eqn:H
  | |- context [adjust_heap ?c ?l ?h ?n ?v] =>
      is_explicit l; rewrite (adjust_heap_unfold c l h n v)
  | |- context [adjust_heap_loop ?c (S ?f) ?l ?h ?sc ?n] =>
      is_explicit l; rewrite (adjust_heap_loop_S c f l h sc n)
  | |- context [push_heap_loop ?c (S ?f) ?l ?h ?t ?v] =>
      is_explicit l; rewrite (push_heap_loop_S c f l h t v)
  | |- context [push_heap_loop ?c O ?l ?h ?t ?v] =>
      is_explicit l; rewrite (push_heap_loop_O c l h t v)
  end;
  cbn [make_heap make_heap_loop sort_heap at_ nth set_nth length
       Nat.ltb Nat.leb Nat.eqb Nat.even Nat.div Nat.divmod Nat.mul
       Nat.add Nat.sub fst andb negb app skipn firstn repeat Nat.min].

Ltac heap_cases :=
  cbn [make_heap make_heap_loop sort_heap at_ nth set_nth length
       Nat.ltb Nat.leb Nat.eqb Nat.even Nat.div Nat.divmod Nat.mul
       Nat.add Nat.sub fst andb negb app skipn firstn repeat Nat.min];
  repeat heap_step;
  unfold count_gt in *;
  repeat match goal with
         | H : (_ <? _)%Z = true |- _ => apply Z.ltb_lt in H
         | H : (_ <? _)%Z = false |- _ => apply Z.ltb_ge in H
         end.

(** A permutation of a list that is written out. *)
Ltac perm_explicit :=
  repeat first
    [ apply perm_nil
    | apply perm_skip
    | match goal with
      | |- Permutation (?a :: ?l) (?x1 :: ?a :: ?r) =>
          apply (@Permutation_cons_app _ l [x1] r a); cbn [app]
      | |- Permutation (?a :: ?l) (?x1 :: ?x2 :: ?a :: ?r) =>
          apply (@Permutation_cons_app _ l [x1; x2] r a); cbn [app]
      | |- Permutation (?a :: ?l) (?x1 :: ?x2 :: ?x3 :: ?a :: ?r) =>
          apply (@Permutation_cons_app _ l [x1; x2; x3] r a); cbn [app]
      | |- Permutation (?a :: ?l) (?x1 :: ?x2 :: ?x3 :: ?x4 :: ?a :: ?r) =>
          apply (@Permutation_cons_app _ l [x1; x2; x3; x4] r a); cbn [app]
      | |- Permutation (?a :: ?l)
             (?x1 :: ?x2 :: ?x3 :: ?x4 :: ?x5 :: ?a :: ?r) =>
          apply (@Permutation_cons_app _ l [x1; x2; x3; x4; x5] r a);
          cbn [app]
      end ].

Ltac sorted_explicit :=
  repeat first [ apply SSorted_nil | apply SSorted_cons
               | apply Forall_nil | apply Forall_cons ];
  unfold count_ge; lia.

Lemma make_heap5 a b c d e :
  heap5 (make_heap count_gt [a; b; c; d; e])
  /\ Permutation [a; b; c; d; e] (make_heap count_gt [a; b; c; d; e]).
Proof.
  heap_cases; (split; [cbn [heap5]; lia|perm_explicit]).
Qed.

Lemma adjust_heap5 h x :
  heap5 h -> count_gt x (at_ h 0) = true ->
  heap5 (adjust_heap count_gt h 0 5 x)
  /\ Permutation (x :: tl h) (adjust_heap count_gt h 0 5 x)
  /\ (snd (at_ h 0) <= snd (at_ (adjust_heap count_gt h 0 5 x) 0))%Z.
Proof.
  destruct h as [|a [|b [|c [|d [|e [|f h]]]]]]; try easy.
  intros Hh Hx. cbn [heap5 at_ nth] in Hh, Hx.
  heap_cases; cbn [heap5 at_ nth tl];
    (split; [lia|split; [perm_explicit|lia]]).
Qed.

Lemma sort_heap5 h :
  heap5 h ->
  StronglySorted count_ge (sort_heap count_gt 5 h)
  /\ Permutation h (sort_heap count_gt 5 h)
  /\ length (sort_heap count_gt 5 h) = 5.
Proof.
  destruct h as [|a [|b [|c [|d [|e [|f h]]]]]]; try easy.
  intros Hh. cbn [heap5] in Hh.
  heap_cases;
    (split; [sorted_explicit|split; [perm_explicit|reflexivity]]).
Qed.

Lemma heap5_top h a : heap5 h -> In a h -> (snd (at_ h 0) <= snd a)%Z.
Proof.
  destruct h as [|x [|b [|c [|d [|e [|f h]]]]]]; try easy.
  cbn [heap5 at_ nth]. intros Hh Ha.
  repeat (destruct Ha as [<-|Ha]; [lia|]). easy.
Qed.

Lemma heap5_length h : heap5 h -> length h = 5.
Proof. destruct h as [|a [|b [|c [|d [|e [|f h]]]]]]; easy. Qed.

(** The scan of the source past the first five elements: the heap holds
    five of the elements seen so far, and none that was left out has a
    larger count than the top of the heap. *)
Lemma scan_heap5 src :
  forall h seen,
    heap5 h ->
    (exists rest,
       Permutation seen (h ++ rest)
       /\ forall r, In r rest -> (snd r <= snd (at_ h 0))%Z) ->
    let h' :=
      fold_left
        (fun heap x =>
           if count_gt x (at_ heap 0) then adjust_heap count_gt heap 0 5 x
           else heap) src h in
    heap5 h'
    /\ exists rest,
         Permutation (seen ++ src) (h' ++ rest)
         /\ forall r, In r rest -> (snd r <= snd (at_ h' 0))%Z.
Proof.
  induction src as [|x src IH]; intros h seen Hh (rest & Hp & Hr);
    cbn [fold_left].
  - split; [exact Hh|]. exists rest. now rewrite app_nil_r.
  - replace (seen ++ x :: src) with ((seen ++ [x]) ++ src)
      by now rewrite <- app_assoc.
    destruct (count_gt x (at_ h 0)) eqn:Hc.
    + destruct (adjust_heap5 h x Hh Hc) as (Hh' & Hp' & Htop).
      apply IH; [exact Hh'|]. exists (at_ h 0 :: rest). split.
      * destruct h as [|a t]; [easy|]. cbn [at_ nth tl] in *.
        etransitivity; [apply Permutation_app_comm|]. cbn [app].
        etransitivity; [apply perm_skip, Hp|]. cbn [app].
        etransitivity; [apply perm_swap|].
        etransitivity; [|apply Permutation_middle].
        apply perm_skip. apply (Permutation_app_tail rest Hp').
      * intros r [<-|Hin]; [exact Htop|]. specialize (Hr r Hin). lia.
    + apply IH; [exact Hh|]. exists (x :: rest). split.
      * etransitivity; [apply Permutation_app_comm|]. cbn [app].
        etransitivity; [apply perm_skip, Hp|].
        apply Permutation_middle.
      * unfold count_gt in Hc. apply Z.ltb_ge in Hc.
        intros r [<-|Hin]; [exact Hc|]. now apply Hr.
Qed.

Lemma select_top_five_long a b c d e m :
  exists h,
    heap5 h
    /\ select_top_five (a :: b :: c :: d :: e :: m)
       = sort_heap count_gt 5 h
    /\ exists rest,
         Permutation (a :: b :: c :: d :: e :: m) (h ++ rest)
         /\ forall r, In r rest -> (snd r <= snd (at_ h 0))%Z.
Proof.
  destruct (make_heap5 a b c d e) as [Hh Hp].
  destruct (scan_heap5 m (make_heap count_gt [a; b; c; d; e])
              [a; b; c; d; e] Hh) as (Hh' & rest & Hp' & Hr).
  { exists []. split; [|easy].
    etransitivity; [exact Hp|]. now rewrite app_nil_r. }
  exists (fold_left
            (fun heap x =>
               if count_gt x (at_ heap 0)
               then adjust_heap count_gt heap 0 5 x else heap)
            m (make_heap count_gt [a; b; c; d; e])).
  split; [exact Hh'|]. split.
  - unfold select_top_five, partial_sort_copy, top_five_init.
    cbn [repeat length]. rewrite Nat.min_r by lia.
    cbn [firstn skipn]. apply app_nil_r.
  - exists rest. split; [exact Hp'|exact Hr].
Qed.

(** The selection: the first [min 5 (length m)] slots are a descending
    choice of the entries with the largest counts, the others are left
    as they were created. *)
Lemma select_top_five_spec m :
  let k := Nat.min 5 (length m) in
  let top := select_top_five m in
  exists rest,
    Permutation m (firstn k top ++ rest)
    /\ length (firstn k top) = k
    /\ StronglySorted count_ge (firstn k top)
    /\ (forall a b, In a (firstn k top) -> In b rest -> count_ge a b)
    /\ skipn k top = repeat empty_slot (5 - k).
Proof.
  destruct m as [|a [|b [|c [|d [|e m]]]]].
  1-5: exists [];
    unfold select_top_five, partial_sort_copy, top_five_init;
    cbn [repeat length Nat.min firstn skipn fold_left];
    heap_cases;
    (split; [perm_explicit|]); (split; [reflexivity|]);
    (split; [sorted_explicit|]); (split; [easy|reflexivity]).
  intros k top.
  destruct (select_top_five_long a b c d e m)
    as (h & Hh & Htop & rest & Hp & Hr).
  destruct (sort_heap5 h Hh) as (Hs & Hps & Hlen).
  assert (Hk : k = 5) by (unfold k; cbn [length]; lia).
  assert (Hf : firstn k top = sort_heap count_gt 5 h).
  { rewrite Hk. unfold top. rewrite Htop. apply firstn_all2. lia. }
  exists rest. rewrite Hf. split; [|split; [|split; [|split]]].
  - now rewrite <- Hps.
  - lia.
  - exact Hs.
  - intros x y Hx Hy. unfold count_ge.
    pose proof (heap5_top h x Hh
                  (Permutation_in _ (Permutation_sym Hps) Hx)).
    specialize (Hr y Hy). lia.
  - rewrite Hk. unfold top. rewrite Htop. apply skipn_all2. lia.
Qed.

Lemma select_top_five_length m : length (select_top_five m) = 5.
Proof.
  destruct (select_top_five_spec m) as (rest & _ & Hl & _ & _ & Hs).
  cbv zeta in Hl, Hs.
  rewrite <- (firstn_skipn (Nat.min 5 (length m)) (select_top_five m)).
  rewrite length_app, Hl, Hs, repeat_length. lia.
Qed.

(** * Vectors *)

Lemma length_set_nth {A} i (x : A) l : length (set_nth i x l) = length l.
Proof.
  revert i. induction l as [|y l IH]; intros [|i]; simpl; auto.
Qed.

Lemma nth_error_set_nth {A} i (x : A) l j :
  nth_error (set_nth i x l) j
  = if j =? i
    then match nth_error l i with Some _ => Some x | None => None end
    else nth_error l j.
Proof.
  revert i j. induction l as [|y l IH]; intros [|i] [|j]; simpl; auto.
  now destruct (j =? i).
Qed.

Lemma nth_set_nth {A} i (x : A) l j d :
  i < length l ->
  nth j (set_nth i x l) d = if j =? i then x else nth j l d.
Proof.
  revert i j. induction l as [|y l IH]; intros [|i] [|j]; simpl;
    try lia; auto.
  intros H. apply IH. lia.
Qed.

Lemma nth_set_nth_other {A} i (x : A) l j d :
  j <> i -> nth j (set_nth i x l) d = nth j l d.
Proof.
  revert i j. induction l as [|y l IH]; intros [|i] [|j]; simpl;
    try congruence; auto.
Qed.

Lemma nth_error_some_nth {A} (l : list A) i x d :
  nth_error l i = Some x -> nth i l d = x /\ i < length l.
Proof.
  intros H. split; [now apply nth_error_nth|].
  apply nth_error_Some. congruence.
Qed.

Lemma map_nth_seq {A} (l : list A) d :
  map (fun i => nth i l d) (seq 0 (length l)) = l.
Proof.
  induction l as [|x l IH]; [reflexivity|].
  cbn [length seq map nth]. f_equal.
  rewrite <- seq_shift, map_map. exact IH.
Qed.

(** * Shared state *)

Lemma slot_set_slot g ws m i j p i' j' :
  slot (mkState g (set_slot i j p m) ws) i' j'
  = if (i' =? i) && (j' =? j)
    then match slot (mkState g m ws) i j with
         | Some _ => Some p
         | None => None
         end
    else slot (mkState g m ws) i' j'.
Proof.
  unfold slot, set_slot. cbn [shuffle_matrix].
  rewrite nth_error_set_nth.
  destruct (i' =? i) eqn:Hi; cbn [andb]; [|reflexivity].
  apply Nat.eqb_eq in Hi. subst i'.
  destruct (nth_error m i) as [row|] eqn:Hrow.
  - apply (nth_error_some_nth _ _ _ []) in Hrow as [-> _].
    rewrite nth_error_set_nth. now destruct (j' =? j).
  - now destruct (j' =? j).
Qed.

Lemma worker_at_set g m ws w th w' :
  w < length ws ->
  worker_at (mkState g m (set_nth w th ws)) w'
  = if w' =? w then th else worker_at (mkState g m ws) w'.
Proof. intros H. unfold worker_at. cbn [workers]. now apply nth_set_nth. Qed.

Lemma claims_app tr1 tr2 : claims (tr1 ++ tr2) = claims tr1 ++ claims tr2.
Proof.
  induction tr1 as [|[] tr1 IH]; simpl; auto. now rewrite IH.
Qed.

Lemma init_worker_at E w : worker_at (init E) w = fresh_worker.
Proof.
  unfold worker_at, init. cbn [workers].
  destruct (nth_in_or_default w (repeat fresh_worker (num_threads E))
              fresh_worker) as [H|H]; [|exact H].
  now apply repeat_spec in H.
Qed.

Lemma init_slot E i j :
  i < num_threads E -> j < num_threads E -> slot (init E) i j = Some None.
Proof.
  intros Hi Hj. unfold slot, init. cbn [shuffle_matrix].
  rewrite nth_error_repeat by assumption. now apply nth_error_repeat.
Qed.

(** * The partition of a local table *)

Lemma assigned_thread_lt E k :
  0 < num_threads E -> assigned_thread E k < num_threads E.
Proof.
  intros H. unfold assigned_thread.
  assert (Hlt : (str_hash E k mod N.of_nat (num_threads E)
                 < N.of_nat (num_threads E))%N) by (apply N.mod_lt; lia).
  lia.
Qed.

Lemma push_back_at_nth i pair am j :
  i < length am ->
  nth j (push_back_at i pair am) []
  = if j =? i then nth j am [] ++ [pair] else nth j am [].
Proof.
  intros H. unfold push_back_at. rewrite nth_set_nth by assumption.
  destruct (j =? i) eqn:Hj; [|reflexivity].
  apply Nat.eqb_eq in Hj. now subst.
Qed.

Lemma shuffle_assign_fold E l j :
  0 < num_threads E ->
  forall am,
    length am = num_threads E ->
    let am' :=
      fold_left
        (fun am pair => push_back_at (assigned_thread E (fst pair)) pair am)
        l am in
    length am' = num_threads E
    /\ nth j am' [] = nth j am [] ++ bucket E j l.
Proof.
  intros HW. induction l as [|e l IH]; intros am Hlen; cbn [fold_left].
  - split; [exact Hlen|]. now rewrite app_nil_r.
  - pose proof (assigned_thread_lt E (fst e) HW) as Hlt.
    destruct (IH (push_back_at (assigned_thread E (fst e)) e am)) as [IH1 IH2].
    { unfold push_back_at. now rewrite length_set_nth. }
    split; [exact IH1|]. cbv zeta in IH2. rewrite IH2.
    rewrite push_back_at_nth by lia. unfold bucket. cbn [filter].
    rewrite (Nat.eqb_sym j). destruct (assigned_thread E (fst e) =? j).
    + now rewrite <- app_assoc.
    + reflexivity.
Qed.

(** Bucket [j] of the assignment matrix holds the entries whose hash
    is [j] modulo the number of workers, in key order. *)
Lemma shuffle_assign_nth E m j :
  j < num_threads E ->
  nth_error (shuffle_assign E m) j = Some (bucket E j m).
Proof.
  intros Hj. unfold shuffle_assign.
  destruct (shuffle_assign_fold E m j ltac:(lia)
              (repeat [] (num_threads E)) (repeat_length _ _)) as [Hl Hn].
  cbv zeta in Hl, Hn.
  rewrite (nth_error_nth' _ [] ) by lia. f_equal. rewrite Hn.
  destruct (nth_in_or_default j (repeat (@nil entry) (num_threads E)) [])
    as [H|H]; [apply repeat_spec in H|]; now rewrite H.
Qed.

(** * Invariants of the engine *)

Lemma fold_left_ext_in {A B} (f g : A -> B -> A) l :
  (forall x, In x l -> forall a, f a x = g a x) ->
  forall a, fold_left f l a = fold_left g l a.
Proof.
  induction l as [|x l IH]; intros H a; [reflexivity|]. simpl.
  rewrite H by now left. apply IH. intros y Hy. apply H. now right.
Qed.

Lemma pc_at_init E w : pc_at (init E) w = PMap.
Proof. unfold pc_at. now rewrite init_worker_at. Qed.

Lemma inv_init E : inv E [] (init E).
Proof.
  constructor; simpl; try easy.
  - apply repeat_length.
  - constructor.
  - lia.
  - intros w Hw. constructor; rewrite ?pc_at_init, ?init_worker_at; simpl.
    + exact I.
    + reflexivity.
    + easy.
    + intros i Hi. now rewrite init_slot.
    + intros t Ht. lia.
    + reflexivity.
    + intros [H|H]; discriminate.
    + easy.
    + easy.
    + intros i. split; [easy|lia].
    + intros i. split; [easy|lia].
    + intros b. split; [easy|]. now intros [? _].
Qed.

Lemma claims_snoc tr ev :
  claims (tr ++ [ev])
  = claims tr ++ match ev with
                 | Claim w i => [(w, i)]
                 | _ => []
                 end.
Proof. rewrite claims_app. now destruct ev. Qed.

Lemma in_claims_snoc tr ev c :
  In c (claims (tr ++ [ev])) -> In c (claims tr) \/ fst c = event_worker ev.
Proof.
  rewrite claims_snoc, in_app_iff. intros [H|H]; [now left|right].
  destruct ev; simpl in H; try easy. now destruct H as [<-|[]].
Qed.

Lemma claimed_by_other E w' tr ev :
  event_worker ev <> w' ->
  claimed_by E w' (tr ++ [ev]) = claimed_by E w' tr.
Proof.
  intros Hne. unfold claimed_by. rewrite claims_snoc, filter_app.
  destruct ev; simpl in *; rewrite ?app_nil_r; try reflexivity.
  apply Nat.eqb_neq in Hne. now rewrite Hne, app_nil_r.
Qed.

Lemma in_snoc_other (tr : list event) ev x :
  event_worker x <> event_worker ev ->
  (In x (tr ++ [ev]) <-> In x tr).
Proof.
  intros Hne. rewrite in_app_iff. simpl. split; [|tauto].
  intros [H|[H|[]]]; [exact H|]. now subst.
Qed.

(** A step of worker [w] keeps what the other workers rely on. *)
Lemma frame_other E tr s w th' g' m' ev w' :
  inv E tr s ->
  w < num_threads E -> w' < num_threads E -> w' <> w ->
  event_worker ev = w ->
  (forall i, slot (mkState g' m' (workers s)) i w' = slot s i w') ->
  writes_done E (pc_at s w) <= writes_done E (pc th') ->
  (0 < writes_done E (pc_at s w) ->
   local_freq th' = local_freq (worker_at s w)) ->
  worker_inv E (tr ++ [ev]) (mkState g' m' (set_nth w th' (workers s))) w'.
Proof.
  intros Hinv Hw Hw' Hne Hev Hslot Hmono Hlocal.
  set (s' := mkState g' m' (set_nth w th' (workers s))).
  pose proof (inv_workers _ _ _ Hinv) as Hlen.
  assert (F1 : forall x, x <> w -> worker_at s' x = worker_at s x).
  { intros x Hx. unfold s'. rewrite worker_at_set by lia.
    apply Nat.eqb_neq in Hx. now rewrite Hx. }
  assert (F2 : worker_at s' w = th').
  { unfold s'. rewrite worker_at_set by lia. now rewrite Nat.eqb_refl. }
  assert (F4 : forall t,
             writes_done E (pc_at s t) <= writes_done E (pc_at s' t)).
  { intros t. unfold pc_at. destruct (Nat.eq_dec t w) as [->|Ht].
    - now rewrite F2.
    - now rewrite F1. }
  assert (F5 : forall t, 0 < writes_done E (pc_at s t) ->
                         local_freq (worker_at s' t)
                         = local_freq (worker_at s t)).
  { intros t Ht. destruct (Nat.eq_dec t w) as [->|Hne'].
    - rewrite F2. auto.
    - now rewrite F1. }
  destruct (inv_each _ _ _ Hinv w' Hw') as
    [Hpc Hloc Hasg Hsl Hrd Hred Htop Hcl Hleft Hwt Hrt Hpt].
  assert (F3 : pc_at s' w' = pc_at s w') by (unfold pc_at; now rewrite F1).
  constructor; rewrite ?F3, ?(F1 w' Hne).
  - exact Hpc.
  - unfold emitted_by. rewrite claimed_by_other by congruence. exact Hloc.
  - exact Hasg.
  - intros i Hi. rewrite <- Hsl by assumption. apply Hslot.
  - intros t Ht. specialize (Hrd t Ht). specialize (F4 t). lia.
  - rewrite Hred. unfold reduced_of. apply fold_left_ext_in.
    intros t Ht m. apply in_seq in Ht. rewrite F5; [reflexivity|].
    specialize (Hrd t ltac:(lia)). lia.
  - exact Htop.
  - intros Hmap c Hc Hfst. apply in_claims_snoc in Hc as [Hc|Hc].
    + now apply Hcl.
    + congruence.
  - intros Hnm. destruct (Hleft Hnm) as (c & Hc & Hfst & Hr).
    exists c. rewrite claims_app, in_app_iff. auto.
  - intros i. rewrite in_snoc_other; [apply Hwt|simpl; congruence].
  - intros t. rewrite in_snoc_other; [apply Hrt|simpl; congruence].
  - intros b. rewrite in_snoc_other; [apply Hpt|simpl; congruence].
Qed.

Lemma in_snoc_iff {A} (l : list A) x y : In y (l ++ [x]) <-> In y l \/ y = x.
Proof. rewrite in_app_iff. simpl. intuition congruence. Qed.

(** Before a fetch-and-add by a worker of the map phase, fewer than
    [num_threads] results were out of range. *)
Lemma failed_claims_bound E tr s w :
  inv E tr s -> w < num_threads E -> pc_at s w = PMap ->
  S (length (filter (fun c => negb (in_range E c)) (claims tr)))
  <= num_threads E.
Proof.
  intros Hinv Hw Hpc.
  set (failed := filter (fun c => negb (in_range E c)) (claims tr)).
  assert (Hnd : NoDup (w :: map fst failed)).
  { constructor; [|apply (inv_failed _ _ _ Hinv)].
    intros Hin. apply in_map_iff in Hin as (c & Hfst & Hc).
    apply filter_In in Hc as [Hc Hr].
    rewrite (wi_claims _ _ _ _ (inv_each _ _ _ Hinv w Hw) Hpc c Hc Hfst) in Hr.
    discriminate. }
  apply NoDup_incl_length with (l' := seq 0 (num_threads E)) in Hnd.
  - simpl in Hnd. now rewrite length_map, length_seq in Hnd.
  - intros x [<-|Hx]; apply in_seq; [lia|].
    apply in_map_iff in Hx as (c & <- & Hc). apply filter_In in Hc as [Hc _].
    pose proof (inv_claimers _ _ _ Hinv c Hc). lia.
Qed.

(** The shared part of the invariant after a fetch-and-add. *)
Lemma claim_shared E tr s w :
  index_fits E -> inv E tr s -> w < num_threads E -> pc_at s w = PMap ->
  let tr' := tr ++ [Claim w (global_index s)] in
  ((global_index s + 1) mod UINT64_MOD)%Z = Z.of_nat (length (claims tr'))
  /\ map snd (claims tr') = map Z.of_nat (seq 0 (length (claims tr')))
  /\ NoDup (map fst (filter (fun c => negb (in_range E c)) (claims tr')))
  /\ length (claims tr')
     <= length (files_to_sweep E)
        + length (filter (fun c => negb (in_range E c)) (claims tr'))
  /\ (forall c, In c (claims tr') -> fst c < num_threads E)
  /\ (forall w0, ~ In (Abort w0) tr').
Proof.
  intros Hfit Hinv Hw Hpc tr'.
  pose proof (failed_claims_bound E tr s w Hinv Hw Hpc) as Hfb.
  pose proof (inv_index _ _ _ Hinv) as HG.
  pose proof (inv_bound _ _ _ Hinv) as Hb.
  unfold tr'. rewrite claims_snoc, length_app. cbn [length].
  repeat split.
  - rewrite HG. unfold index_fits in Hfit. rewrite Z.mod_small; lia.
  - rewrite map_app, (inv_claims _ _ _ Hinv). rewrite Nat.add_1_r, seq_S.
    rewrite map_app. cbn [map snd]. now rewrite HG.
  - rewrite filter_app, map_app. cbn [filter].
    destruct (negb (in_range E (w, global_index s))) eqn:Hr; cbn [map];
      [|rewrite app_nil_r; apply (inv_failed _ _ _ Hinv)].
    apply NoDup_app; [apply (inv_failed _ _ _ Hinv)|repeat constructor; easy|].
    intros a Ha [<-|[]]. apply in_map_iff in Ha as (c & Hfst & Hc).
    apply filter_In in Hc as [Hc Hrc].
    rewrite (wi_claims _ _ _ _ (inv_each _ _ _ Hinv _ Hw) Hpc c Hc Hfst) in Hrc.
    discriminate.
  - rewrite filter_app, length_app. cbn [filter].
    destruct (negb (in_range E (w, global_index s))) eqn:Hr; cbn [length];
      [lia|].
    apply negb_false_iff in Hr. unfold in_range in Hr. cbn [snd] in Hr.
    apply Z.ltb_lt in Hr. lia.
  - intros c Hc. apply in_snoc_iff in Hc as [Hc| ->]; [|exact Hw].
    now apply (inv_claimers _ _ _ Hinv).
  - intros w0 Hin. apply in_snoc_iff in Hin as [Hin|Hin]; [|discriminate].
    now apply (inv_no_abort _ _ _ Hinv w0).
Qed.

Lemma enter_read_fields E t th :
  t <= num_threads E ->
  let th' := enter_read E t th in
  local_freq th' = local_freq th
  /\ assignment_matrix th' = assignment_matrix th
  /\ reduced_freq th' = reduced_freq th
  /\ writes_done E (pc th') = num_threads E
  /\ reads_done E (pc th') = t
  /\ pc th' <> PMap /\ pc th' <> PDone
  /\ (pc th' = PPrint \/ pc th' = PDone ->
      top_five th' = select_top_five (reduced_freq th'))
  /\ match pc th' with
     | PWrite i => i < num_threads E
     | PRead t => t < num_threads E
     | PAbort => False
     | _ => True
     end.
Proof.
  intros Ht. unfold enter_read. destruct (t <? num_threads E) eqn:Hlt; simpl.
  - apply Nat.ltb_lt in Hlt. repeat split; try easy.
    intros [H|H]; discriminate.
  - apply Nat.ltb_ge in Hlt. repeat split; try easy. lia.
Qed.

Lemma enter_write_fields E i th :
  0 < num_threads E -> i <= num_threads E ->
  let th' := enter_write E i th in
  local_freq th' = local_freq th
  /\ assignment_matrix th' = assignment_matrix th
  /\ reduced_freq th' = reduced_freq th
  /\ writes_done E (pc th') = i
  /\ reads_done E (pc th') = 0
  /\ pc th' <> PMap /\ pc th' <> PDone /\ pc th' <> PPrint
  /\ match pc th' with
     | PWrite i => i < num_threads E
     | PRead t => t < num_threads E
     | PAbort => False
     | _ => True
     end.
Proof.
  intros HW Hi. unfold enter_write.
  destruct (i <? num_threads E) eqn:Hlt; simpl.
  - apply Nat.ltb_lt in Hlt. repeat split; easy.
  - apply Nat.ltb_ge in Hlt. unfold enter_read.
    apply Nat.ltb_lt in HW. rewrite HW. simpl. apply Nat.ltb_lt in HW.
    repeat split; try easy. lia.
Qed.

Lemma claims_quiet tr ev :
  match ev with Claim _ _ => False | _ => True end ->
  claims (tr ++ [ev]) = claims tr.
Proof. intros H. rewrite claims_snoc. destruct ev; [easy|..]; apply app_nil_r. Qed.

(** The shared part of the invariant after a step that is not a
    fetch-and-add. *)
Lemma inv_quiet E tr s ev m' ws' :
  inv E tr s ->
  match ev with Claim _ _ | Abort _ => False | _ => True end ->
  length ws' = num_threads E ->
  (forall w', w' < num_threads E ->
     worker_inv E (tr ++ [ev]) (mkState (global_index s) m' ws') w') ->
  inv E (tr ++ [ev]) (mkState (global_index s) m' ws').
Proof.
  intros Hinv Hev Hlen Heach.
  assert (Hc : claims (tr ++ [ev]) = claims tr)
    by (apply claims_quiet; now destruct ev).
  constructor; rewrite ?Hc; try apply Hinv; auto.
  intros w0 Hin. apply in_snoc_iff in Hin as [Hin| <-]; [|easy].
  now apply (inv_no_abort _ _ _ Hinv w0).
Qed.

Lemma worker_lookup E tr s w th :
  inv E tr s -> nth_error (workers s) w = Some th ->
  w < num_threads E /\ worker_at s w = th /\ pc_at s w = pc th.
Proof.
  intros Hinv Hth.
  destruct (nth_error_some_nth _ _ _ fresh_worker Hth) as [Hat Hlt].
  rewrite (inv_workers _ _ _ Hinv) in Hlt.
  unfold pc_at, worker_at. now rewrite Hat.
Qed.

Lemma emitted_quiet E w tr ev :
  match ev with Claim _ _ => False | _ => True end ->
  emitted_by E w (tr ++ [ev]) = emitted_by E w tr.
Proof.
  intros H. unfold emitted_by, claimed_by. now rewrite claims_quiet.
Qed.

(** [set_value]: the promise is not yet satisfied, the bucket exists,
    and the invariant is kept. *)
Lemma inv_write E tr s w th i :
  inv E tr s -> nth_error (workers s) w = Some th -> pc th = PWrite i ->
  slot s i w = Some None
  /\ nth_error (assignment_matrix th) i = Some (bucket E i (local_freq th))
  /\ inv E (tr ++ [Write w i])
       (set_worker w (enter_write E (S i) th)
          (mkState (global_index s)
             (set_slot i w (Some (bucket E i (local_freq th)))
                (shuffle_matrix s))
             (workers s))).
Proof.
  intros Hinv Hth Hpc.
  destruct (worker_lookup E tr s w th Hinv Hth) as (Hw & Hat & Hpcat).
  rewrite Hpc in Hpcat.
  pose proof (inv_workers _ _ _ Hinv) as Hlen.
  destruct (inv_each _ _ _ Hinv w Hw) as
    [Hpcr Hloc Hasg Hsl Hrd Hred Htop Hcl Hleft Hwt Hrt Hpt].
  rewrite Hpcat, ?Hat in *. cbn [writes_done reads_done] in *.
  assert (Hslot : slot s i w = Some None).
  { rewrite Hsl by assumption. now rewrite Nat.ltb_irrefl. }
  split; [exact Hslot|]. split.
  { rewrite Hasg by discriminate. now apply shuffle_assign_nth. }
  destruct (enter_write_fields E (S i) th ltac:(lia) ltac:(lia))
    as (El & Ea & Er & Ewd & Erd & Enm & End & Enp & Epc).
  set (th' := enter_write E (S i) th) in *.
  unfold set_worker. cbn [global_index shuffle_matrix workers].
  apply inv_quiet; [assumption|exact I|now rewrite length_set_nth|].
  intros w' Hw'. destruct (Nat.eq_dec w' w) as [->|Hne].
  - set (s' := mkState _ _ _).
    assert (F2 : worker_at s' w = th').
    { unfold s'. rewrite worker_at_set by lia. now rewrite Nat.eqb_refl. }
    assert (F3 : pc_at s' w = pc th') by (unfold pc_at; now rewrite F2).
    constructor; rewrite ?F3, ?F2, ?Ewd, ?Erd, ?El, ?Ea.
    + exact Epc.
    + now rewrite emitted_quiet.
    + intros _. now apply Hasg.
    + intros i' Hi'. unfold s'. rewrite slot_set_slot.
      change (slot (mkState (global_index s) (shuffle_matrix s)
                      (set_nth w th' (workers s))))
        with (slot s).
      rewrite Nat.eqb_refl, andb_true_r, Hslot.
      destruct (i' =? i) eqn:Hi.
      * apply Nat.eqb_eq in Hi. subst i'.
        replace (i <? S i) with true by (symmetry; apply Nat.ltb_lt; lia).
        reflexivity.
      * apply Nat.eqb_neq in Hi. rewrite Hsl by assumption.
        destruct (i' <? i) eqn:H1; destruct (i' <? S i) eqn:H2;
          try reflexivity.
        -- apply Nat.ltb_lt in H1. apply Nat.ltb_ge in H2. lia.
        -- apply Nat.ltb_ge in H1. apply Nat.ltb_lt in H2. lia.
    + intros t Ht. lia.
    + rewrite Er, Hred. reflexivity.
    + intros [H|H]; congruence.
    + easy.
    + intros _. destruct (Hleft ltac:(discriminate)) as (c & Hc & Hfst & Hr).
      exists c. rewrite claims_quiet by exact I. auto.
    + intros i'. rewrite in_snoc_iff, Hwt. split.
      * intros [H|[= ->]]; lia.
      * intros H. destruct (Nat.eq_dec i' i) as [->|]; [now right|left; lia].
    + intros t. rewrite in_snoc_iff, Hrt. split; [|lia].
      intros [H|H]; [lia|discriminate].
    + intros b. rewrite in_snoc_iff, Hpt. split.
      * intros [[H _]|H]; discriminate.
      * intros [H _]. congruence.
  - apply frame_other; auto.
    + intros i'. rewrite slot_set_slot. apply Nat.eqb_neq in Hne.
      rewrite Hne, andb_false_r. reflexivity.
    + rewrite Hpcat, Ewd. simpl. lia.
    + intros _. now rewrite El, Hat.
Qed.

Lemma reduced_of_ext E s s' w t :
  (forall x, local_freq (worker_at s' x) = local_freq (worker_at s x)) ->
  reduced_of E s' w t = reduced_of E s w t.
Proof.
  intros H. unfold reduced_of. apply fold_left_ext_in.
  intros x _ m. now rewrite H.
Qed.

Lemma reduced_of_S E s w t :
  reduced_of E s w (S t)
  = merge_updates (bucket E w (local_freq (worker_at s t)))
      (reduced_of E s w t).
Proof.
  unfold reduced_of. now rewrite seq_S, fold_left_app.
Qed.

(** [get]: the future holds the bucket its producer computed for this
    worker, or is not ready; merging it keeps the invariant. *)
Lemma inv_read E tr s w th t :
  inv E tr s -> nth_error (workers s) w = Some th -> pc th = PRead t ->
  (slot s w t = Some None
   \/ slot s w t = Some (Some (bucket E w (local_freq (worker_at s t)))))
  /\ (forall updates,
        slot s w t = Some (Some updates) ->
        inv E (tr ++ [Read w t])
          (set_worker w
             (enter_read E (S t)
                (mkWorker (PRead t) (local_freq th) (assignment_matrix th)
                   (merge_updates updates (reduced_freq th)) (top_five th)))
             s)).
Proof.
  intros Hinv Hth Hpc.
  destruct (worker_lookup E tr s w th Hinv Hth) as (Hw & Hat & Hpcat).
  rewrite Hpc in Hpcat.
  pose proof (inv_workers _ _ _ Hinv) as Hlen.
  destruct (inv_each _ _ _ Hinv w Hw) as
    [Hpcr Hloc Hasg Hsl Hrd Hred Htop Hcl Hleft Hwt Hrt Hpt].
  rewrite Hpcat, ?Hat in *. cbn [writes_done reads_done] in *.
  pose proof (wi_slots _ _ _ _ (inv_each _ _ _ Hinv t Hpcr) w Hw) as Hst.
  split.
  { rewrite Hst. destruct (w <? writes_done E (pc_at s t)); auto. }
  intros updates Hup. rewrite Hup in Hst.
  destruct (w <? writes_done E (pc_at s t)) eqn:Hwt'; [|discriminate].
  apply Nat.ltb_lt in Hwt'. injection Hst as ->.
  set (th0 := mkWorker (PRead t) _ _ _ _).
  destruct (enter_read_fields E (S t) th0 ltac:(lia))
    as (El & Ea & Er & Ewd & Erd & Enm & End & Etop & Epc).
  set (th' := enter_read E (S t) th0) in *. cbn [th0 local_freq
    assignment_matrix reduced_freq] in El, Ea, Er.
  unfold set_worker.
  apply inv_quiet; [assumption|exact I|now rewrite length_set_nth|].
  intros w' Hw'.
  set (s' := mkState _ _ _).
  assert (F1 : forall x, x <> w -> worker_at s' x = worker_at s x).
  { intros x Hx. unfold s'. rewrite worker_at_set by lia.
    apply Nat.eqb_neq in Hx. now rewrite Hx. }
  assert (F2 : worker_at s' w = th').
  { unfold s'. rewrite worker_at_set by lia. now rewrite Nat.eqb_refl. }
  assert (F3 : pc_at s' w = pc th') by (unfold pc_at; now rewrite F2).
  assert (FL : forall x, local_freq (worker_at s' x)
                         = local_freq (worker_at s x)).
  { intros x. destruct (Nat.eq_dec x w) as [->|Hx].
    - now rewrite F2, El, Hat.
    - now rewrite F1. }
  destruct (Nat.eq_dec w' w) as [->|Hne].
  - constructor; rewrite ?F3, ?F2, ?Ewd, ?Erd, ?El, ?Ea.
    + exact Epc.
    + now rewrite emitted_quiet.
    + intros _. now apply Hasg.
    + intros i' Hi'. change (slot s' i' w) with (slot s i' w). now apply Hsl.
    + intros t' Ht'. destruct (Nat.eq_dec t' w) as [->|Htw].
      * rewrite F3, Ewd. exact Hw.
      * unfold pc_at. rewrite F1 by assumption. fold (pc_at s t').
        destruct (Nat.eq_dec t' t) as [->|Htt]; [exact Hwt'|].
        apply Hrd. lia.
    + rewrite Er, reduced_of_S, (reduced_of_ext E s s') by exact FL.
      now rewrite FL, Hred.
    + exact Etop.
    + easy.
    + intros _. destruct (Hleft ltac:(discriminate)) as (c & Hc & Hfst & Hr).
      exists c. rewrite claims_quiet by exact I. auto.
    + intros i'. rewrite in_snoc_iff, Hwt. split; [|tauto].
      intros [H|H]; [exact H|discriminate].
    + intros t'. rewrite in_snoc_iff, Hrt. split.
      * intros [H|[= ->]]; lia.
      * intros H. destruct (Nat.eq_dec t' t) as [->|]; [now right|left; lia].
    + intros b. rewrite in_snoc_iff, Hpt. split.
      * intros [[H _]|H]; discriminate.
      * intros [H _]. congruence.
  - apply frame_other; auto.
    + rewrite Hpcat, Ewd. simpl. lia.
    + intros _. now rewrite El, Hat.
Qed.

(** The locked print keeps the invariant. *)
Lemma inv_print E tr s w th :
  inv E tr s -> nth_error (workers s) w = Some th -> pc th = PPrint ->
  inv E (tr ++ [Print w (report w (top_five th))])
    (set_worker w (set_pc PDone th) s).
Proof.
  intros Hinv Hth Hpc.
  destruct (worker_lookup E tr s w th Hinv Hth) as (Hw & Hat & Hpcat).
  rewrite Hpc in Hpcat.
  pose proof (inv_workers _ _ _ Hinv) as Hlen.
  destruct (inv_each _ _ _ Hinv w Hw) as
    [Hpcr Hloc Hasg Hsl Hrd Hred Htop Hcl Hleft Hwt Hrt Hpt].
  rewrite Hpcat, ?Hat in *. cbn [writes_done reads_done] in *.
  set (th' := set_pc PDone th).
  unfold set_worker.
  apply inv_quiet; [assumption|exact I|now rewrite length_set_nth|].
  intros w' Hw'.
  set (s' := mkState _ _ _).
  assert (F1 : forall x, x <> w -> worker_at s' x = worker_at s x).
  { intros x Hx. unfold s'. rewrite worker_at_set by lia.
    apply Nat.eqb_neq in Hx. now rewrite Hx. }
  assert (F2 : worker_at s' w = th').
  { unfold s'. rewrite worker_at_set by lia. now rewrite Nat.eqb_refl. }
  assert (F3 : pc_at s' w = PDone) by (unfold pc_at; now rewrite F2).
  assert (FL : forall x, local_freq (worker_at s' x)
                         = local_freq (worker_at s x)).
  { intros x. destruct (Nat.eq_dec x w) as [->|Hx].
    - now rewrite F2, Hat.
    - now rewrite F1. }
  destruct (Nat.eq_dec w' w) as [->|Hne].
  - constructor; rewrite ?F3, ?F2; cbn [th' set_pc local_freq
      assignment_matrix reduced_freq top_five writes_done reads_done].
    + exact I.
    + now rewrite emitted_quiet.
    + intros _. now apply Hasg.
    + intros i' Hi'. change (slot s' i' w) with (slot s i' w). now apply Hsl.
    + intros t' Ht'. destruct (Nat.eq_dec t' w) as [->|Htw].
      * rewrite F3. exact Hw.
      * unfold pc_at. rewrite F1 by assumption. now apply Hrd.
    + rewrite (reduced_of_ext E s s') by exact FL. exact Hred.
    + intros _. apply Htop. now left.
    + easy.
    + intros _. destruct (Hleft ltac:(discriminate)) as (c & Hc & Hfst & Hr).
      exists c. rewrite claims_quiet by exact I. auto.
    + intros i'. rewrite in_snoc_iff, Hwt. split; [|tauto].
      intros [H|H]; [exact H|discriminate].
    + intros t'. rewrite in_snoc_iff, Hrt. split; [|tauto].
      intros [H|H]; [exact H|discriminate].
    + intros b. rewrite in_snoc_iff, Hpt. split.
      * intros [[H _]|[= ->]]; [discriminate|auto].
      * intros [_ ->]. now right.
  - apply frame_other; auto.
    + rewrite Hpcat. simpl. lia.
    + intros _. now rewrite Hat.
Qed.

Lemma claimed_by_snoc_claim E w tr w0 idx :
  claimed_by E w (tr ++ [Claim w0 idx])
  = claimed_by E w tr
    ++ (if (w0 =? w) && in_range E (w0, idx) then [Z.to_nat idx] else []).
Proof.
  unfold claimed_by. rewrite claims_snoc, filter_app, map_app.
  cbn [filter fst]. now destruct ((w0 =? w) && in_range E (w0, idx)).
Qed.

Lemma count_table_app a b :
  count_table (a ++ b) = fold_left (fun m k => tbl_incr k m) b (count_table a).
Proof. unfold count_table. apply fold_left_app. Qed.

(** The fetch-and-add, with a file to process or without, keeps the
    invariant. *)
Lemma inv_claim E tr s w th :
  index_fits E ->
  inv E tr s -> nth_error (workers s) w = Some th -> pc th = PMap ->
  let file_index := global_index s in
  let s1 := mkState ((file_index + 1) mod UINT64_MOD)
              (shuffle_matrix s) (workers s) in
  inv E (tr ++ [Claim w file_index])
    (if (file_index <? Z.of_nat (length (files_to_sweep E)))%Z
     then set_worker w
            (mkWorker PMap
               (process_file (ngram E)
                  (nth (Z.to_nat file_index) (files_to_sweep E) [])
                  (local_freq th))
               (assignment_matrix th) (reduced_freq th) (top_five th)) s1
     else set_worker w
            (enter_write E 0
               (mkWorker PMap (local_freq th)
                  (shuffle_assign E (local_freq th))
                  (reduced_freq th) (top_five th))) s1).
Proof.
  intros Hfit Hinv Hth Hpc file_index s1.
  destruct (worker_lookup E tr s w th Hinv Hth) as (Hw & Hat & Hpcat).
  rewrite Hpc in Hpcat.
  pose proof (inv_workers _ _ _ Hinv) as Hlen.
  destruct (inv_each _ _ _ Hinv w Hw) as
    [Hpcr Hloc Hasg Hsl Hrd Hred Htop Hcl Hleft Hwt Hrt Hpt].
  rewrite Hpcat, ?Hat in *. cbn [writes_done reads_done] in *.
  destruct (claim_shared E tr s w Hfit Hinv Hw Hpcat)
    as (S1 & S2 & S3 & S4 & S5 & S6).
  fold file_index in S1, S2, S3, S4, S5, S6.
  assert (Hself : forall th',
    (if (file_index <? Z.of_nat (length (files_to_sweep E)))%Z
     then pc th' = PMap
          /\ local_freq th'
             = process_file (ngram E) (file_at E (Z.to_nat file_index))
                 (local_freq th)
     else pc th' = PWrite 0 /\ local_freq th' = local_freq th
          /\ assignment_matrix th' = shuffle_assign E (local_freq th)) ->
    reduced_freq th' = reduced_freq th ->
    inv E (tr ++ [Claim w file_index])
      (mkState ((file_index + 1) mod UINT64_MOD) (shuffle_matrix s)
         (set_nth w th' (workers s)))).
  { intros th' Hcase Hr'.
    constructor; auto; [cbn [workers]; now rewrite length_set_nth|].
    intros w' Hw'.
    set (s' := mkState _ _ _).
    assert (F2 : worker_at s' w = th').
    { unfold s'. rewrite worker_at_set by lia. now rewrite Nat.eqb_refl. }
    assert (F3 : pc_at s' w = pc th') by (unfold pc_at; now rewrite F2).
    assert (Hwd : writes_done E (pc th') = 0 /\ reads_done E (pc th') = 0).
    { destruct (file_index <? _)%Z; destruct Hcase as [-> _]; auto. }
    destruct Hwd as [Hwd Hrd'].
    destruct (Nat.eq_dec w' w) as [->|Hne].
    - constructor; rewrite ?F3, ?F2, ?Hwd, ?Hrd'.
      + destruct (file_index <? _)%Z; destruct Hcase as [-> _]; simpl; lia.
      + unfold emitted_by. rewrite claimed_by_snoc_claim, Nat.eqb_refl.
        unfold in_range. cbn [andb snd]. fold file_index.
        destruct (file_index <? _)%Z.
        * destruct Hcase as [_ ->]. rewrite flat_map_app. cbn [flat_map].
          rewrite app_nil_r, count_table_app, process_file_ngrams.
          fold (emitted_by E w tr). now rewrite <- Hloc.
        * destruct Hcase as (_ & -> & _). now rewrite app_nil_r.
      + intros Hnm. destruct (file_index <? _)%Z.
        * now destruct Hcase as [? _].
        * destruct Hcase as (_ & -> & ->). reflexivity.
      + intros i Hi. change (slot s' i w) with (slot s i w).
        now rewrite Hsl.
      + intros t Ht. lia.
      + rewrite Hr', Hred. reflexivity.
      + intros [H|H]; destruct (file_index <? _)%Z;
          destruct Hcase as [Hp _]; congruence.
      + intros Hp c Hc Hfst. rewrite claims_snoc in Hc.
        apply in_snoc_iff in Hc as [Hc| ->].
        * now apply Hcl.
        * unfold in_range. cbn [snd]. fold file_index.
          destruct (file_index <? _)%Z; [reflexivity|].
          destruct Hcase as [Hp' _]. congruence.
      + intros Hnm. exists (w, file_index). rewrite claims_snoc.
        split; [apply in_app_iff; right; now left|]. split; [reflexivity|].
        unfold in_range. cbn [snd].
        destruct (file_index <? _)%Z; [|reflexivity].
        now destruct Hcase as [? _].
      + intros i. rewrite in_snoc_iff, Hwt. split; [|lia].
        intros [H|H]; [lia|discriminate].
      + intros t. rewrite in_snoc_iff, Hrt. split; [|lia].
        intros [H|H]; [lia|discriminate].
      + intros b. rewrite in_snoc_iff, Hpt. split.
        * intros [[H _]|H]; discriminate.
        * intros [H _]. destruct (file_index <? _)%Z;
            destruct Hcase as [Hp _]; congruence.
    - apply frame_other; auto.
      + rewrite Hpcat. simpl. lia.
      + rewrite Hpcat. simpl. lia. }
  destruct (file_index <? Z.of_nat (length (files_to_sweep E)))%Z eqn:Hlt;
    unfold set_worker, s1; cbn [global_index shuffle_matrix workers];
    apply Hself; rewrite ?Hlt.
  - split; reflexivity.
  - reflexivity.
  - destruct (enter_write_fields E 0
                (mkWorker PMap (local_freq th)
                   (shuffle_assign E (local_freq th))
                   (reduced_freq th) (top_five th))
                ltac:(lia) ltac:(lia))
      as (El & Ea & Er & Ewd & Erd & Enm & End & Enp & Epc).
    unfold enter_write in *. replace (0 <? num_threads E) with true in *
      by (symmetry; apply Nat.ltb_lt; lia).
    repeat split.
  - unfold enter_write. replace (0 <? num_threads E) with true
      by (symmetry; apply Nat.ltb_lt; lia).
    reflexivity.
Qed.

(** Every step keeps the invariant, and no step throws. *)
Lemma inv_step E tr s w ev s' :
  index_fits E ->
  inv E tr s -> step_thread E w s = Some (ev, s') ->
  inv E (tr ++ [ev]) s'.
Proof.
  intros Hfit Hinv Hstep. unfold step_thread in Hstep.
  destruct (nth_error (workers s) w) as [th|] eqn:Hth; [|discriminate].
  destruct (pc th) eqn:Hpc.
  - pose proof (inv_claim E tr s w th Hfit Hinv Hth Hpc) as H.
    cbv zeta in H.
    destruct (global_index s <? Z.of_nat (length (files_to_sweep E)))%Z;
      injection Hstep as <- <-; exact H.
  - destruct (inv_write E tr s w th i Hinv Hth Hpc) as (Hs & Hb & H).
    rewrite Hs, Hb in Hstep. injection Hstep as <- <-. exact H.
  - destruct (inv_read E tr s w th t Hinv Hth Hpc) as ([Hs|Hs] & H);
      rewrite Hs in Hstep; [discriminate|].
    injection Hstep as <- <-. now apply H.
  - injection Hstep as <- <-. now apply inv_print.
  - discriminate.
  - discriminate.
Qed.

Lemma exec_inv E s0 tr0 :
  index_fits E -> inv E tr0 s0 ->
  forall tr s, exec E s0 tr s -> inv E (tr0 ++ tr) s.
Proof.
  intros Hfit H0 tr s Hex. induction Hex as [s|s tr s1 w ev s2 Hex IH Hstep].
  - now rewrite app_nil_r.
  - rewrite app_assoc. eapply inv_step; eauto.
Qed.

(** The invariant holds along every run. *)
Lemma run_inv E tr s : index_fits E -> run E tr s -> inv E tr s.
Proof. intros Hfit H. apply (exec_inv E (init E) [] Hfit (inv_init E) tr s H). Qed.

(** * Executions *)

Lemma exec_trans E s0 tr1 s1 tr2 s2 :
  exec E s0 tr1 s1 -> exec E s1 tr2 s2 -> exec E s0 (tr1 ++ tr2) s2.
Proof.
  intros H1 H2. induction H2 as [s|s tr s' w ev s'' H2 IH Hstep].
  - now rewrite app_nil_r.
  - rewrite app_assoc. eapply exec_step; eauto.
Qed.

Lemma exec_one E w s ev s' :
  step_thread E w s = Some (ev, s') -> exec E s [ev] s'.
Proof. intros H. apply (exec_step E s [] s w ev s' (exec_nil E s) H). Qed.

Lemma exec_cons E w s ev s1 tr s2 :
  step_thread E w s = Some (ev, s1) -> exec E s1 tr s2 ->
  exec E s (ev :: tr) s2.
Proof.
  intros H1 H2. apply (exec_trans E s [ev] s1 tr s2); [|exact H2].
  eapply exec_one, H1.
Qed.

(** A history splits at each of its events. *)
Lemma exec_split E s0 tr s :
  exec E s0 tr s ->
  forall tr1 ev tr2,
    tr = tr1 ++ ev :: tr2 ->
    exists s1 s2 w,
      exec E s0 tr1 s1 /\ step_thread E w s1 = Some (ev, s2)
      /\ exec E s2 tr2 s.
Proof.
  induction 1 as [s|s tr s1 w ev s2 Hex IH Hstep]; intros tr1 ev0 tr2 Heq.
  - now destruct tr1.
  - destruct (exists_last (l := ev0 :: tr2) ltac:(discriminate))
      as (l' & x & Hl).
    rewrite Hl, app_assoc in Heq. apply app_inj_tail in Heq as [Htr ->].
    destruct tr2 as [|e tr2].
    + destruct l'; [|now destruct l'].
      injection Hl as ->. rewrite app_nil_r in Htr. subst tr1.
      exists s1, s2, w. repeat split; auto. constructor.
    + destruct l' as [|e0 l']; [now destruct tr2|].
      injection Hl as -> Hl.
      destruct (IH tr1 e0 l' Htr) as (sa & sb & w0 & Ha & Hs & Hb).
      exists sa, sb, w0. repeat split; auto.
      rewrite Hl. eapply exec_step; eauto.
Qed.

(** What a step tells about the worker that took it. *)
Lemma step_event E w s ev s' :
  step_thread E w s = Some (ev, s') ->
  w < length (workers s) /\ event_worker ev = w
  /\ match ev with
     | Claim _ idx => pc_at s w = PMap /\ idx = global_index s
     | Write _ i => pc_at s w = PWrite i
     | Read _ t => pc_at s w = PRead t
                   /\ exists updates, slot s w t = Some (Some updates)
     | Print _ b => pc_at s w = PPrint
                    /\ b = report w (top_five (worker_at s w))
     | Abort _ => True
     end.
Proof.
  unfold step_thread. intros H.
  destruct (nth_error (workers s) w) as [th|] eqn:Hth; [|discriminate].
  destruct (nth_error_some_nth _ _ _ fresh_worker Hth) as [Hat Hlt].
  split; [exact Hlt|]. unfold pc_at, worker_at. rewrite Hat.
  destruct (pc th) eqn:Hpc.
  - destruct (global_index s <? _)%Z; injection H as <- <-; auto.
  - destruct (slot s i w) as [[|]|]; [| |];
      destruct (nth_error (assignment_matrix th) i);
      injection H as <- <-; auto.
  - destruct (slot s w t) as [[u|]|] eqn:Hs; [| discriminate |];
      injection H as <- <-; simpl; eauto.
  - injection H as <- <-. auto.
  - discriminate.
  - discriminate.
Qed.

Lemma in_claims tr w idx : In (w, idx) (claims tr) <-> In (Claim w idx) tr.
Proof.
  induction tr as [|ev tr IH]; simpl; [tauto|].
  destruct ev; simpl; rewrite IH; split;
    try (intros [H|H]; [discriminate|tauto]); try tauto.
  - intros [[= -> ->]|H]; auto.
  - intros [[= -> ->]|H]; auto.
Qed.

(** [run_schedule] produces runs. *)
Lemma run_schedule_exec E sched :
  forall s tr s',
    run_schedule E sched s = Some (tr, s') -> exec E s tr s'.
Proof.
  induction sched as [|w sched IH]; intros s tr s' H; simpl in H.
  - injection H as <- <-. constructor.
  - destruct (step_thread E w s) as [[ev s1]|] eqn:Hstep; [|discriminate].
    destruct (run_schedule E sched s1) as [[tr1 s2]|] eqn:Hrun;
      [|discriminate].
    injection H as <- <-. eapply exec_cons; eauto.
Qed.

(** * Termination and absence of deadlock *)

Lemma list_sum_set_nth {A} (f : A -> nat) w x l d :
  w < length l ->
  list_sum (map f (set_nth w x l)) + f (nth w l d)
  = list_sum (map f l) + f x.
Proof.
  revert w. induction l as [|y l IH]; intros [|w] H; simpl in *; try lia.
  specialize (IH w ltac:(lia)). lia.
Qed.

Lemma rank_enter_read E t th :
  t <= num_threads E -> rank E (pc (enter_read E t th)) <= num_threads E + 2 - t.
Proof.
  intros Ht. unfold enter_read.
  destruct (t <? num_threads E) eqn:Hlt; simpl; [lia|].
  apply Nat.ltb_ge in Hlt. lia.
Qed.

Lemma rank_enter_write E i th :
  0 < num_threads E -> i <= num_threads E ->
  rank E (pc (enter_write E i th)) <= 2 * num_threads E + 2 - i.
Proof.
  intros HW Hi. unfold enter_write.
  destruct (i <? num_threads E) eqn:Hlt; simpl; [lia|].
  pose proof (rank_enter_read E 0 th ltac:(lia)). lia.
Qed.

(** Every step brings the engine closer to the end. *)
Lemma step_measure E tr s w ev s' :
  index_fits E -> inv E tr s ->
  step_thread E w s = Some (ev, s') ->
  measure E s' < measure E s.
Proof.
  intros Hfit Hinv Hstep. unfold step_thread in Hstep.
  destruct (nth_error (workers s) w) as [th|] eqn:Hth; [|discriminate].
  destruct (worker_lookup E tr s w th Hinv Hth) as (Hw & Hat & Hpcat).
  pose proof (inv_workers _ _ _ Hinv) as Hlen.
  pose proof (wi_pc _ _ _ _ (inv_each _ _ _ Hinv w Hw)) as Hpcr.
  assert (Hsum : forall th' g m,
    measure E (mkState g m (set_nth w th' (workers s))) + rank E (pc th)
    = (length (files_to_sweep E) + num_threads E - Z.to_nat g)
      + list_sum (map (fun th => rank E (pc th)) (workers s))
      + rank E (pc th')).
  { intros th' g m. unfold measure. cbn [global_index workers].
    pose proof (list_sum_set_nth (fun th => rank E (pc th)) w th'
                  (workers s) fresh_worker ltac:(lia)) as H.
    cbv beta in H. fold (worker_at s w) in H. rewrite Hat in H. lia. }
  unfold measure at 2. rewrite Hpcat in *.
  destruct (pc th) eqn:Hpc.
  - destruct (claim_shared E tr s w Hfit Hinv Hw Hpcat) as (S1 & _ & _ & S4 & _).
    rewrite claims_snoc, length_app in S1, S4. cbn [length] in S1, S4.
    rewrite filter_app, length_app in S4.
    pose proof (failed_claims_bound E tr s w Hinv Hw Hpcat) as Hfb.
    pose proof (inv_index _ _ _ Hinv) as HG.
    destruct (global_index s <? Z.of_nat (length (files_to_sweep E)))%Z eqn:Hlt;
      injection Hstep as <- <-; unfold set_worker;
      cbn [global_index shuffle_matrix workers];
      match goal with
      | |- measure E (mkState ?g ?m (set_nth w ?t _)) < _ =>
          pose proof (Hsum t g m) as Hs
      end; rewrite S1 in *.
    + apply Z.ltb_lt in Hlt. cbn [pc rank] in Hs. lia.
    + pose proof (rank_enter_write E 0
                    (mkWorker PMap (local_freq th)
                       (shuffle_assign E (local_freq th))
                       (reduced_freq th) (top_five th))
                    ltac:(lia) ltac:(lia)).
      cbn [rank] in Hs. lia.
  - destruct (inv_write E tr s w th i Hinv Hth Hpc) as (Hsl & Hb & _).
    rewrite Hsl, Hb in Hstep. injection Hstep as <- <-.
    unfold set_worker. cbn [global_index shuffle_matrix workers].
    match goal with
    | |- measure E (mkState ?g ?m (set_nth w ?t _)) < _ =>
        pose proof (Hsum t g m) as Hs
    end.
    pose proof (rank_enter_write E (S i) th ltac:(lia) ltac:(lia)).
    cbn [rank] in Hs. lia.
  - destruct (inv_read E tr s w th t Hinv Hth Hpc) as ([Hsl|Hsl] & _);
      rewrite Hsl in Hstep; [discriminate|]. injection Hstep as <- <-.
    unfold set_worker.
    match goal with
    | |- measure E (mkState ?g ?m (set_nth w ?t _)) < _ =>
        pose proof (Hsum t g m) as Hs
    end.
    match type of Hs with
    | context [enter_read E (S t) ?t0] =>
        pose proof (rank_enter_read E (S t) t0 ltac:(lia))
    end.
    cbn [rank] in Hs. lia.
  - injection Hstep as <- <-. unfold set_worker.
    match goal with
    | |- measure E (mkState ?g ?m (set_nth w ?t _)) < _ =>
        pose proof (Hsum t g m) as Hs
    end.
    cbn [rank set_pc pc] in Hs. lia.
  - discriminate.
  - discriminate.
Qed.

Lemma phase_eq_dec (p q : phase) : {p = q} + {p <> q}.
Proof. decide equality; apply Nat.eq_dec. Qed.

Lemma finished_dec s : {finished s} + {~ finished s}.
Proof. apply Forall_dec. intros th. apply phase_eq_dec. Qed.

Lemma finished_pc E tr s w :
  inv E tr s -> finished s -> w < num_threads E -> pc_at s w = PDone.
Proof.
  intros Hinv Hfin Hw. unfold finished in Hfin. rewrite Forall_forall in Hfin.
  apply Hfin. apply nth_In. now rewrite (inv_workers _ _ _ Hinv).
Qed.

Lemma not_finished E tr s :
  inv E tr s -> ~ finished s ->
  exists w, w < num_threads E /\ pc_at s w <> PDone.
Proof.
  intros Hinv Hnf. unfold finished in Hnf.
  apply neg_Forall_Exists_neg in Hnf; [|intros th; apply phase_eq_dec].
  apply Exists_exists in Hnf as (th & Hin & Hpc).
  apply (In_nth _ _ fresh_worker) in Hin as (w & Hw & Hth).
  exists w. rewrite <- (inv_workers _ _ _ Hinv). split; [exact Hw|].
  unfold pc_at, worker_at. now rewrite Hth.
Qed.

Lemma worker_exists E tr s w :
  inv E tr s -> w < num_threads E ->
  nth_error (workers s) w = Some (worker_at s w).
Proof.
  intros Hinv Hw. apply nth_error_nth'. now rewrite (inv_workers _ _ _ Hinv).
Qed.

(** A worker that is not blocked can step. *)
Lemma can_step E tr s w :
  inv E tr s -> w < num_threads E ->
  match pc_at s w with
  | PRead t => num_threads E <= writes_done E (pc_at s t)
  | PDone => False
  | _ => True
  end ->
  exists ev s', step_thread E w s = Some (ev, s').
Proof.
  intros Hinv Hw Hen. unfold step_thread.
  rewrite (worker_exists E tr s w Hinv Hw). fold (pc_at s w).
  pose proof (wi_pc _ _ _ _ (inv_each _ _ _ Hinv w Hw)) as Hpcr.
  destruct (pc_at s w) eqn:Hpc; try easy.
  - destruct (global_index s <? _)%Z; eauto.
  - destruct (slot s i w) as [[|]|];
      destruct (nth_error (assignment_matrix (worker_at s w)) i); eauto.
  - rewrite (wi_slots _ _ _ _ (inv_each _ _ _ Hinv t Hpcr) w Hw).
    replace (w <? writes_done E (pc_at s t)) with true
      by (symmetry; apply Nat.ltb_lt; lia).
    eauto.
  - eauto.
Qed.

(** No deadlock: while a worker has not returned, some worker can step. *)
Lemma progress E tr s :
  inv E tr s -> ~ finished s ->
  exists w ev s', step_thread E w s = Some (ev, s').
Proof.
  intros Hinv Hnf. destruct (not_finished E tr s Hinv Hnf) as (w & Hw & Hpc).
  pose proof (wi_pc _ _ _ _ (inv_each _ _ _ Hinv w Hw)) as Hpcr.
  destruct (pc_at s w) eqn:Hpcw; try easy;
    try (exists w; apply (can_step E tr s w Hinv Hw); now rewrite Hpcw).
  pose proof (wi_pc _ _ _ _ (inv_each _ _ _ Hinv t Hpcr)) as Hpct.
  destruct (pc_at s t) eqn:Hpt; try easy;
    try (exists w; apply (can_step E tr s w Hinv Hw);
         rewrite Hpcw, Hpt; simpl; lia);
    exists t; apply (can_step E tr s t Hinv Hpcr); now rewrite Hpt.
Qed.

(** Every run can be completed: all workers return. *)
Lemma run_completes E :
  index_fits E ->
  forall n tr s,
    measure E s <= n -> run E tr s ->
    exists tr' s', exec E s tr' s' /\ finished s'.
Proof.
  intros Hfit. induction n as [|n IH]; intros tr s Hm Hrun;
    pose proof (run_inv E tr s Hfit Hrun) as Hinv;
    destruct (finished_dec s) as [Hf|Hnf];
    try (exists [], s; split; [constructor|exact Hf]);
    destruct (progress E tr s Hinv Hnf) as (w & ev & s1 & Hstep);
    pose proof (step_measure E tr s w ev s1 Hfit Hinv Hstep) as Hlt.
  - lia.
  - destruct (IH (tr ++ [ev]) s1 ltac:(lia)) as (tr' & s' & Hex & Hfin).
    { eapply exec_step; eauto. }
    exists (ev :: tr'), s'. split; [|exact Hfin]. eapply exec_cons; eauto.
Qed.

(** Every run is finite: its length is bounded by the initial measure. *)
Lemma run_bounded E tr s :
  index_fits E -> run E tr s ->
  length tr + measure E s <= measure E (init E).
Proof.
  intros Hfit Hrun. unfold run in Hrun.
  remember (init E) as s0 eqn:H0.
  induction Hrun as [s|s tr s1 w ev s2 Hex IH Hstep]; [simpl; lia|].
  specialize (IH H0). subst s.
  pose proof (run_inv E tr s1 Hfit Hex) as Hinv.
  pose proof (step_measure E tr s1 w ev s2 Hfit Hinv Hstep).
  rewrite last_length. lia.
Qed.

(** A complete run exists. *)
Lemma complete_run_exists E :
  index_fits E -> exists tr s, run E tr s /\ finished s.
Proof.
  intros Hfit.
  destruct (run_completes E Hfit (measure E (init E)) [] (init E)
              (Nat.le_refl _) (exec_nil E (init E)))
    as (tr & s & Hex & Hfin).
  now exists tr, s.
Qed.

(** * Who counted what *)

Lemma list_sum_map_add {A} (a b : A -> nat) l :
  list_sum (map (fun x => a x + b x) l)
  = list_sum (map a l) + list_sum (map b l).
Proof. induction l as [|x l IH]; simpl; lia. Qed.

Lemma list_sum_indicator x v n :
  forall a,
    list_sum (map (fun w => if x =? w then v else 0) (seq a n))
    = if (a <=? x) && (x <? a + n) then v else 0.
Proof.
  induction n as [|n IH]; intros a; simpl.
  - destruct (a <=? x) eqn:H1; [|reflexivity].
    replace (x <? a + 0) with false; [reflexivity|].
    symmetry. apply Nat.ltb_ge. apply Nat.leb_le in H1. lia.
  - rewrite IH. destruct (x =? a) eqn:Hx.
    + apply Nat.eqb_eq in Hx. subst x.
      replace (S a <=? a) with false by (symmetry; apply Nat.leb_gt; lia).
      rewrite Nat.leb_refl.
      replace (a <? a + S n) with true by (symmetry; apply Nat.ltb_lt; lia).
      simpl. lia.
    + apply Nat.eqb_neq in Hx.
      destruct (S a <=? x) eqn:H1; destruct (a <=? x) eqn:H2;
        destruct (x <? S a + n) eqn:H3; destruct (x <? a + S n) eqn:H4;
        simpl; try reflexivity; exfalso;
        rewrite ?Nat.leb_le, ?Nat.leb_gt, ?Nat.ltb_lt, ?Nat.ltb_ge in *; lia.
Qed.

(** Summing over the workers what each one claimed is summing over the
    claims. *)
Lemma claims_partition E (h : nat -> nat) cl :
  (forall c, In c cl -> fst c < num_threads E) ->
  list_sum
    (map (fun w =>
            list_sum
              (map h (map (fun c => Z.to_nat (snd c))
                        (filter (fun c => (fst c =? w) && in_range E c) cl))))
       (seq 0 (num_threads E)))
  = list_sum
      (map (fun c => if in_range E c then h (Z.to_nat (snd c)) else 0) cl).
Proof.
  induction cl as [|c cl IH]; intros Hlt.
  - simpl. induction (seq 0 (num_threads E)); simpl; auto.
  - set (val := fun c => if in_range E c then h (Z.to_nat (snd c)) else 0)
      in *.
    cbn [map list_sum].
    transitivity
      (list_sum
         (map (fun w =>
                 (if fst c =? w then val c else 0)
                 + list_sum
                     (map h (map (fun c => Z.to_nat (snd c))
                               (filter (fun c => (fst c =? w)
                                                 && in_range E c) cl))))
            (seq 0 (num_threads E)))).
    + f_equal. apply map_ext. intros w. cbn [filter]. unfold val.
      destruct (fst c =? w); destruct (in_range E c); reflexivity.
    + rewrite list_sum_map_add, IH by (intros; apply Hlt; now right).
      f_equal. rewrite list_sum_indicator.
      specialize (Hlt c (or_introl eq_refl)). simpl.
      replace (fst c <? num_threads E) with true
        by (symmetry; apply Nat.ltb_lt; lia).
      reflexivity.
Qed.

Lemma list_sum_prefix (h : nat -> nat) L G :
  list_sum (map (fun j => if j <? L then h j else 0) (seq 0 G))
  = list_sum (map h (seq 0 (Nat.min G L))).
Proof.
  induction G as [|G IH]; [reflexivity|].
  rewrite seq_S, map_app, list_sum_app, IH. rewrite Nat.add_0_l.
  cbn [map]. destruct (G <? L) eqn:Hlt.
  - apply Nat.ltb_lt in Hlt.
    replace (Nat.min (S G) L) with (S G) by lia.
    replace (Nat.min G L) with G by lia.
    rewrite seq_S, map_app, list_sum_app. reflexivity.
  - apply Nat.ltb_ge in Hlt.
    replace (Nat.min (S G) L) with (Nat.min G L) by lia.
    simpl (list_sum [0]). lia.
Qed.

(** Along a run the workers have claimed, between them, each of the first
    files once. *)
Lemma claimed_sum E tr s (h : nat -> nat) :
  inv E tr s ->
  list_sum (map (fun w => list_sum (map h (claimed_by E w tr)))
              (seq 0 (num_threads E)))
  = list_sum
      (map h (seq 0 (Nat.min (length (claims tr))
                       (length (files_to_sweep E))))).
Proof.
  intros Hinv. unfold claimed_by.
  rewrite claims_partition by apply (inv_claimers _ _ _ Hinv).
  rewrite <- list_sum_prefix.
  transitivity
    (list_sum
       (map (fun z => if (z <? Z.of_nat (length (files_to_sweep E)))%Z
                      then h (Z.to_nat z) else 0)
          (map snd (claims tr)))).
  - now rewrite map_map.
  - rewrite (inv_claims _ _ _ Hinv), map_map. f_equal. apply map_ext.
    intros j. rewrite Nat2Z.id.
    destruct (j <? _) eqn:H1; destruct (Z.of_nat j <? _)%Z eqn:H2;
      try reflexivity; exfalso;
      rewrite ?Nat.ltb_lt, ?Nat.ltb_ge, ?Z.ltb_lt, ?Z.ltb_ge in *; lia.
Qed.

Lemma occ_flat_map {A} (F : A -> list str) l k :
  occ (flat_map F l) k = list_sum (map (fun i => occ (F i) k) l).
Proof.
  induction l as [|x l IH]; [reflexivity|].
  cbn [flat_map map list_sum]. now rewrite occ_app, IH.
Qed.

Lemma all_ngrams_seq E :
  all_ngrams E
  = flat_map (fun i => file_ngrams (ngram E) (file_at E i))
      (seq 0 (length (files_to_sweep E))).
Proof.
  unfold all_ngrams, file_at.
  rewrite <- (flat_map_map (file_ngrams (ngram E))
                (fun i => nth i (files_to_sweep E) [])).
  now rewrite map_nth_seq.
Qed.

(** The keys counted so far are among the keys of all the files. *)
Lemma merged_total E tr s k :
  inv E tr s ->
  merged_count E tr (num_threads E) k
  = occ (flat_map (fun i => file_ngrams (ngram E) (file_at E i))
           (seq 0 (Nat.min (length (claims tr))
                     (length (files_to_sweep E))))) k.
Proof.
  intros Hinv. unfold merged_count, emitted_by.
  rewrite occ_flat_map, <- (claimed_sum E tr s) by assumption.
  f_equal. apply map_ext. intros w. apply occ_flat_map.
Qed.

Lemma merged_count_S E tr t k :
  merged_count E tr (S t) k
  = merged_count E tr t k + occ (emitted_by E t tr) k.
Proof.
  unfold merged_count. rewrite seq_S, map_app, list_sum_app. simpl. lia.
Qed.

Lemma merged_count_le E tr t k :
  t <= num_threads E ->
  merged_count E tr t k <= merged_count E tr (num_threads E) k.
Proof.
  intros Ht. replace (num_threads E) with (t + (num_threads E - t)) by lia.
  unfold merged_count. rewrite seq_app, map_app, list_sum_app. lia.
Qed.

Lemma merged_le_all E tr s k :
  inv E tr s ->
  merged_count E tr (num_threads E) k <= occ (all_ngrams E) k.
Proof.
  intros Hinv. rewrite (merged_total E tr s) by assumption.
  rewrite all_ngrams_seq.
  set (G := length (claims tr)). set (L := length (files_to_sweep E)).
  replace L with (Nat.min G L + (L - Nat.min G L)) at 2 by lia.
  rewrite seq_app, flat_map_app, occ_app. lia.
Qed.

Lemma finished_all_claimed E tr s :
  inv E tr s -> finished s -> 0 < num_threads E ->
  length (files_to_sweep E) <= length (claims tr).
Proof.
  intros Hinv Hfin HW.
  pose proof (finished_pc E tr s 0 Hinv Hfin HW) as Hpc.
  destruct (wi_left _ _ _ _ (inv_each _ _ _ Hinv 0 HW)) as (c & Hc & _ & Hr).
  { rewrite Hpc. discriminate. }
  apply (in_map snd) in Hc. rewrite (inv_claims _ _ _ Hinv) in Hc.
  apply in_map_iff in Hc as (j & Hj & Hin). apply in_seq in Hin.
  unfold in_range in Hr. rewrite <- Hj in Hr. apply Z.ltb_ge in Hr. lia.
Qed.

(** After a complete run every key of every file was counted once. *)
Lemma merged_finished E tr s k :
  inv E tr s -> finished s -> 0 < num_threads E ->
  merged_count E tr (num_threads E) k = occ (all_ngrams E) k.
Proof.
  intros Hinv Hfin HW. rewrite (merged_total E tr s) by assumption.
  pose proof (finished_all_claimed E tr s Hinv Hfin HW).
  rewrite all_ngrams_seq. now rewrite Nat.min_r by assumption.
Qed.

(** * What the tables hold *)

Lemma local_repr E tr s w :
  inv E tr s -> w < num_threads E ->
  tbl_repr (local_freq (worker_at s w)) (occ (emitted_by E w tr)).
Proof.
  intros Hinv Hw. rewrite (wi_local _ _ _ _ (inv_each _ _ _ Hinv w Hw)).
  apply count_table_repr.
Qed.

Lemma bucket_repr E j m f :
  tbl_repr m f ->
  tbl_repr (bucket E j m)
    (fun k => if assigned_thread E k =? j then f k else 0).
Proof. intros H. apply (tbl_repr_filter (fun k => assigned_thread E k =? j) m f H). Qed.

Lemma reduced_of_repr E tr s w t :
  inv E tr s -> t <= num_threads E ->
  tbl_repr (reduced_of E s w t)
    (fun k => if assigned_thread E k =? w then merged_count E tr t k else 0).
Proof.
  intros Hinv. induction t as [|t IH]; intros Ht.
  - eapply tbl_repr_fun; [|apply tbl_repr_nil].
    intros k. now destruct (assigned_thread E k =? w).
  - rewrite reduced_of_S.
    eapply tbl_repr_fun;
      [|apply tbl_repr_merge;
        [apply bucket_repr, (local_repr E tr s t Hinv); lia
        |apply IH; lia]].
    intros k. cbv beta. rewrite merged_count_S.
    now destruct (assigned_thread E k =? w).
Qed.

Lemma reads_done_le E tr s w :
  inv E tr s -> w < num_threads E ->
  reads_done E (pc_at s w) <= num_threads E.
Proof.
  intros Hinv Hw.
  pose proof (wi_pc _ _ _ _ (inv_each _ _ _ Hinv w Hw)) as H.
  destruct (pc_at s w); simpl; lia.
Qed.

(** At any time, a reduced table holds, for the keys its worker owns, the
    counts of the producers merged so far, and nothing else. *)
Lemma reduced_repr E tr s w :
  inv E tr s -> w < num_threads E ->
  tbl_repr (reduced_freq (worker_at s w))
    (fun k => if assigned_thread E k =? w
              then merged_count E tr (reads_done E (pc_at s w)) k
              else 0).
Proof.
  intros Hinv Hw. rewrite (wi_reduced _ _ _ _ (inv_each _ _ _ Hinv w Hw)).
  apply reduced_of_repr; [assumption|]. eapply reads_done_le; eauto.
Qed.

(** After a complete run, a worker's reduced table is the table of all
    the files restricted to the keys the worker owns. *)
Lemma final_reduced E tr s w :
  inv E tr s -> finished s -> w < num_threads E ->
  reduced_freq (worker_at s w) = bucket E w (count_table (all_ngrams E)).
Proof.
  intros Hinv Hfin Hw.
  eapply tbl_repr_unique; [|apply bucket_repr, count_table_repr].
  eapply tbl_repr_fun; [|apply (reduced_repr E tr s w Hinv Hw)].
  intros k. cbv beta. rewrite (finished_pc E tr s w Hinv Hfin Hw).
  cbn [reads_done]. rewrite (merged_finished E tr s) by (auto; lia).
  reflexivity.
Qed.

Lemma tbl_get_bucket E j m k :
  tbl_get k (bucket E j m)
  = if assigned_thread E k =? j then tbl_get k m else 0%Z.
Proof.
  unfold tbl_get, bucket.
  rewrite (tbl_find_filter (fun k => assigned_thread E k =? j)).
  now destruct (assigned_thread E k =? j).
Qed.

Lemma Zsum_indicator x (v : Z) n :
  forall a,
    Zsum (map (fun w => if x =? w then v else 0%Z) (seq a n))
    = if (a <=? x) && (x <? a + n) then v else 0%Z.
Proof.
  induction n as [|n IH]; intros a; simpl.
  - destruct (a <=? x) eqn:H1; [|reflexivity].
    replace (x <? a + 0) with false; [reflexivity|].
    symmetry. apply Nat.ltb_ge. apply Nat.leb_le in H1. lia.
  - rewrite IH. destruct (x =? a) eqn:Hx.
    + apply Nat.eqb_eq in Hx. subst x.
      replace (S a <=? a) with false by (symmetry; apply Nat.leb_gt; lia).
      rewrite Nat.leb_refl.
      replace (a <? a + S n) with true by (symmetry; apply Nat.ltb_lt; lia).
      simpl. lia.
    + apply Nat.eqb_neq in Hx.
      destruct (S a <=? x) eqn:H1; destruct (a <=? x) eqn:H2;
        destruct (x <? S a + n) eqn:H3; destruct (x <? a + S n) eqn:H4;
        simpl; try reflexivity; exfalso;
        rewrite ?Nat.leb_le, ?Nat.leb_gt, ?Nat.ltb_lt, ?Nat.ltb_ge in *; lia.
Qed.

(** For [ngram >= 1] the sequential count of the source's tokenizer is
    the naive reference. *)
Lemma count_all_reference E :
  1 <= ngram E ->
  count_table (all_ngrams E)
  = naive_reference (ngram E) (files_to_sweep E).
Proof.
  intros Hn. unfold naive_reference, all_ngrams. f_equal.
  apply flat_map_ext. intros c. now apply file_ngrams_spec.
Qed.

(** Processing the files one after the other in one table gives
    [count_table (all_ngrams E)]. *)
Lemma sequential_count E :
  fold_left (fun m c => process_file (ngram E) c m) (files_to_sweep E) []
  = count_table (all_ngrams E).
Proof.
  unfold all_ngrams, count_table.
  generalize (@nil (list ascii * Z)) as m.
  induction (files_to_sweep E) as [|c files IH]; intros m; [reflexivity|].
  cbn [fold_left flat_map]. now rewrite fold_left_app, IH, process_file_ngrams.
Qed.

(** Without overflow the reference holds the exact counts. *)
Lemma count_table_exact keys k :
  (Z.of_nat (length keys) < UINT64_MOD)%Z ->
  tbl_get k (count_table keys) = Z.of_nat (occ keys k).
Proof.
  intros Hlen. rewrite (tbl_repr_get _ _ k (count_table_repr keys)).
  apply Z.mod_small. pose proof (count_occ_bound str_eq_dec k keys).
  unfold occ. lia.
Qed.

(** * Tokenization *)

Example tokenize_short_segments :
  file_ngrams 3 (s_ "ab cd, ef gh ij; kl") = [s_ "ef gh ij"].
Proof. reflexivity. Qed.

Example tokenize_digit_breaks :
  file_ngrams 2 (s_ "ab1cd ef") = [s_ "cd ef"].
Proof. reflexivity. Qed.

(** C3 as stated fails: on "Hello, World! Hello world." with [n = 2] the
    count of "hello world" is 1, not 2. *)
Lemma C3_counterexample :
  tbl_get (s_ "hello world")
    (process_file 2 (s_ "Hello, World! Hello world.") [])
  = 1%Z
  /\ tbl_get (s_ "hello world")
       (process_file 2 (s_ "Hello, World! Hello world.") [])
     <> 2%Z.
Proof. split; [reflexivity|]. vm_compute. discriminate. Qed.

(** C3, amended: tokenizing "Hello, World! Hello world." with [n = 2]
    splits the text at the comma, the exclamation mark and the full stop
    into the sequences "hello", " world" and " hello world"; the first
    two hold a single word and yield nothing, the third yields
    "hello world" once, so the table holds "hello world" with count 1 and
    no key crosses a break. *)
Theorem C3_hello_world :
  regex_split (normalize (s_ "Hello, World! Hello world."))
  = [s_ "hello"; s_ " world"; s_ " hello world"]
  /\ file_ngrams 2 (s_ "Hello, World! Hello world.") = [s_ "hello world"]
  /\ process_file 2 (s_ "Hello, World! Hello world.") []
     = [(s_ "hello world", 1%Z)].
Proof. repeat split. Qed.

(** C5: for every content and every [n >= 1], the keys [process_file]
    increments are, segment after segment, one key per word position
    with [n - 1] further words in the segment, made of that word and the
    next [n - 1] joined by single spaces; the segments are the pieces
    between break markers of the normalized content, the words of a
    segment are its maximal runs of lowercase letters; a position with
    fewer words after it, or an empty file, emits nothing, and a key
    holds only lowercase letters and spaces, hence spans no break. *)
Theorem C5_tokenization (n : nat) (contents : list ascii)
    (m : list (list ascii * Z)) :
  1 <= n ->
  process_file n contents m
  = fold_left (fun m k => tbl_incr k m) (file_ngrams n contents) m
  /\ file_ngrams n contents = spec_tokenize n contents
  /\ normalize contents = map spec_normalize_char contents
  /\ (forall c, spec_is_punct c || spec_is_digit c = true ->
                spec_normalize_char c = break_marker)
  /\ join_segments (spec_segments (normalize contents)) = normalize contents
  /\ Forall (fun seg => existsb is_break seg = false)
       (spec_segments (normalize contents))
  /\ (forall seg, spec_words seg = regex_words seg
                  /\ runs_of seg (spec_words seg))
  /\ (forall ws g,
        In g (spec_ngrams n ws) <->
        exists i, i + n <= length ws /\ i < length ws
                  /\ g = join_words (firstn n (skipn i ws)))
  /\ (contents = [] -> file_ngrams n contents = [])
  /\ Forall (fun g => forallb (fun c => is_lower c || Ascii.eqb c " ") g
                      = true)
       (file_ngrams n contents).
Proof.
  intros Hn. repeat split.
  - apply process_file_ngrams.
  - now apply file_ngrams_spec.
  - apply normalize_spec.
  - apply punct_digit_break.
  - apply spec_segments_join.
  - apply spec_segments_no_break.
  - symmetry. apply regex_words_spec.
  - rewrite <- regex_words_spec. apply regex_words_runs.
  - apply in_spec_ngrams.
  - apply in_spec_ngrams.
  - intros ->. reflexivity.
  - now apply file_ngrams_chars.
Qed.

Lemma C5_witness :
  1 <= 2
  /\ file_ngrams 2 (s_ "To be, or not to be")
     = spec_tokenize 2 (s_ "To be, or not to be").
Proof.
  split; [lia|].
  apply (C5_tokenization 2 (s_ "To be, or not to be") []). lia.
Defined.

(** Two segments that [regex_words] cannot tell apart, whatever word is
    being read when they start. *)
Lemma same_words_refl (segs : list (list ascii)) :
  Forall2 (fun s1 s2 => forall cur, words_from cur s1 = words_from cur s2)
    segs segs.
Proof. induction segs; constructor; auto. Qed.

Lemma spec_segments_prefix sep s :
  forallb (fun c => negb (is_break c)) sep = true ->
  spec_segments (sep ++ s)
  = match spec_segments s with
    | seg :: segs => (sep ++ seg) :: segs
    | [] => [sep]
    end.
Proof.
  intros H. induction sep as [|c sep IH]; cbn [app spec_segments].
  - pose proof (spec_segments_not_nil s).
    now destruct (spec_segments s).
  - cbn [forallb] in H. apply andb_true_iff in H as [Hc H].
    rewrite <- is_break_spec. apply negb_true_iff in Hc. rewrite Hc.
    rewrite (IH H). now destruct (spec_segments s).
Qed.

(** A run of bytes that are neither letters nor the break marker can be
    replaced by another one anywhere in a text: the segments stay the
    same up to what [regex_words] sees. *)
Lemma spec_segments_separators sep1 sep2 pre post :
  sep1 <> [] -> sep2 <> [] ->
  forallb (fun c => negb (is_break c) && negb (is_lower c)) sep1 = true ->
  forallb (fun c => negb (is_break c) && negb (is_lower c)) sep2 = true ->
  Forall2 (fun s1 s2 => forall cur, words_from cur s1 = words_from cur s2)
    (spec_segments (pre ++ sep1 ++ post))
    (spec_segments (pre ++ sep2 ++ post)).
Proof.
  intros Hn1 Hn2 H1 H2.
  assert (Hsplit : forall sep,
    forallb (fun c => negb (is_break c) && negb (is_lower c)) sep = true ->
    forallb (fun c => negb (is_break c)) sep = true
    /\ forallb (fun c => negb (is_lower c)) sep = true).
  { intros sep H. rewrite !forallb_forall in *.
    split; intros c Hc; specialize (H c Hc);
      apply andb_true_iff in H; tauto. }
  destruct (Hsplit sep1 H1) as [Hb1 Hl1].
  destruct (Hsplit sep2 H2) as [Hb2 Hl2].
  induction pre as [|c pre IH]; cbn [app].
  - rewrite !spec_segments_prefix by assumption.
    pose proof (spec_segments_not_nil post) as Hnn.
    destruct (spec_segments post) as [|seg segs]; [easy|].
    constructor; [|apply same_words_refl].
    intros cur.
    destruct (words_from_seps sep1 seg Hl1) as [A1 B1].
    destruct (words_from_seps sep2 seg Hl2) as [A2 B2].
    destruct cur as [|x cur]; [now rewrite A1, A2|].
    rewrite B1, B2 by easy. reflexivity.
  - cbn [spec_segments]. destruct (Ascii.eqb c break_marker).
    + constructor; [reflexivity|exact IH].
    + destruct IH as [|s1 s2 l1 l2 Hs Hl]; constructor; auto.
      intros cur. cbn [words_from]. rewrite !Hs. reflexivity.
Qed.

Lemma file_ngrams_segments n contents :
  file_ngrams n contents
  = flat_map (fun seg => sequence_ngrams n (regex_words seg))
      (spec_segments (normalize contents)).
Proof.
  unfold file_ngrams.
  rewrite (regex_split_segments
             (fun sequence =>
                match sequence with
                | [] => []
                | _ => sequence_ngrams n (regex_words sequence)
                end)) by reflexivity.
  apply flat_map_ext. intros [|c seg]; reflexivity.
Qed.

Lemma unmapped_separators sep :
  forallb unmapped sep = true ->
  normalize sep = sep
  /\ forallb (fun c => negb (is_break c) && negb (is_lower c)) sep = true.
Proof.
  intros H. split.
  - apply normalize_fixed. rewrite forallb_forall in *.
    intros c Hc. rewrite (H c Hc). apply orb_true_r.
  - rewrite forallb_forall in *. intros c Hc.
    destruct (unmapped_normalized c (H c Hc)) as (_ & _ & _ & -> & ->).
    reflexivity.
Qed.

Lemma normalize_app s1 s2 : normalize (s1 ++ s2) = normalize s1 ++ normalize s2.
Proof. unfold normalize. now rewrite !map_app. Qed.

(** Unmapped bytes anywhere in a file count as a single space. *)
Lemma unmapped_as_space n sep pre post :
  sep <> [] -> forallb unmapped sep = true ->
  file_ngrams n (pre ++ sep ++ post) = file_ngrams n (pre ++ space ++ post).
Proof.
  intros Hne Hun.
  destruct (unmapped_separators sep Hun) as [Hfix Hsep].
  destruct (unmapped_separators space eq_refl) as [Hfix' Hsep'].
  rewrite !file_ngrams_segments, !normalize_app, Hfix, Hfix'.
  pose proof (spec_segments_separators sep space (normalize pre)
                (normalize post) Hne ltac:(discriminate) Hsep Hsep') as HF.
  induction HF as [|s1 s2 l1 l2 Hs _ IH]; [reflexivity|].
  cbn [flat_map]. unfold regex_words at 1 3. now rewrite Hs, IH.
Qed.

(** C10: a byte below 33 other than tab and newline, or above 126, is
    left as it is by the three transforms and is neither the break marker
    nor a letter. A non-empty run of such bytes acts as a word separator
    inside a segment: anywhere in a file, for every n-gram length and
    every table, [process_file] does with it what it does with a single
    space. In particular two runs of letters separated only by such bytes
    stay in one segment, are two words of it, and [process_file]
    increments the bigram they form together. *)
Theorem C10_unmapped_bytes (sep : list ascii) :
  sep <> [] -> forallb unmapped sep = true ->
  map toLowerCase sep = sep
  /\ map removeNewlineAndTab sep = sep
  /\ map removePunctuationAndNumbers sep = sep
  /\ forallb (fun c => negb (is_break c) && negb (is_lower c)) sep = true
  /\ (forall n pre post,
        file_ngrams n (pre ++ sep ++ post)
        = file_ngrams n (pre ++ space ++ post))
  /\ (forall n pre post m,
        process_file n (pre ++ sep ++ post) m
        = process_file n (pre ++ space ++ post) m)
  /\ (forall u v,
        u <> [] -> v <> [] ->
        forallb is_lower u = true -> forallb is_lower v = true ->
        regex_split (normalize (u ++ sep ++ v)) = [u ++ sep ++ v]
        /\ regex_words (u ++ sep ++ v) = [u; v]
        /\ file_ngrams 2 (u ++ sep ++ v) = [u ++ space ++ v]
        /\ forall m,
             process_file 2 (u ++ sep ++ v) m
             = tbl_incr (u ++ space ++ v) m).
Proof.
  intros Hsep Hun.
  assert (Hid : forall f,
             (forall c, unmapped c = true -> f c = c) -> map f sep = sep).
  { intros f Hf. rewrite <- (map_id sep) at 2. apply map_ext_in.
    intros c Hc. apply Hf. rewrite forallb_forall in Hun. auto. }
  assert (Hnl : forallb (fun c => negb (is_lower c)) sep = true).
  { rewrite forallb_forall in *. intros c Hc.
    now destruct (unmapped_normalized c (Hun c Hc)) as (_ & _ & _ & _ & ->). }
  split; [apply Hid; intros c Hc; now destruct (unmapped_normalized c Hc)|].
  split; [apply Hid; intros c Hc;
          now destruct (unmapped_normalized c Hc) as (_ & ? & _)|].
  split; [apply Hid; intros c Hc;
          now destruct (unmapped_normalized c Hc) as (_ & _ & ? & _)|].
  split; [apply (unmapped_separators sep Hun)|].
  split; [intros n pre post; now apply unmapped_as_space|].
  split.
  { intros n pre post m. rewrite !process_file_ngrams.
    now rewrite (unmapped_as_space n sep pre post). }
  intros u v Hu Hv Hlu Hlv.
  assert (Hnorm : normalize (u ++ sep ++ v) = u ++ sep ++ v).
  { apply normalize_fixed. rewrite !forallb_app.
    repeat (apply andb_true_iff; split);
      rewrite forallb_forall in *; intros c Hc;
      rewrite ?(Hlu c Hc), ?(Hlv c Hc), ?(Hun c Hc); auto using orb_true_r. }
  assert (Hnb : existsb is_break (u ++ sep ++ v) = false).
  { rewrite !existsb_app. repeat (apply orb_false_iff; split);
      apply not_true_is_false; intros H;
      apply existsb_exists in H as (c & Hc & Hb);
      rewrite forallb_forall in *.
    - rewrite (lower_not_break c (Hlu c Hc)) in Hb. discriminate.
    - destruct (unmapped_normalized c (Hun c Hc)) as (_ & _ & _ & Hnb & _).
      congruence.
    - rewrite (lower_not_break c (Hlv c Hc)) in Hb. discriminate. }
  assert (Hwords : regex_words (u ++ sep ++ v) = [u; v]).
  { unfold regex_words. rewrite words_from_lower by assumption.
    destruct (words_from_seps sep v Hnl) as [_ H].
    rewrite app_nil_l, H by assumption.
    rewrite <- (app_nil_r v) at 1. rewrite words_from_lower by assumption.
    simpl. now destruct v. }
  assert (Hgrams : file_ngrams 2 (u ++ sep ++ v) = [u ++ space ++ v]).
  { unfold file_ngrams. rewrite Hnorm. unfold regex_split. rewrite Hnb.
    cbn [flat_map]. rewrite Hwords, app_nil_r.
    destruct u; [easy|]. reflexivity. }
  split; [rewrite Hnorm; unfold regex_split; now rewrite Hnb|].
  split; [exact Hwords|]. split; [exact Hgrams|].
  intros m. rewrite process_file_ngrams, Hgrams. reflexivity.
Qed.

Lemma C10_witness :
  process_file 2 (s_ "ab" ++ [ascii_of_nat 13; ascii_of_nat 200] ++ s_ "cd")
    [(s_ "ab cd", 4%Z)]
  = [(s_ "ab cd", 5%Z)]
  /\ process_file 3
       (s_ "x Ab" ++ [ascii_of_nat 13; ascii_of_nat 200] ++ s_ "cd, ef") []
     = [(s_ "x ab cd", 1%Z)].
Proof.
  destruct (C10_unmapped_bytes [ascii_of_nat 13; ascii_of_nat 200]
              ltac:(discriminate) eq_refl)
    as (_ & _ & _ & _ & _ & Hany & Htwo).
  split.
  - destruct (Htwo (s_ "ab") (s_ "cd") ltac:(discriminate)
                ltac:(discriminate) eq_refl eq_refl) as (_ & _ & _ & H).
    exact (H [(s_ "ab cd", 4%Z)]).
  - exact (Hany 3 (s_ "x Ab") (s_ "cd, ef") []).
Defined.

(** * The work cursor *)

Lemma seq_Z_sorted n : forall a, StronglySorted Z.lt (map Z.of_nat (seq a n)).
Proof.
  induction n as [|n IH]; intros a; simpl; constructor; [apply IH|].
  apply Forall_forall. intros z Hz. apply in_map_iff in Hz as (j & <- & Hj).
  apply in_seq in Hj. lia.
Qed.

Lemma seq_Z_NoDup a n : NoDup (map Z.of_nat (seq a n)).
Proof.
  apply Finite.Injective_map_NoDup; [|apply seq_NoDup].
  intros x y. apply Nat2Z.inj.
Qed.

Lemma run_demo : run demo_engine demo_trace demo_state.
Proof. apply (run_schedule_exec demo_engine demo_schedule). reflexivity. Qed.

Lemma run_early : run demo_engine early_trace early_state.
Proof. apply (run_schedule_exec demo_engine early_schedule). reflexivity. Qed.

Lemma demo_fits : index_fits demo_engine.
Proof. reflexivity. Qed.

Lemma demo_finished : finished demo_state.
Proof. repeat constructor. Qed.

(** C6: along every run the values returned by the fetch-and-add on the
    cursor are, in the order of the calls, 0, 1, 2, ...: increasing from
    0 and pairwise distinct; and once a worker has received a value that
    is not below the number of files it never calls again. *)
Theorem C6_work_cursor (E : engine) (tr : list event) (s : state) :
  index_fits E -> run E tr s ->
  map snd (claims tr) = map Z.of_nat (seq 0 (length (claims tr)))
  /\ StronglySorted Z.lt (map snd (claims tr))
  /\ NoDup (map snd (claims tr))
  /\ (forall tr1 w idx tr2,
        tr = tr1 ++ Claim w idx :: tr2 ->
        (Z.of_nat (length (files_to_sweep E)) <= idx)%Z ->
        forall idx', ~ In (Claim w idx') tr2).
Proof.
  intros Hfit Hrun. pose proof (run_inv E tr s Hfit Hrun) as Hinv.
  pose proof (inv_claims _ _ _ Hinv) as Hc.
  split; [exact Hc|]. rewrite Hc.
  split; [apply seq_Z_sorted|]. split; [apply seq_Z_NoDup|].
  intros tr1 w idx tr2 Htr Hidx idx' Hin.
  apply in_split in Hin as (tr2a & tr2b & ->).
  replace (tr1 ++ Claim w idx :: tr2a ++ Claim w idx' :: tr2b)
    with ((tr1 ++ Claim w idx :: tr2a) ++ Claim w idx' :: tr2b) in Htr
    by now rewrite <- app_assoc.
  destruct (exec_split E _ _ _ Hrun _ _ _ Htr)
    as (s1 & s2 & w0 & Hex1 & Hstep & _).
  pose proof (run_inv E _ s1 Hfit Hex1) as Hinv1.
  destruct (step_event E w0 s1 _ s2 Hstep) as (Hlt & Hw0 & Hpc & _).
  simpl in Hw0. subst w0. rewrite (inv_workers _ _ _ Hinv1) in Hlt.
  pose proof (wi_claims _ _ _ _ (inv_each _ _ _ Hinv1 w Hlt) Hpc (w, idx))
    as Hr.
  unfold in_range in Hr. cbn [fst snd] in Hr.
  rewrite in_claims in Hr.
  specialize (Hr ltac:(apply in_app_iff; right; now left) eq_refl).
  apply Z.ltb_lt in Hr. lia.
Qed.

Lemma C6_witness :
  map snd (claims demo_trace) = [0; 1; 2; 3]%Z.
Proof.
  exact (proj1 (C6_work_cursor demo_engine demo_trace demo_state
                  demo_fits run_demo)).
Defined.

(** * Writes, reads and the order of the phases *)

(** C7 as stated fails: with two workers, worker 0 reads both its
    futures, merges them and prints while worker 1 has not yet set the
    promise addressed to itself. *)
Lemma C7_counterexample :
  run demo_engine early_trace early_state
  /\ pc_at early_state 0 = PDone
  /\ slot early_state 1 1 = Some None
  /\ ~ reduce_after_all_writes demo_engine early_trace.
Proof.
  split; [exact run_early|]. split; [reflexivity|]. split; [reflexivity|].
  intros H.
  specialize (H [Claim 0 0%Z; Claim 0 1%Z; Claim 0 2%Z; Write 0 0; Write 0 1;
                 Claim 1 3%Z; Write 1 0] 0 0
                [Read 0 1;
                 Print 0 (report 0 (top_five (worker_at early_state 0)))]
                eq_refl 1 1 ltac:(simpl; lia) ltac:(simpl; lia)).
  simpl in H. intuition discriminate.
Qed.

(** C7, amended: a worker sets all its [num_threads] promises, its own
    included, before it reads any future, so it never waits on itself;
    and it reads the future of producer [t] only after [t] has left the
    map phase and set the promise addressed to this worker. (A worker
    may thus merge, and even print, before all the promises of the
    matrix are set.) A worker that has left the reading loop has thus
    seen the [num_threads] promises addressed to it set, by producers
    that have all left the map phase. *)
Theorem C7_writes_before_reads (E : engine) (tr : list event) (s : state) :
  index_fits E -> run E tr s ->
  (forall tr1 w t tr2,
     tr = tr1 ++ Read w t :: tr2 ->
     (forall i, i < num_threads E -> In (Write w i) tr1)
     /\ In (Write t w) tr1
     /\ (exists idx, In (Claim t idx) tr1
                     /\ (Z.of_nat (length (files_to_sweep E)) <= idx)%Z))
  /\ (forall w, w < num_threads E ->
        pc_at s w = PPrint \/ pc_at s w = PDone ->
        forall t, t < num_threads E ->
                  In (Write t w) tr /\ pc_at s t <> PMap).
Proof.
  intros Hfit Hrun. split.
  2:{ pose proof (run_inv E tr s Hfit Hrun) as Hinv.
      intros w Hw Hpc t Ht.
      assert (Hdone : w < writes_done E (pc_at s t)).
      { apply (wi_reads _ _ _ _ (inv_each _ _ _ Hinv w Hw)).
        destruct Hpc as [-> | ->]; exact Ht. }
      split.
      - now apply (wi_writes_tr _ _ _ _ (inv_each _ _ _ Hinv t Ht)).
      - intros Hmap. rewrite Hmap in Hdone. simpl in Hdone. lia. }
  intros tr1 w t tr2 Htr.
  destruct (exec_split E _ _ _ Hrun _ _ _ Htr)
    as (s1 & s2 & w0 & Hex1 & Hstep & _).
  pose proof (run_inv E _ s1 Hfit Hex1) as Hinv1.
  destruct (step_event E w0 s1 _ s2 Hstep) as (Hlt & Hw0 & Hpc & u & Hu).
  simpl in Hw0. subst w0. rewrite (inv_workers _ _ _ Hinv1) in Hlt.
  pose proof (inv_each _ _ _ Hinv1 w Hlt) as Hw.
  pose proof (wi_pc _ _ _ _ Hw) as Ht. rewrite Hpc in Ht.
  pose proof (inv_each _ _ _ Hinv1 t Ht) as Hwt.
  assert (Hdone : w < writes_done E (pc_at s1 t)).
  { pose proof (wi_slots _ _ _ _ Hwt w Hlt) as Hs. rewrite Hu in Hs.
    destruct (w <? writes_done E (pc_at s1 t)) eqn:Hb; [|discriminate].
    now apply Nat.ltb_lt. }
  split; [|split].
  - intros i Hi. apply (wi_writes_tr _ _ _ _ Hw). now rewrite Hpc.
  - now apply (wi_writes_tr _ _ _ _ Hwt).
  - destruct (wi_left _ _ _ _ Hwt) as ([t' idx] & Hc & Hfst & Hr).
    { intros Hmap. rewrite Hmap in Hdone. simpl in Hdone. lia. }
    simpl in Hfst. subst t'. exists idx. split; [now apply in_claims|].
    unfold in_range in Hr. simpl in Hr. now apply Z.ltb_ge.
Qed.

Lemma C7_witness :
  (forall i, i < 2 ->
     In (Write 1 i)
       [Claim 0 0%Z; Claim 1 1%Z; Claim 0 2%Z; Write 0 0; Write 0 1;
        Claim 1 3%Z; Write 1 0; Write 1 1; Read 0 0; Read 0 1;
        Print 0 (report 0 (top_five (worker_at demo_state 0)))])
  /\ In (Write 0 1)
       [Claim 0 0%Z; Claim 1 1%Z; Claim 0 2%Z; Write 0 0; Write 0 1;
        Claim 1 3%Z; Write 1 0; Write 1 1; Read 0 0; Read 0 1;
        Print 0 (report 0 (top_five (worker_at demo_state 0)))]
  /\ (exists idx,
        In (Claim 0 idx)
          [Claim 0 0%Z; Claim 1 1%Z; Claim 0 2%Z; Write 0 0; Write 0 1;
           Claim 1 3%Z; Write 1 0; Write 1 1; Read 0 0; Read 0 1;
           Print 0 (report 0 (top_five (worker_at demo_state 0)))]
        /\ (Z.of_nat (length (files_to_sweep demo_engine)) <= idx)%Z).
Proof.
  apply (proj1 (C7_writes_before_reads demo_engine demo_trace demo_state
                  demo_fits run_demo) _ 1 0
           [Read 1 1;
            Print 1 (report 1 (top_five (worker_at demo_state 1)))]).
  reflexivity.
Defined.

(** * Tables in the middle of a loop *)

Lemma list_sum_term {A} (f : A -> nat) x l :
  In x l -> f x <= list_sum (map f l).
Proof.
  induction l as [|y l IH]; simpl; [easy|].
  intros [->|H]; [lia|]. specialize (IH H). lia.
Qed.

Lemma emitted_le_all E tr s w k :
  inv E tr s -> w < num_threads E ->
  occ (emitted_by E w tr) k <= occ (all_ngrams E) k.
Proof.
  intros Hinv Hw.
  etransitivity; [|apply (merged_le_all E tr s k Hinv)].
  unfold merged_count.
  apply (list_sum_term (fun t => occ (emitted_by E t tr) k)).
  apply in_seq. lia.
Qed.

Lemma occ_le_length keys k : occ keys k <= length keys.
Proof. apply count_occ_bound. Qed.

(** An entry of a table of counts below [2^64] is at least 1. *)
Lemma tbl_repr_positive m f k v bound :
  tbl_repr m f -> In (k, v) m ->
  f k <= bound -> (Z.of_nat bound < UINT64_MOD)%Z ->
  (1 <= v)%Z /\ v = Z.of_nat (f k).
Proof.
  intros [Hs H] Hin Hle Hb. apply (tbl_find_in k v m Hs) in Hin.
  rewrite H in Hin. destruct (f k =? 0) eqn:Hz; [discriminate|].
  apply Nat.eqb_neq in Hz. injection Hin as <-.
  rewrite Z.mod_small by lia. lia.
Qed.

Lemma file_ngrams_nil n : file_ngrams n [] = [].
Proof. reflexivity. Qed.

Lemma in_firstn {A} (x : A) j l : In x (firstn j l) -> In x l.
Proof.
  intros H. rewrite <- (firstn_skipn j l). apply in_app_iff. now left.
Qed.

Lemma firstn_sorted j :
  forall m, tbl_sorted m -> tbl_sorted (firstn j m).
Proof.
  induction j as [|j IH]; intros [|[k v] m]; simpl; auto.
  intros [Hab Hs]. split; [|auto].
  apply Forall_forall. intros e He. apply in_firstn in He.
  exact (proj1 (Forall_forall _ _) Hab e He).
Qed.

Lemma occ_firstn j keys k : occ (firstn j keys) k <= occ keys k.
Proof.
  rewrite <- (firstn_skipn j keys) at 2. rewrite occ_app. lia.
Qed.

(** The first entries of a table hold some of its counts. *)
Lemma tbl_repr_firstn j us g :
  tbl_repr us g ->
  exists g', tbl_repr (firstn j us) g' /\ forall k, g' k <= g k.
Proof.
  intros [Hs Hu].
  exists (fun k => match tbl_find k (firstn j us) with
                   | Some _ => g k
                   | None => 0
                   end).
  pose proof (firstn_sorted j us Hs) as Hsj.
  split; [split; [exact Hsj|]|].
  - intros k. destruct (tbl_find k (firstn j us)) as [v|] eqn:Hf;
      [|reflexivity].
    apply (tbl_find_in k v _ Hsj) in Hf. apply in_firstn in Hf.
    apply (tbl_find_in k v _ Hs) in Hf. now rewrite <- Hu.
  - intros k. destruct (tbl_find k (firstn j us)); lia.
Qed.

(** The table of a worker that has merged the first [j] pairs of the
    future it is reading. *)
Lemma partial_merge_repr E tr s w t updates j :
  inv E tr s -> w < num_threads E ->
  pc_at s w = PRead t -> slot s w t = Some (Some updates) ->
  exists f,
    tbl_repr (merge_updates (firstn j updates) (reduced_freq (worker_at s w)))
      f
    /\ forall k, (f k <> 0 -> assigned_thread E k = w)
                 /\ f k <= merged_count E tr (num_threads E) k.
Proof.
  intros Hinv Hw Hpc Hslot.
  pose proof (inv_each _ _ _ Hinv w Hw) as Hwi.
  pose proof (wi_pc _ _ _ _ Hwi) as Ht. rewrite Hpc in Ht.
  pose proof (wi_slots _ _ _ _ (inv_each _ _ _ Hinv t Ht) w Hw) as Hs.
  rewrite Hslot in Hs.
  destruct (w <? writes_done E (pc_at s t)); [|discriminate].
  injection Hs as ->.
  destruct (tbl_repr_firstn j _ _
              (bucket_repr E w _ _ (local_repr E tr s t Hinv Ht)))
    as (g' & Hg' & Hle).
  pose proof (reduced_repr E tr s w Hinv Hw) as Hred.
  rewrite Hpc in Hred. cbn [reads_done] in Hred.
  eexists. split; [apply (tbl_repr_merge _ _ _ _ Hg' Hred)|].
  intros k. cbv beta. specialize (Hle k).
  pose proof (merged_count_le E tr (S t) k ltac:(lia)) as Hm.
  rewrite merged_count_S in Hm.
  destruct (assigned_thread E k =? w) eqn:Ho.
  - apply Nat.eqb_eq in Ho. split; [auto|lia].
  - split; lia.
Qed.

(** The table of a worker that has counted the first [j] keys of the
    file it is about to claim. *)
Lemma partial_local_repr E tr s w j :
  index_fits E -> inv E tr s -> w < num_threads E -> pc_at s w = PMap ->
  let F := file_ngrams (ngram E) (file_at E (Z.to_nat (global_index s))) in
  tbl_repr
    (fold_left (fun m k => tbl_incr k m) (firstn j F)
       (local_freq (worker_at s w)))
    (fun k => occ (emitted_by E w tr) k + occ (firstn j F) k)
  /\ forall k, occ (emitted_by E w tr) k + occ (firstn j F) k
               <= occ (all_ngrams E) k.
Proof.
  intros Hfit Hinv Hw Hpc F. split.
  - apply tbl_repr_fold. now apply local_repr.
  - intros k. pose proof (occ_firstn j F k) as Hj.
    destruct (can_step E tr s w Hinv Hw) as (ev & s' & Hstep);
      [now rewrite Hpc|].
    pose proof (inv_step E tr s w ev s' Hfit Hinv Hstep) as Hinv'.
    destruct (step_event E w s ev s' Hstep) as (_ & Hev & Hcl).
    destruct ev;
      try (rewrite Hpc in Hcl;
           first [discriminate | destruct Hcl; discriminate]);
      [|exfalso; apply (inv_no_abort _ _ _ Hinv' w0), in_snoc_iff;
        now right].
    simpl in Hev. subst w0. destruct Hcl as [_ ->].
    pose proof (emitted_le_all E _ s' w k Hinv' Hw) as Hle.
    unfold emitted_by in Hle. rewrite claimed_by_snoc_claim in Hle.
    rewrite Nat.eqb_refl in Hle. unfold in_range in Hle. cbn [andb snd] in Hle.
    destruct (global_index s <? Z.of_nat (length (files_to_sweep E)))%Z
      eqn:Hlt.
    + rewrite flat_map_app, occ_app in Hle. cbn [flat_map] in Hle.
      rewrite app_nil_r in Hle. fold (emitted_by E w tr) in Hle.
      fold F in Hle. lia.
    + apply Z.ltb_ge in Hlt.
      assert (HF : F = []).
      { unfold F, file_at. rewrite nth_overflow by lia.
        apply file_ngrams_nil. }
      rewrite HF, firstn_nil. change (occ [] k) with 0.
      pose proof (emitted_le_all E tr s w k Hinv Hw). lia.
Qed.

(** * Ownership of the keys *)

Lemma reduced_owner E tr s w k v :
  inv E tr s -> w < num_threads E ->
  In (k, v) (reduced_freq (worker_at s w)) -> assigned_thread E k = w.
Proof.
  intros Hinv Hw Hin. destruct (reduced_repr E tr s w Hinv Hw) as [Hs H].
  apply (tbl_find_in k v _ Hs) in Hin. rewrite H in Hin.
  destruct (assigned_thread E k =? w) eqn:Ho; [now apply Nat.eqb_eq|].
  discriminate.
Qed.

Lemma tbl_get_nonzero k m :
  tbl_get k m <> 0%Z -> exists v, tbl_find k m = Some v.
Proof. unfold tbl_get. destruct (tbl_find k m); [eauto|congruence]. Qed.

(** C2: along every run, a worker whose reduced table holds a nonzero
    count for [k], or any entry for [k], is the worker of index
    [hash(k) mod num_threads]; hence no key is ever in the reduced tables
    of two different workers. This holds between the steps of the
    workers and also inside the merging loop, after any number of pairs
    of the future being read. *)
Theorem C2_partition_ownership (E : engine) (tr : list event) (s : state) :
  index_fits E -> run E tr s ->
  (forall w k, w < num_threads E ->
     tbl_get k (reduced_freq (worker_at s w)) <> 0%Z ->
     w = N.to_nat (str_hash E k mod N.of_nat (num_threads E)))
  /\ (forall w k v, w < num_threads E ->
        In (k, v) (reduced_freq (worker_at s w)) ->
        w = N.to_nat (str_hash E k mod N.of_nat (num_threads E)))
  /\ (forall w1 w2 k v1 v2,
        w1 < num_threads E -> w2 < num_threads E ->
        In (k, v1) (reduced_freq (worker_at s w1)) ->
        In (k, v2) (reduced_freq (worker_at s w2)) ->
        w1 = w2)
  /\ (forall w t updates j k v,
        w < num_threads E ->
        pc_at s w = PRead t -> slot s w t = Some (Some updates) ->
        In (k, v)
          (merge_updates (firstn j updates) (reduced_freq (worker_at s w))) ->
        w = N.to_nat (str_hash E k mod N.of_nat (num_threads E))).
Proof.
  intros Hfit Hrun. pose proof (run_inv E tr s Hfit Hrun) as Hinv.
  fold (assigned_thread E). repeat split.
  - intros w k Hw Hget. apply tbl_get_nonzero in Hget as (v & Hv).
    destruct (reduced_repr E tr s w Hinv Hw) as [Hs _].
    apply (tbl_find_in k v _ Hs) in Hv. symmetry.
    eapply reduced_owner; eauto.
  - intros w k v Hw Hin. symmetry. eapply reduced_owner; eauto.
  - intros w1 w2 k v1 v2 Hw1 Hw2 H1 H2.
    rewrite <- (reduced_owner E tr s w1 k v1 Hinv Hw1 H1).
    now rewrite <- (reduced_owner E tr s w2 k v2 Hinv Hw2 H2).
  - intros w t updates j k v Hw Hpc Hslot Hin.
    destruct (partial_merge_repr E tr s w t updates j Hinv Hw Hpc Hslot)
      as (f & [Hs Hf] & Hown).
    apply (tbl_find_in k v _ Hs) in Hin. rewrite Hf in Hin.
    destruct (f k =? 0) eqn:Hz; [discriminate|].
    apply Nat.eqb_neq in Hz. symmetry. now apply Hown.
Qed.

Lemma C2_witness :
  In (s_ "a b", 3%Z) (reduced_freq (worker_at demo_state 1))
  /\ 1 = N.to_nat (demo_hash (s_ "a b") mod 2).
Proof.
  assert (H : In (s_ "a b", 3%Z) (reduced_freq (worker_at demo_state 1)))
    by (left; reflexivity).
  split; [exact H|].
  exact (proj1 (proj2 (C2_partition_ownership demo_engine demo_trace
                         demo_state demo_fits run_demo))
           1 (s_ "a b") 3%Z ltac:(simpl; lia) H).
Defined.

(** * The global count *)

(** C1: for every file list, every hash and every configuration with at
    least one worker and [n >= 1], the workers all return, and after any
    complete run the sum over the workers of the count stored for [k] in
    their reduced tables is the count of [k] in the table of the naive
    single-threaded reference; that count is the number of occurrences
    of [k] among the n-grams of the files whenever these number less
    than [2^64]. *)
Theorem C1_sum_equals_reference (E : engine) :
  1 <= num_threads E -> 1 <= ngram E -> index_fits E ->
  (exists tr s, run E tr s /\ finished s)
  /\ (forall tr s,
        run E tr s -> finished s ->
        forall k,
          total_reported E s k
          = tbl_get k (naive_reference (ngram E) (files_to_sweep E)))
  /\ (forall k,
        (Z.of_nat (length (flat_map (spec_tokenize (ngram E))
                             (files_to_sweep E))) < UINT64_MOD)%Z ->
        tbl_get k (naive_reference (ngram E) (files_to_sweep E))
        = Z.of_nat (occ (flat_map (spec_tokenize (ngram E))
                           (files_to_sweep E)) k)).
Proof.
  intros HW Hn Hfit. split; [now apply complete_run_exists|].
  split; [|intros k Hlen; now apply count_table_exact].
  intros tr s Hrun Hfin k.
  pose proof (run_inv E tr s Hfit Hrun) as Hinv.
  rewrite <- count_all_reference by assumption. unfold total_reported.
  rewrite (map_ext_in _
             (fun w => if assigned_thread E k =? w
                       then tbl_get k (count_table (all_ngrams E))
                       else 0%Z)).
  - rewrite Zsum_indicator. simpl.
    pose proof (assigned_thread_lt E k ltac:(lia)) as Hlt.
    apply Nat.ltb_lt in Hlt. now rewrite Hlt.
  - intros w Hw. apply in_seq in Hw.
    rewrite (final_reduced E tr s w Hinv Hfin) by lia.
    apply tbl_get_bucket.
Qed.

Lemma C1_witness :
  total_reported demo_engine demo_state (s_ "a b") = 3%Z
  /\ tbl_get (s_ "a b") (naive_reference 2 [s_ "a b a b"; s_ "a b"]) = 3%Z
  /\ total_reported demo_engine demo_state (s_ "a b")
     = tbl_get (s_ "a b") (naive_reference 2 [s_ "a b a b"; s_ "a b"]).
Proof.
  split; [reflexivity|]. split; [reflexivity|].
  exact (proj1 (proj2 (C1_sum_equals_reference demo_engine
                         ltac:(simpl; lia) ltac:(simpl; lia) demo_fits))
           demo_trace demo_state run_demo demo_finished (s_ "a b")).
Defined.

(** When the keys of all the files number less than [2^64], the sum is
    the exact number of occurrences. *)
Lemma total_reported_exact E tr s k :
  1 <= num_threads E -> index_fits E ->
  (Z.of_nat (length (all_ngrams E)) < UINT64_MOD)%Z ->
  run E tr s -> finished s ->
  total_reported E s k = Z.of_nat (occ (all_ngrams E) k).
Proof.
  intros HW Hfit Hlen Hrun Hfin.
  pose proof (run_inv E tr s Hfit Hrun) as Hinv.
  rewrite <- count_table_exact by assumption. unfold total_reported.
  rewrite (map_ext_in _
             (fun w => if assigned_thread E k =? w
                       then tbl_get k (count_table (all_ngrams E))
                       else 0%Z)).
  - rewrite Zsum_indicator. simpl.
    pose proof (assigned_thread_lt E k ltac:(lia)) as Hlt.
    apply Nat.ltb_lt in Hlt. now rewrite Hlt.
  - intros w Hw. apply in_seq in Hw.
    rewrite (final_reduced E tr s w Hinv Hfin) by lia.
    apply tbl_get_bucket.
Qed.

(** * The reported slots *)

Lemma sorted_keys_NoDup m : tbl_sorted m -> NoDup (map fst m).
Proof.
  induction m as [|[k v] m IH]; simpl; [constructor|]. intros [Hab Hs].
  constructor; [|auto]. intros Hin. apply in_map_iff in Hin as (e & He & Hin).
  unfold keys_above in Hab. rewrite Forall_forall in Hab.
  specialize (Hab e Hin). rewrite He, str_compare_refl in Hab. discriminate.
Qed.

Lemma report_line_empty : report_line empty_slot = placeholder_line.
Proof. reflexivity. Qed.

(** The line of a slot with a nonzero count is not the placeholder: it
    holds a colon. *)
Lemma entry_line_not_placeholder g c :
  c <> 0%Z -> report_line (g, c) <> placeholder_line.
Proof.
  intros Hc Heq. unfold report_line in Heq.
  apply Z.eqb_neq in Hc. rewrite Hc in Heq.
  assert (Hin : In ":"%char placeholder_line).
  { rewrite <- Heq. apply in_app_iff. right. apply in_app_iff. right.
    apply in_app_iff. left. now left. }
  cbv in Hin. intuition discriminate.
Qed.

(** What a computed top five holds. *)
Lemma top_five_holds E tr s w :
  inv E tr s -> w < num_threads E ->
  pc_at s w = PPrint \/ pc_at s w = PDone ->
  let red := reduced_freq (worker_at s w) in
  let top := top_five (worker_at s w) in
  let k := Nat.min 5 (length red) in
  length top = 5
  /\ length (firstn k top) = k
  /\ (forall e, In e (firstn k top) -> In e red)
  /\ skipn k top = repeat empty_slot (5 - k).
Proof.
  intros Hinv Hw Hpc red top k.
  pose proof (inv_each _ _ _ Hinv w Hw) as Hwi.
  assert (Htop : top = select_top_five red) by (apply (wi_top _ _ _ _ Hwi Hpc)).
  destruct (select_top_five_spec red) as (rest & Hperm & Hlen & Hs & Hge & Hsk).
  cbv zeta in Hperm, Hlen, Hs, Hge, Hsk. fold k in Hperm, Hlen, Hs, Hge, Hsk.
  rewrite <- Htop in Hperm, Hlen, Hs, Hge, Hsk.
  repeat split; auto.
  - rewrite Htop. apply select_top_five_length.
  - intros e He. eapply Permutation_in; [symmetry; exact Hperm|].
    apply in_app_iff. now left.
Qed.

Lemma run_top : run top_engine top_trace top_state.
Proof.
  apply (run_schedule_exec top_engine one_file_schedule). reflexivity.
Qed.

Lemma run_tie : run tie_engine tie_trace tie_state.
Proof.
  apply (run_schedule_exec tie_engine one_file_schedule). reflexivity.
Qed.

Lemma run_spill : run spill_engine spill_trace spill_state.
Proof.
  apply (run_schedule_exec spill_engine one_file_schedule). reflexivity.
Qed.

(** The lines of a block, written out: the header, a line for each of
    the first [k] slots, and the placeholder for the slots left as they
    were created. *)
Lemma report_lines w top k :
  skipn k top = repeat empty_slot (5 - k) ->
  report w top
  = (s_ "Thread " ++ print_number (Z.of_nat w) ++ s_ ":")
      :: map (fun e =>
                if (snd e =? 0)%Z then s_ "       ..."
                else s_ "       " ++ fst e ++ s_ ": " ++ print_number (snd e))
           (firstn k top)
      ++ repeat (s_ "       ...") (5 - k).
Proof.
  intros Hsk. unfold report. f_equal.
  rewrite <- (firstn_skipn k top) at 1. rewrite map_app, Hsk, map_repeat.
  f_equal. apply map_ext. now intros [g c].
Qed.

(** C8: a worker that has computed its result holds exactly 5 slots; the
    first [min 5 (number of keys of its reduced table)] are entries of
    the table with the largest counts, in descending order of count; each
    remaining slot still has its initial empty value and prints as the
    placeholder. The block the worker prints has six lines: the header
    [Thread w:], then for each of the five slots in order either the
    line of seven spaces, the n-gram, a colon, a space and the count, or,
    for a slot whose count is 0, the placeholder line of seven spaces and
    three dots; the slots past the first [min 5 (number of keys)] all
    print as the placeholder. A worker that has returned has printed
    exactly this block. *)
Theorem C8_top_five (E : engine) (tr : list event) (s : state) (w : nat) :
  index_fits E -> run E tr s -> w < num_threads E ->
  pc_at s w = PPrint \/ pc_at s w = PDone ->
  let red := reduced_freq (worker_at s w) in
  let top := top_five (worker_at s w) in
  let k := Nat.min 5 (length red) in
  let block :=
    (s_ "Thread " ++ print_number (Z.of_nat w) ++ s_ ":")
      :: map (fun e =>
                if (snd e =? 0)%Z then s_ "       ..."
                else s_ "       " ++ fst e ++ s_ ": " ++ print_number (snd e))
           (firstn k top)
      ++ repeat (s_ "       ...") (5 - k) in
  NoDup (map fst red)
  /\ length top = 5
  /\ length (firstn k top) = k
  /\ (exists rest,
        Permutation red (firstn k top ++ rest)
        /\ forall a b, In a (firstn k top) -> In b rest ->
                       (snd b <= snd a)%Z)
  /\ StronglySorted count_ge (firstn k top)
  /\ skipn k top = repeat empty_slot (5 - k)
  /\ (forall e, In e (skipn k top) -> report_line e = placeholder_line)
  /\ (forall b, In (Print w b) tr -> b = report w top)
  /\ report w top = block
  /\ length block = 6
  /\ (forall b, In (Print w b) tr -> b = block)
  /\ (pc_at s w = PDone -> In (Print w block) tr).
Proof.
  intros Hfit Hrun Hw Hpc red top k block.
  pose proof (run_inv E tr s Hfit Hrun) as Hinv.
  pose proof (inv_each _ _ _ Hinv w Hw) as Hwi.
  assert (Htop : top = select_top_five red) by (apply (wi_top _ _ _ _ Hwi Hpc)).
  destruct (select_top_five_spec red) as (rest & Hperm & Hlen & Hs & Hge & Hsk).
  cbv zeta in Hperm, Hlen, Hs, Hge, Hsk. fold k in Hperm, Hlen, Hs, Hge, Hsk.
  rewrite <- Htop in Hperm, Hlen, Hs, Hge, Hsk.
  assert (Hblock : report w top = block) by now apply report_lines.
  repeat split; auto.
  - apply sorted_keys_NoDup. apply (reduced_repr E tr s w Hinv Hw).
  - rewrite Htop. apply select_top_five_length.
  - exists rest. split; [exact Hperm|]. intros a b Ha Hb. now apply Hge.
  - intros e He. rewrite Hsk in He. apply repeat_spec in He. now subst e.
  - intros b Hb. now apply (wi_print_tr _ _ _ _ Hwi) in Hb as [_ ->].
  - unfold block. cbn [length]. rewrite length_app, length_map, Hlen.
    rewrite repeat_length. unfold k. lia.
  - intros b Hb. rewrite <- Hblock.
    now apply (wi_print_tr _ _ _ _ Hwi) in Hb as [_ ->].
  - intros Hd. rewrite <- Hblock. apply (wi_print_tr _ _ _ _ Hwi).
    now split.
Qed.

Lemma C8_witness :
  In (Print 0 [s_ "Thread 0:"; s_ "       f: 6"; s_ "       e: 5";
               s_ "       d: 4"; s_ "       c: 3"; s_ "       b: 2"])
    top_trace
  /\ In (Print 1 [s_ "Thread 1:"; s_ "       a b: 3"; s_ "       ...";
                  s_ "       ..."; s_ "       ..."; s_ "       ..."])
       demo_trace
  /\ StronglySorted count_ge (firstn 5 (top_five (worker_at top_state 0)))
  /\ exists rest,
       Permutation (reduced_freq (worker_at top_state 0))
         (firstn 5 (top_five (worker_at top_state 0)) ++ rest)
       /\ forall a b,
            In a (firstn 5 (top_five (worker_at top_state 0))) ->
            In b rest -> (snd b <= snd a)%Z.
Proof.
  destruct (C8_top_five top_engine top_trace top_state 0
              eq_refl run_top (le_n 1) (or_intror eq_refl))
    as (_ & _ & _ & Hsel & Hsort & _ & _ & _ & _ & _ & _ & Hin).
  destruct (C8_top_five demo_engine demo_trace demo_state 1
              demo_fits run_demo (le_n 2) (or_intror eq_refl))
    as (_ & _ & _ & _ & _ & _ & _ & _ & _ & _ & _ & Hin').
  exact (conj (Hin eq_refl) (conj (Hin' eq_refl) (conj Hsort Hsel))).
Defined.

(** * Counts are positive *)

Lemma nth_firstn_skipn {A} (l : list A) k i d :
  length (firstn k l) = k ->
  (i < k -> In (nth i l d) (firstn k l))
  /\ (k <= i -> i < length l -> In (nth i l d) (skipn k l)).
Proof.
  intros Hk. split; intros Hi.
  - replace (nth i l d) with (nth i (firstn k l ++ skipn k l) d)
      by now rewrite firstn_skipn.
    rewrite app_nth1 by lia. apply nth_In. lia.
  - intros Hlen.
    replace (nth i l d) with (nth i (firstn k l ++ skipn k l) d)
      by now rewrite firstn_skipn.
    rewrite app_nth2 by lia. apply nth_In.
    rewrite Hk, length_skipn. lia.
Qed.

(** C9: when the keys of all the files number less than [2^64], every
    entry of a local or reduced table has, at any time of any run, a
    count of at least 1, between the steps of the workers as well as
    inside the counting loop of [process_file] and inside the merging
    loop; so a slot of count 0 in a computed top five is an untouched
    empty slot, printed as the placeholder, never an entry of the table:
    the slots of count 0 are exactly those past the first
    [min 5 (number of keys)]. *)
Theorem C9_counts_positive (E : engine) (tr : list event) (s : state)
    (w : nat) :
  index_fits E ->
  (Z.of_nat (length (all_ngrams E)) < UINT64_MOD)%Z ->
  run E tr s -> w < num_threads E ->
  (forall k v, In (k, v) (local_freq (worker_at s w)) -> (1 <= v)%Z)
  /\ (forall k v, In (k, v) (reduced_freq (worker_at s w)) -> (1 <= v)%Z)
  /\ (pc_at s w = PPrint \/ pc_at s w = PDone ->
      forall i, i < 5 ->
        let e := nth i (top_five (worker_at s w)) empty_slot in
        (snd e = 0%Z <->
         Nat.min 5 (length (reduced_freq (worker_at s w))) <= i)
        /\ (snd e = 0%Z ->
            e = empty_slot /\ report_line e = placeholder_line
            /\ ~ In e (reduced_freq (worker_at s w)))
        /\ (snd e <> 0%Z ->
            In e (reduced_freq (worker_at s w))
            /\ report_line e <> placeholder_line))
  /\ (pc_at s w = PMap ->
      forall j k v,
        In (k, v)
          (fold_left (fun m k => tbl_incr k m)
             (firstn j (file_ngrams (ngram E)
                          (file_at E (Z.to_nat (global_index s)))))
             (local_freq (worker_at s w))) ->
        (1 <= v)%Z)
  /\ (forall t updates j k v,
        pc_at s w = PRead t -> slot s w t = Some (Some updates) ->
        In (k, v)
          (merge_updates (firstn j updates) (reduced_freq (worker_at s w))) ->
        (1 <= v)%Z).
Proof.
  intros Hfit Hlen Hrun Hw.
  pose proof (run_inv E tr s Hfit Hrun) as Hinv.
  assert (Hmid1 : pc_at s w = PMap ->
      forall j k v,
        In (k, v)
          (fold_left (fun m k => tbl_incr k m)
             (firstn j (file_ngrams (ngram E)
                          (file_at E (Z.to_nat (global_index s)))))
             (local_freq (worker_at s w))) ->
        (1 <= v)%Z).
  { intros Hpc j k v Hin.
    destruct (partial_local_repr E tr s w j Hfit Hinv Hw Hpc) as [Hr Hle].
    apply (tbl_repr_positive _ _ k v (length (all_ngrams E)) Hr Hin);
      [|assumption].
    etransitivity; [apply Hle|]. apply occ_le_length. }
  assert (Hmid2 : forall t updates j k v,
        pc_at s w = PRead t -> slot s w t = Some (Some updates) ->
        In (k, v)
          (merge_updates (firstn j updates) (reduced_freq (worker_at s w))) ->
        (1 <= v)%Z).
  { intros t updates j k v Hpc Hslot Hin.
    destruct (partial_merge_repr E tr s w t updates j Hinv Hw Hpc Hslot)
      as (f & Hr & Hown).
    apply (tbl_repr_positive _ _ k v (length (all_ngrams E)) Hr Hin);
      [|assumption].
    etransitivity; [apply Hown|].
    etransitivity; [apply (merged_le_all E tr s k Hinv)|].
    apply occ_le_length. }
  assert (Hloc : forall k v, In (k, v) (local_freq (worker_at s w)) ->
                             (1 <= v)%Z).
  { intros k v Hin.
    apply (tbl_repr_positive _ _ k v (length (all_ngrams E))
             (local_repr E tr s w Hinv Hw) Hin); [|assumption].
    etransitivity; [apply (emitted_le_all E tr s w k Hinv Hw)|].
    apply occ_le_length. }
  assert (Hred : forall k v, In (k, v) (reduced_freq (worker_at s w)) ->
                             (1 <= v)%Z).
  { intros k v Hin.
    apply (tbl_repr_positive _ _ k v (length (all_ngrams E))
             (reduced_repr E tr s w Hinv Hw) Hin); [|assumption].
    cbv beta. destruct (assigned_thread E k =? w); [|lia].
    etransitivity;
      [apply merged_count_le, (reads_done_le E tr s w Hinv Hw)|].
    etransitivity; [apply (merged_le_all E tr s k Hinv)|].
    apply occ_le_length. }
  split; [exact Hloc|]. split; [exact Hred|].
  split; [|split; [exact Hmid1|exact Hmid2]].
  intros Hpc i Hi e.
  destruct (top_five_holds E tr s w Hinv Hw Hpc)
    as (Hl5 & Hlk & Hin & Hsk).
  set (k := Nat.min 5 (length (reduced_freq (worker_at s w)))) in *.
  destruct (nth_firstn_skipn (top_five (worker_at s w)) k i empty_slot Hlk)
    as [Hfirst Hskip].
  assert (Hcases : (i < k /\ In e (reduced_freq (worker_at s w))
                    /\ (1 <= snd e)%Z)
                   \/ (k <= i /\ e = empty_slot)).
  { destruct (Nat.lt_ge_cases i k) as [Hik|Hik]; [left|right].
    - assert (He : In e (reduced_freq (worker_at s w)))
        by (apply Hin, Hfirst, Hik).
      repeat split; auto. destruct e as [g c]. apply (Hred g c He).
    - split; [exact Hik|]. specialize (Hskip Hik ltac:(lia)).
      rewrite Hsk in Hskip. now apply repeat_spec in Hskip. }
  destruct Hcases as [(Hik & He & Hpos)|(Hik & He)].
  - split; [split; lia|]. split; [lia|]. intros _. split; [exact He|].
    destruct e as [g c]. simpl in Hpos. apply entry_line_not_placeholder.
    lia.
  - rewrite He. split; [split; [intros _; exact Hik|reflexivity]|].
    split; [|simpl; congruence]. intros _. repeat split.
    intros Hin0. specialize (Hred [] 0%Z Hin0). lia.
Qed.

Lemma C9_witness :
  In (s_ "a b", 3%Z) (reduced_freq (worker_at demo_state 1))
  /\ (1 <= 3)%Z.
Proof.
  assert (H : In (s_ "a b", 3%Z) (reduced_freq (worker_at demo_state 1)))
    by (left; reflexivity).
  split; [exact H|].
  exact (proj1 (proj2 (C9_counts_positive demo_engine demo_trace demo_state 1
                         demo_fits eq_refl run_demo ltac:(simpl; lia)))
           (s_ "a b") 3%Z H).
Defined.

(** * Two files, two workers *)

Example demo_report :
  demo_trace
  = [Claim 0 0%Z; Claim 1 1%Z; Claim 0 2%Z; Write 0 0; Write 0 1;
     Claim 1 3%Z; Write 1 0; Write 1 1; Read 0 0; Read 0 1;
     Print 0 [s_ "Thread 0:"; s_ "       b a: 1"; s_ "       ...";
              s_ "       ..."; s_ "       ..."; s_ "       ..."];
     Read 1 0; Read 1 1;
     Print 1 [s_ "Thread 1:"; s_ "       a b: 3"; s_ "       ...";
              s_ "       ..."; s_ "       ..."; s_ "       ..."]].
Proof. reflexivity. Qed.

(** C4 as stated fails: the two files hold "a b" three times and also
    "b a" once; with a hash that separates the two keys, the worker that
    does not own "a b" reports "b a" with count 1, not only
    placeholders. *)
Lemma C4_counterexample :
  run demo_engine demo_trace demo_state /\ finished demo_state
  /\ naive_reference 2 [s_ "a b a b"; s_ "a b"] <> [(s_ "a b", 3%Z)]
  /\ top_five (worker_at demo_state 1)
     = [(s_ "a b", 3%Z); empty_slot; empty_slot; empty_slot; empty_slot]
  /\ top_five (worker_at demo_state 0)
     = [(s_ "b a", 1%Z); empty_slot; empty_slot; empty_slot; empty_slot]
  /\ In (Print 0 [s_ "Thread 0:"; s_ "       b a: 1"; s_ "       ...";
                  s_ "       ..."; s_ "       ..."; s_ "       ..."])
       demo_trace.
Proof.
  split; [exact run_demo|]. split; [exact demo_finished|].
  split; [vm_compute; discriminate|]. split; [reflexivity|].
  split; [reflexivity|]. rewrite demo_report. simpl. auto 12.
Qed.

(** C4, amended: for the two files "a b a b" and "a b", bigrams and two
    workers, whatever the hash and the interleaving, the global counts
    are "a b": 3 and "b a": 1; the worker that owns "a b" reports it
    first with count 3, followed by "b a" with count 1 when it owns that
    key too; the other worker reports "b a" with count 1 when it owns
    it, and only placeholders otherwise; each worker prints its
    report. *)
Theorem C4_two_files (hash : list ascii -> N) (tr : list event)
    (s : state) :
  let E := mkEngine hash [s_ "a b a b"; s_ "a b"] 2 2 in
  let e := empty_slot in
  run E tr s -> finished s ->
  naive_reference 2 [s_ "a b a b"; s_ "a b"]
  = [(s_ "a b", 3%Z); (s_ "b a", 1%Z)]
  /\ assigned_thread E (s_ "a b") < 2
  /\ forall w, w < 2 ->
       top_five (worker_at s w)
       = match assigned_thread E (s_ "a b") =? w,
               assigned_thread E (s_ "b a") =? w with
         | true, true => [(s_ "a b", 3%Z); (s_ "b a", 1%Z); e; e; e]
         | true, false => [(s_ "a b", 3%Z); e; e; e; e]
         | false, true => [(s_ "b a", 1%Z); e; e; e; e]
         | false, false => [e; e; e; e; e]
         end
       /\ In (Print w (report w (top_five (worker_at s w)))) tr.
Proof.
  intros E e Hrun Hfin.
  assert (Hfit : index_fits E) by reflexivity.
  pose proof (run_inv E tr s Hfit Hrun) as Hinv.
  split; [reflexivity|].
  split; [apply (assigned_thread_lt E); simpl; lia|].
  intros w Hw.
  pose proof (inv_each _ _ _ Hinv w Hw) as Hwi.
  pose proof (finished_pc E tr s w Hinv Hfin Hw) as Hpc.
  split.
  - rewrite (wi_top _ _ _ _ Hwi (or_intror Hpc)).
    rewrite (final_reduced E tr s w Hinv Hfin Hw).
    change (count_table (all_ngrams E))
      with [(s_ "a b", 3%Z); (s_ "b a", 1%Z)].
    unfold bucket. cbn [filter fst].
    destruct (assigned_thread E (s_ "a b") =? w);
      destruct (assigned_thread E (s_ "b a") =? w); reflexivity.
  - apply (wi_print_tr _ _ _ _ Hwi). now split.
Qed.

Lemma C4_witness :
  (top_five (worker_at demo_state 1)
   = [(s_ "a b", 3%Z); empty_slot; empty_slot; empty_slot; empty_slot]
   /\ In (Print 1 (report 1 (top_five (worker_at demo_state 1))))
        demo_trace)
  /\ (top_five (worker_at demo_state 0)
      = [(s_ "b a", 1%Z); empty_slot; empty_slot; empty_slot; empty_slot]
      /\ In (Print 0 (report 0 (top_five (worker_at demo_state 0))))
           demo_trace).
Proof.
  split.
  - exact (proj2 (proj2 (C4_two_files demo_hash demo_trace demo_state
                           run_demo demo_finished))
             1 ltac:(lia)).
  - exact (proj2 (proj2 (C4_two_files demo_hash demo_trace demo_state
                           run_demo demo_finished))
             0 ltac:(lia)).
Defined.

(** * No exception, single-fire promises *)

Lemma pc_at_outside E tr s w :
  inv E tr s -> num_threads E <= w -> pc_at s w = PMap.
Proof.
  intros Hinv Hw. unfold pc_at, worker_at.
  rewrite nth_overflow; [reflexivity|]. now rewrite (inv_workers _ _ _ Hinv).
Qed.

Lemma step_no_abort E tr s w ev s' :
  index_fits E -> inv E tr s -> step_thread E w s = Some (ev, s') ->
  forall w', ev <> Abort w'.
Proof.
  intros Hfit Hinv Hstep w' ->.
  apply (inv_no_abort _ _ _ (inv_step E tr s w _ s' Hfit Hinv Hstep) w').
  apply in_snoc_iff. now right.
Qed.

(** X1: along every run no worker throws: no [set_value] hits a promise
    that already has a value, no [at] is out of range, so no history
    holds an abort, no worker is ever in the aborted state, and the next
    step of any worker is not an abort either. *)
Theorem X1_no_exception (E : engine) (tr : list event) (s : state) :
  index_fits E -> run E tr s ->
  (forall w, ~ In (Abort w) tr)
  /\ (forall w, pc_at s w <> PAbort)
  /\ (forall w ev s', step_thread E w s = Some (ev, s') ->
                      forall w', ev <> Abort w').
Proof.
  intros Hfit Hrun. pose proof (run_inv E tr s Hfit Hrun) as Hinv.
  split; [apply (inv_no_abort _ _ _ Hinv)|]. split.
  - intros w Hpc. destruct (Nat.lt_ge_cases w (num_threads E)) as [Hw|Hw].
    + pose proof (wi_pc _ _ _ _ (inv_each _ _ _ Hinv w Hw)) as H.
      now rewrite Hpc in H.
    + rewrite (pc_at_outside E tr s w Hinv Hw) in Hpc. discriminate.
  - intros w ev s' Hstep. eapply step_no_abort; eauto.
Qed.

Lemma X1_witness :
  pc_at demo_state 0 <> PAbort /\ pc_at demo_state 1 <> PAbort.
Proof.
  split;
    apply (proj1 (proj2 (X1_no_exception demo_engine demo_trace demo_state
                           demo_fits run_demo))).
Defined.

(** An event never happens twice. *)
Lemma step_fresh E tr s w ev s' :
  index_fits E -> inv E tr s -> step_thread E w s = Some (ev, s') ->
  ~ In ev tr.
Proof.
  intros Hfit Hinv Hstep Hin.
  destruct (step_event E w s ev s' Hstep) as (Hlt & Hev & Hcase).
  rewrite (inv_workers _ _ _ Hinv) in Hlt.
  pose proof (inv_each _ _ _ Hinv w Hlt) as Hwi.
  destruct ev as [w0 idx|w0 i|w0 t|w0 b|w0]; simpl in Hev; subst w0.
  - destruct Hcase as [_ ->]. apply in_claims in Hin.
    apply (in_map snd) in Hin. rewrite (inv_claims _ _ _ Hinv) in Hin.
    apply in_map_iff in Hin as (j & Hj & Hjn). apply in_seq in Hjn.
    simpl in Hj. rewrite (inv_index _ _ _ Hinv) in Hj. lia.
  - apply (wi_writes_tr _ _ _ _ Hwi) in Hin. rewrite Hcase in Hin.
    simpl in Hin. lia.
  - destruct Hcase as [Hpc _]. apply (wi_reads_tr _ _ _ _ Hwi) in Hin.
    rewrite Hpc in Hin. simpl in Hin. lia.
  - destruct Hcase as [Hpc _]. apply (wi_print_tr _ _ _ _ Hwi) in Hin.
    destruct Hin as [Hd _]. congruence.
  - now apply (inv_no_abort _ _ _ Hinv w).
Qed.

Lemma run_NoDup E tr s : index_fits E -> run E tr s -> NoDup tr.
Proof.
  intros Hfit Hrun. unfold run in Hrun. remember (init E) as s0 eqn:H0.
  induction Hrun as [s|s tr s1 w ev s2 Hex IH Hstep]; [constructor|].
  specialize (IH H0). subst s.
  pose proof (run_inv E tr s1 Hfit Hex) as Hinv.
  apply NoDup_app; [exact IH|repeat constructor; easy|].
  intros a Ha [Heq|[]]. subst a.
  exact (step_fresh E tr s1 w ev s2 Hfit Hinv Hstep Ha).
Qed.

(** X2: promises and futures are single-fire. In every run no event
    happens twice: a promise is set at most once, a future is read at
    most once, a worker prints at most once and a cursor value is handed
    out once. After a complete run every promise [(i, j)] of the matrix
    was set, every future read, and every worker has printed its block:
    each exactly once. *)
Theorem X2_single_fire (E : engine) (tr : list event) (s : state) :
  index_fits E -> run E tr s ->
  NoDup tr
  /\ (finished s ->
      forall i j, i < num_threads E -> j < num_threads E ->
        In (Write j i) tr /\ In (Read i j) tr
        /\ In (Print i (report i (top_five (worker_at s i)))) tr).
Proof.
  intros Hfit Hrun. split; [eapply run_NoDup; eauto|].
  intros Hfin i j Hi Hj. pose proof (run_inv E tr s Hfit Hrun) as Hinv.
  pose proof (finished_pc E tr s i Hinv Hfin Hi) as Hpi.
  pose proof (finished_pc E tr s j Hinv Hfin Hj) as Hpj.
  repeat split.
  - apply (wi_writes_tr _ _ _ _ (inv_each _ _ _ Hinv j Hj)).
    now rewrite Hpj.
  - apply (wi_reads_tr _ _ _ _ (inv_each _ _ _ Hinv i Hi)).
    now rewrite Hpi.
  - apply (wi_print_tr _ _ _ _ (inv_each _ _ _ Hinv i Hi)). now split.
Qed.

Lemma X2_witness :
  NoDup demo_trace /\ In (Write 1 0) demo_trace /\ In (Read 0 1) demo_trace.
Proof.
  destruct (X2_single_fire demo_engine demo_trace demo_state
              demo_fits run_demo) as [Hnd Hall].
  destruct (Hall demo_finished 0 1 ltac:(simpl; lia) ltac:(simpl; lia))
    as (Hw & Hr & _).
  exact (conj Hnd (conj Hw Hr)).
Defined.

(** * No deadlock *)

(** X3: the engine never deadlocks. In every state a run can reach, if
    some worker has not returned then some worker can take a step: a
    worker blocked on a future always has a producer that is not
    blocked. *)
Theorem X3_no_deadlock (E : engine) (tr : list event) (s : state) :
  index_fits E -> run E tr s -> ~ finished s ->
  exists w ev s', step_thread E w s = Some (ev, s').
Proof.
  intros Hfit Hrun Hnf. eapply progress; [|exact Hnf].
  eapply run_inv; eauto.
Qed.

Lemma X3_witness :
  exists w ev s', step_thread demo_engine w early_state = Some (ev, s').
Proof.
  apply (X3_no_deadlock demo_engine early_trace early_state
           demo_fits run_early).
  intros H. unfold finished in H. rewrite Forall_forall in H.
  specialize (H (worker_at early_state 1) (or_intror (or_introl eq_refl))).
  discriminate.
Defined.

(** * The number of steps of a run *)

Lemma steps_left_enter_read E t th :
  t <= num_threads E ->
  steps_left E (pc (enter_read E t th)) = num_threads E + 1 - t.
Proof.
  intros Ht. unfold enter_read.
  destruct (t <? num_threads E) eqn:Hlt; simpl; [lia|].
  apply Nat.ltb_ge in Hlt. lia.
Qed.

Lemma steps_left_enter_write E i th :
  0 < num_threads E -> i <= num_threads E ->
  steps_left E (pc (enter_write E i th)) = 2 * num_threads E + 1 - i.
Proof.
  intros HW Hi. unfold enter_write.
  destruct (i <? num_threads E) eqn:Hlt; simpl; [lia|].
  apply Nat.ltb_ge in Hlt.
  rewrite (steps_left_enter_read E 0 th) by lia. lia.
Qed.

(** Every step takes exactly one unit off [remaining]. *)
Lemma step_remaining E tr s w ev s' :
  index_fits E -> inv E tr s ->
  step_thread E w s = Some (ev, s') ->
  remaining E s = S (remaining E s').
Proof.
  intros Hfit Hinv Hstep. unfold step_thread in Hstep.
  destruct (nth_error (workers s) w) as [th|] eqn:Hth; [|discriminate].
  destruct (worker_lookup E tr s w th Hinv Hth) as (Hw & Hat & Hpcat).
  pose proof (inv_workers _ _ _ Hinv) as Hlen.
  pose proof (wi_pc _ _ _ _ (inv_each _ _ _ Hinv w Hw)) as Hpcr.
  assert (Hsum : forall th' g m,
    remaining E (mkState g m (set_nth w th' (workers s)))
    + steps_left E (pc th)
    = (length (files_to_sweep E) + num_threads E - Z.to_nat g)
      + list_sum (map (fun th => steps_left E (pc th)) (workers s))
      + steps_left E (pc th')).
  { intros th' g m. unfold remaining. cbn [global_index workers].
    pose proof (list_sum_set_nth (fun th => steps_left E (pc th)) w th'
                  (workers s) fresh_worker ltac:(lia)) as H.
    cbv beta in H. fold (worker_at s w) in H. rewrite Hat in H. lia. }
  unfold remaining at 1. rewrite Hpcat in *.
  destruct (pc th) eqn:Hpc.
  - destruct (claim_shared E tr s w Hfit Hinv Hw Hpcat) as (S1 & _ & _ & S4 & _).
    rewrite claims_snoc, length_app in S1, S4. cbn [length] in S1, S4.
    rewrite filter_app, length_app in S4.
    pose proof (failed_claims_bound E tr s w Hinv Hw Hpcat) as Hfb.
    pose proof (inv_index _ _ _ Hinv) as HG.
    pose proof (inv_bound _ _ _ Hinv) as HB.
    destruct (global_index s <? Z.of_nat (length (files_to_sweep E)))%Z eqn:Hlt;
      injection Hstep as <- <-; unfold set_worker;
      cbn [global_index shuffle_matrix workers];
      match goal with
      | |- _ = S (remaining E (mkState ?g ?m (set_nth w ?t _))) =>
          pose proof (Hsum t g m) as Hs
      end; rewrite S1 in *.
    + apply Z.ltb_lt in Hlt. cbn [pc steps_left] in Hs. lia.
    + rewrite steps_left_enter_write in Hs by lia.
      cbn [steps_left] in Hs. lia.
  - destruct (inv_write E tr s w th i Hinv Hth Hpc) as (Hsl & Hb & _).
    rewrite Hsl, Hb in Hstep. injection Hstep as <- <-.
    unfold set_worker. cbn [global_index shuffle_matrix workers].
    match goal with
    | |- _ = S (remaining E (mkState ?g ?m (set_nth w ?t _))) =>
        pose proof (Hsum t g m) as Hs
    end.
    rewrite steps_left_enter_write in Hs by lia.
    cbn [steps_left] in Hs. lia.
  - destruct (inv_read E tr s w th t Hinv Hth Hpc) as ([Hsl|Hsl] & _);
      rewrite Hsl in Hstep; [discriminate|]. injection Hstep as <- <-.
    unfold set_worker.
    match goal with
    | |- _ = S (remaining E (mkState ?g ?m (set_nth w ?t _))) =>
        pose proof (Hsum t g m) as Hs
    end.
    rewrite steps_left_enter_read in Hs by lia.
    cbn [steps_left] in Hs. lia.
  - injection Hstep as <- <-. unfold set_worker.
    match goal with
    | |- _ = S (remaining E (mkState ?g ?m (set_nth w ?t _))) =>
        pose proof (Hsum t g m) as Hs
    end.
    cbn [steps_left set_pc pc] in Hs. lia.
  - discriminate.
  - discriminate.
Qed.

Lemma run_remaining E tr s :
  index_fits E -> run E tr s ->
  length tr + remaining E s = remaining E (init E).
Proof.
  intros Hfit Hrun. unfold run in Hrun.
  remember (init E) as s0 eqn:H0.
  induction Hrun as [s|s tr s1 w ev s2 Hex IH Hstep]; [reflexivity|].
  specialize (IH H0). subst s.
  pose proof (run_inv E tr s1 Hfit Hex) as Hinv.
  pose proof (step_remaining E tr s1 w ev s2 Hfit Hinv Hstep).
  rewrite last_length. lia.
Qed.

Lemma list_sum_repeat n v : list_sum (repeat v n) = n * v.
Proof. induction n as [|n IH]; simpl; lia. Qed.

Lemma remaining_init E :
  remaining E (init E)
  = length (files_to_sweep E) + num_threads E
    + num_threads E * (2 * num_threads E + 1).
Proof.
  unfold remaining, init. cbn [global_index workers].
  rewrite map_repeat, list_sum_repeat. cbn [pc fresh_worker steps_left]. lia.
Qed.

(** The failing fetches of a history: one for each worker that has left
    the map loop. *)
Lemma failed_lower E tr s :
  inv E tr s -> finished s ->
  num_threads E
  <= length (filter (fun c => negb (in_range E c)) (claims tr)).
Proof.
  intros Hinv Hfin.
  rewrite <- (length_map fst
                (filter (fun c => negb (in_range E c)) (claims tr))).
  replace (num_threads E) with (length (seq 0 (num_threads E))) at 1
    by apply length_seq.
  apply NoDup_incl_length; [apply seq_NoDup|].
  intros w Hw. apply in_seq in Hw.
  destruct (wi_left _ _ _ _ (inv_each _ _ _ Hinv w ltac:(lia)))
    as (c & Hc & Hfst & Hr).
  { rewrite (finished_pc E tr s w Hinv Hfin) by lia. discriminate. }
  apply in_map_iff. exists c. split; [exact Hfst|].
  apply filter_In. split; [exact Hc|]. now rewrite Hr.
Qed.

Lemma failed_upper E tr s :
  inv E tr s ->
  length (filter (fun c => negb (in_range E c)) (claims tr))
  <= num_threads E.
Proof.
  intros Hinv.
  rewrite <- (length_map fst
                (filter (fun c => negb (in_range E c)) (claims tr))).
  replace (num_threads E) with (length (seq 0 (num_threads E))) at 1
    by apply length_seq.
  apply NoDup_incl_length; [apply (inv_failed _ _ _ Hinv)|].
  intros w Hw. apply in_map_iff in Hw as (c & <- & Hc).
  apply filter_In in Hc as [Hc _]. apply in_seq.
  pose proof (inv_claimers _ _ _ Hinv c Hc). lia.
Qed.

Lemma filter_failed_seq L G :
  length (filter (fun z => negb (z <? Z.of_nat L)%Z)
            (map Z.of_nat (seq 0 G))) = G - L.
Proof.
  induction G as [|G IH]; [reflexivity|].
  rewrite seq_S, map_app, filter_app, length_app, IH, Nat.add_0_l.
  cbn [map filter].
  destruct (Z.of_nat G <? Z.of_nat L)%Z eqn:H; cbn [negb length].
  - apply Z.ltb_lt in H. lia.
  - apply Z.ltb_ge in H. lia.
Qed.

Lemma failed_count E tr s :
  inv E tr s ->
  length (filter (fun c => negb (in_range E c)) (claims tr))
  = length (claims tr) - length (files_to_sweep E).
Proof.
  intros Hinv.
  rewrite <- (filter_failed_seq (length (files_to_sweep E))
                (length (claims tr))).
  rewrite <- (inv_claims _ _ _ Hinv).
  rewrite <- (length_map snd
                (filter (fun c => negb (in_range E c)) (claims tr))).
  f_equal. induction (claims tr) as [|c cl IH]; [reflexivity|].
  simpl. unfold in_range at 1.
  destruct (snd c <? Z.of_nat (length (files_to_sweep E)))%Z; simpl;
    now rewrite IH.
Qed.

(** The cursor never passes [files + workers], and stands there when
    all the workers have returned. *)
Lemma cursor_bound E tr s :
  inv E tr s ->
  length (claims tr) <= length (files_to_sweep E) + num_threads E.
Proof.
  intros Hinv. pose proof (failed_upper E tr s Hinv).
  pose proof (failed_count E tr s Hinv). lia.
Qed.

Lemma finished_cursor E tr s :
  inv E tr s -> finished s -> 0 < num_threads E ->
  length (claims tr) = length (files_to_sweep E) + num_threads E.
Proof.
  intros Hinv Hfin HW.
  pose proof (failed_upper E tr s Hinv).
  pose proof (failed_lower E tr s Hinv Hfin).
  pose proof (failed_count E tr s Hinv).
  pose proof (finished_all_claimed E tr s Hinv Hfin HW). lia.
Qed.

(** X4: the length of a run. Every step of a worker takes exactly one
    unit off [remaining]; so a run of [k] steps started with
    [files + workers + workers * (2 * workers + 1)] units has that many
    less, every run is finite, and every complete run with at least one
    worker has the same length whatever the interleaving:
    [files + workers] fetches, [workers ^ 2] writes, [workers ^ 2] reads
    and [workers] prints. *)
Theorem X4_run_length (E : engine) (tr : list event) (s : state) :
  index_fits E -> run E tr s ->
  length tr + remaining E s
  = length (files_to_sweep E) + num_threads E
    + num_threads E * (2 * num_threads E + 1)
  /\ (finished s -> 1 <= num_threads E ->
      length tr
      = length (files_to_sweep E) + 2 * num_threads E
        + 2 * (num_threads E * num_threads E)).
Proof.
  intros Hfit Hrun. pose proof (run_remaining E tr s Hfit Hrun) as Hrem.
  rewrite remaining_init in Hrem. split; [exact Hrem|].
  intros Hfin HW. pose proof (run_inv E tr s Hfit Hrun) as Hinv.
  assert (H0 : remaining E s = 0).
  { unfold remaining.
    rewrite (inv_index _ _ _ Hinv), Nat2Z.id,
      (finished_cursor E tr s Hinv Hfin HW).
    replace (list_sum _) with 0; [lia|].
    symmetry. unfold finished in Hfin.
    induction Hfin as [|th ws Hth _ IH]; [reflexivity|].
    simpl. now rewrite Hth, IH. }
  lia.
Qed.

Lemma X4_witness : length demo_trace = 2 + 2 * 2 + 2 * (2 * 2).
Proof.
  exact (proj2 (X4_run_length demo_engine demo_trace demo_state
                  demo_fits run_demo) demo_finished (le_S 1 1 (le_n 1))).
Defined.

Lemma NoDup_fst_unique {A B} (l : list (A * B)) a x y :
  NoDup (map fst l) -> In (a, x) l -> In (a, y) l -> x = y.
Proof.
  induction l as [|[a' z] l IH]; simpl; [easy|].
  intros Hnd [H1|H1] [H2|H2]; inversion Hnd as [|? ? Hni Hnd']; subst.
  - congruence.
  - injection H1 as -> ->. exfalso. apply Hni.
    apply in_map_iff. now exists (a, y).
  - injection H2 as -> ->. exfalso. apply Hni.
    apply in_map_iff. now exists (a, x).
  - now apply IH.
Qed.

(** X5: the final value of the cursor. The cursor counts the fetches and
    never passes [files + workers]; when all the workers of an engine
    with at least one worker have returned it is exactly
    [files + workers]: every worker made exactly one fetch that came
    back out of range, the one that ended its map loop. *)
Theorem X5_cursor_final (E : engine) (tr : list event) (s : state) :
  index_fits E -> run E tr s ->
  global_index s = Z.of_nat (length (claims tr))
  /\ (global_index s
      <= Z.of_nat (length (files_to_sweep E) + num_threads E))%Z
  /\ (finished s -> 1 <= num_threads E ->
      global_index s
      = Z.of_nat (length (files_to_sweep E) + num_threads E)
      /\ forall w, w < num_threads E ->
           exists idx,
             In (Claim w idx) tr
             /\ (Z.of_nat (length (files_to_sweep E)) <= idx)%Z
             /\ forall idx',
                  In (Claim w idx') tr ->
                  (Z.of_nat (length (files_to_sweep E)) <= idx')%Z ->
                  idx' = idx).
Proof.
  intros Hfit Hrun. pose proof (run_inv E tr s Hfit Hrun) as Hinv.
  pose proof (inv_index _ _ _ Hinv) as HG.
  split; [exact HG|]. split.
  { rewrite HG. apply Nat2Z.inj_le. now apply (cursor_bound E tr s). }
  intros Hfin HW. split.
  { rewrite HG. f_equal. now apply (finished_cursor E tr s). }
  intros w Hw.
  destruct (wi_left _ _ _ _ (inv_each _ _ _ Hinv w Hw))
    as ([w' idx] & Hc & Hfst & Hr).
  { rewrite (finished_pc E tr s w Hinv Hfin Hw). discriminate. }
  simpl in Hfst. subst w'. exists idx.
  unfold in_range in Hr. simpl in Hr. apply Z.ltb_ge in Hr.
  split; [now apply in_claims|]. split; [exact Hr|].
  intros idx' Hin' Hr'. apply in_claims in Hin'.
  apply (NoDup_fst_unique
           (filter (fun c => negb (in_range E c)) (claims tr)) w idx' idx
           (inv_failed _ _ _ Hinv));
    apply filter_In; (split; [assumption|]);
    unfold in_range; simpl; apply negb_true_iff, Z.ltb_ge; assumption.
Qed.

Lemma X5_witness : global_index demo_state = 4%Z.
Proof.
  exact (proj1 (proj2 (proj2 (X5_cursor_final demo_engine demo_trace
                                demo_state demo_fits run_demo))
                  demo_finished (le_S 1 1 (le_n 1)))).
Defined.

(** * What is printed *)

(** X6: the output does not depend on the interleaving. In every complete
    run worker [w] ends with the entries of the single-threaded table
    (one loop over the files into one table) whose keys hash to [w], and
    prints exactly one block: the report of the five slots that
    [std::partial_sort_copy], as the C++ library computes it, fills from
    these entries, the choice and the order among tied counts included.
    Two complete runs differ at most in the order of the blocks. *)
Theorem X6_output_determined (E : engine) (tr : list event) (s : state)
    (w : nat) :
  index_fits E -> run E tr s -> finished s -> w < num_threads E ->
  reduced_freq (worker_at s w) = bucket E w (sequential_table E)
  /\ In (Print w (report w (select_top_five
                              (bucket E w (sequential_table E))))) tr
  /\ (forall b, In (Print w b) tr ->
        b = report w (select_top_five (bucket E w (sequential_table E)))).
Proof.
  intros Hfit Hrun Hfin Hw. pose proof (run_inv E tr s Hfit Hrun) as Hinv.
  pose proof (inv_each _ _ _ Hinv w Hw) as Hwi.
  pose proof (finished_pc E tr s w Hinv Hfin Hw) as Hpc.
  assert (Hred : reduced_freq (worker_at s w)
                 = bucket E w (sequential_table E)).
  { unfold sequential_table. rewrite sequential_count.
    now apply (final_reduced E tr s w). }
  assert (Htop : top_five (worker_at s w)
                 = select_top_five (bucket E w (sequential_table E))).
  { rewrite <- Hred. apply (wi_top _ _ _ _ Hwi). now right. }
  split; [exact Hred|]. rewrite <- Htop. split.
  - apply (wi_print_tr _ _ _ _ Hwi). now split.
  - intros b Hb. now apply (wi_print_tr _ _ _ _ Hwi) in Hb.
Qed.

Lemma X6_witness :
  In (Print 0 [s_ "Thread 0:"; s_ "       f: 2"; s_ "       b: 1";
               s_ "       d: 1"; s_ "       e: 1"; s_ "       a: 1"])
    spill_trace
  /\ reduced_freq (worker_at demo_state 1)
     = bucket demo_engine 1 (sequential_table demo_engine).
Proof.
  split.
  - exact (proj1 (proj2 (X6_output_determined spill_engine spill_trace
                           spill_state 0 eq_refl run_spill
                           ltac:(repeat constructor) (le_n 1)))).
  - exact (proj1 (X6_output_determined demo_engine demo_trace demo_state 1
                    demo_fits run_demo demo_finished (le_n 2))).
Defined.

(** * Every file is read once *)

Lemma count_occ_sum (l : list nat) i :
  count_occ Nat.eq_dec l i
  = list_sum (map (fun j => if i =? j then 1 else 0) l).
Proof.
  induction l as [|j l IH]; [reflexivity|]. cbn [count_occ map list_sum].
  destruct (Nat.eq_dec j i) as [->|Hne].
  - rewrite Nat.eqb_refl, IH. reflexivity.
  - replace (i =? j) with false; [exact IH|].
    symmetry. apply Nat.eqb_neq. congruence.
Qed.

Lemma list_sum_flat_map {A} (h : nat -> nat) (F : A -> list nat) ws :
  list_sum (map h (flat_map F ws))
  = list_sum (map (fun w => list_sum (map h (F w))) ws).
Proof.
  induction ws as [|w ws IH]; [reflexivity|].
  cbn [flat_map map list_sum]. now rewrite map_app, list_sum_app, IH.
Qed.

Lemma claimed_perm E tr s :
  inv E tr s ->
  Permutation
    (flat_map (fun w => claimed_by E w tr) (seq 0 (num_threads E)))
    (seq 0 (Nat.min (length (claims tr)) (length (files_to_sweep E)))).
Proof.
  intros Hinv. apply (Permutation_count_occ Nat.eq_dec). intros i.
  rewrite !count_occ_sum, list_sum_flat_map.
  apply (claimed_sum E tr s _ Hinv).
Qed.

Lemma fold_flat_map {A B C} (f : A -> C -> A) (g : B -> list C) l :
  forall a,
    fold_left f (flat_map g l) a
    = fold_left (fun a x => fold_left f (g x) a) l a.
Proof.
  induction l as [|x l IH]; intros a; [reflexivity|].
  cbn [flat_map fold_left]. now rewrite fold_left_app, IH.
Qed.

(** X7: the cursor deals the files out. At any moment of a run the
    table of a worker is the result of [process_file] on the files it
    has fetched, in the order of the fetches, and the files fetched by
    all the workers together are the first files of the list, each
    fetched once. When all the workers (at least one) have returned,
    every file of the list has been processed exactly once, by exactly
    one worker. *)
Theorem X7_files_once (E : engine) (tr : list event) (s : state) :
  index_fits E -> run E tr s ->
  (forall w, w < num_threads E ->
     local_freq (worker_at s w)
     = fold_left (fun m i => process_file (ngram E) (file_at E i) m)
         (claimed_by E w tr) [])
  /\ Permutation
       (flat_map (fun w => claimed_by E w tr) (seq 0 (num_threads E)))
       (seq 0 (Nat.min (length (claims tr)) (length (files_to_sweep E))))
  /\ (finished s -> 1 <= num_threads E ->
      Permutation
        (flat_map (fun w => claimed_by E w tr) (seq 0 (num_threads E)))
        (seq 0 (length (files_to_sweep E)))).
Proof.
  intros Hfit Hrun. pose proof (run_inv E tr s Hfit Hrun) as Hinv.
  split; [|split].
  - intros w Hw. rewrite (wi_local _ _ _ _ (inv_each _ _ _ Hinv w Hw)).
    unfold count_table, emitted_by. rewrite fold_flat_map.
    apply fold_left_ext_in. intros i _ m.
    now rewrite process_file_ngrams.
  - now apply (claimed_perm E tr s).
  - intros Hfin HW. pose proof (claimed_perm E tr s Hinv) as HP.
    rewrite (finished_cursor E tr s Hinv Hfin HW) in HP.
    now rewrite Nat.min_r in HP by lia.
Qed.

Lemma X7_witness :
  Permutation
    (flat_map (fun w => claimed_by demo_engine w demo_trace) (seq 0 2))
    (seq 0 2).
Proof.
  exact (proj2 (proj2 (X7_files_once demo_engine demo_trace demo_state
                         demo_fits run_demo))
           demo_finished (le_S 1 1 (le_n 1))).
Defined.

(** * The order of a worker's steps *)

(** X8: a worker's steps follow the text of [sweep]. Before a fetch the
    worker has set no promise; when it sets the promise of row [i] it
    has set exactly the rows below [i] and read nothing; when it reads
    the future of producer [t] it has read exactly the producers below
    [t]; when it prints it has read all its futures, and it does nothing
    afterwards. No step is an exception. *)
Theorem X8_program_order (E : engine) (tr : list event) (s : state)
    (tr1 : list event) (ev : event) (tr2 : list event) :
  index_fits E -> run E tr s -> tr = tr1 ++ ev :: tr2 ->
  match ev with
  | Claim w _ => forall i, ~ In (Write w i) tr1
  | Write w i =>
      (forall i', In (Write w i') tr1 <-> i' < i)
      /\ (forall t, ~ In (Read w t) tr1)
  | Read w t => forall t', In (Read w t') tr1 <-> t' < t
  | Print w _ =>
      (forall t, t < num_threads E -> In (Read w t) tr1)
      /\ (forall ev', In ev' tr2 -> event_worker ev' <> w)
  | Abort _ => False
  end.
Proof.
  intros Hfit Hrun Htr.
  destruct (exec_split E _ _ _ Hrun _ _ _ Htr)
    as (s1 & s2 & w0 & Hex1 & Hstep & _).
  pose proof (run_inv E _ s1 Hfit Hex1) as Hinv1.
  destruct (step_event E w0 s1 _ s2 Hstep) as (Hlt & Hw0 & Hcase).
  rewrite (inv_workers _ _ _ Hinv1) in Hlt.
  pose proof (inv_each _ _ _ Hinv1 w0 Hlt) as Hwi.
  destruct ev as [w idx|w i|w t|w b|w]; simpl in Hw0; subst w0.
  - destruct Hcase as [Hpc _]. intros i Hin.
    apply (wi_writes_tr _ _ _ _ Hwi) in Hin. rewrite Hpc in Hin.
    simpl in Hin. lia.
  - split.
    + intros i'. rewrite (wi_writes_tr _ _ _ _ Hwi i'), Hcase. reflexivity.
    + intros t Hin. apply (wi_reads_tr _ _ _ _ Hwi) in Hin.
      rewrite Hcase in Hin. simpl in Hin. lia.
  - destruct Hcase as [Hpc _]. intros t'.
    rewrite (wi_reads_tr _ _ _ _ Hwi t'), Hpc. reflexivity.
  - destruct Hcase as [Hpc _]. split.
    + intros t Ht. apply (wi_reads_tr _ _ _ _ Hwi). now rewrite Hpc.
    + intros ev' Hin Hev'.
      apply in_split in Hin as (tr2a & tr2b & ->).
      replace (tr1 ++ Print w b :: tr2a ++ ev' :: tr2b)
        with ((tr1 ++ Print w b :: tr2a) ++ ev' :: tr2b) in Htr
        by now rewrite <- app_assoc.
      destruct (exec_split E _ _ _ Hrun _ _ _ Htr)
        as (s3 & s4 & w3 & Hex3 & Hstep3 & _).
      pose proof (run_inv E _ s3 Hfit Hex3) as Hinv3.
      destruct (step_event E w3 s3 _ s4 Hstep3) as (_ & Hw3 & Hcase3).
      rewrite Hev' in Hw3. subst w3.
      assert (Hdone : pc_at s3 w = PDone).
      { apply (wi_print_tr _ _ _ _ (inv_each _ _ _ Hinv3 w Hlt) b).
        apply in_app_iff. right. now left. }
      destruct ev' as [w' idx|w' i|w' t|w' b'|w'];
        [destruct Hcase3 as [Hpc3 _]; congruence
        |congruence
        |destruct Hcase3 as [Hpc3 _]; congruence
        |destruct Hcase3 as [Hpc3 _]; congruence
        |].
      apply (step_no_abort E _ s3 w _ s4 Hfit Hinv3 Hstep3 w'). reflexivity.
  - apply (step_no_abort E _ s1 w _ s2 Hfit Hinv1 Hstep w). reflexivity.
Qed.

Lemma X8_witness :
  (forall t, t < 2 ->
     In (Read 0 t)
       [Claim 0 0%Z; Claim 1 1%Z; Claim 0 2%Z; Write 0 0; Write 0 1;
        Claim 1 3%Z; Write 1 0; Write 1 1; Read 0 0; Read 0 1])
  /\ (forall ev',
        In ev'
          [Read 1 0; Read 1 1;
           Print 1 (report 1 (top_five (worker_at demo_state 1)))] ->
        event_worker ev' <> 0).
Proof.
  exact (X8_program_order demo_engine demo_trace demo_state
           [Claim 0 0%Z; Claim 1 1%Z; Claim 0 2%Z; Write 0 0; Write 0 1;
            Claim 1 3%Z; Write 1 0; Write 1 1; Read 0 0; Read 0 1]
           (Print 0 (report 0 (top_five (worker_at demo_state 0))))
           [Read 1 0; Read 1 1;
            Print 1 (report 1 (top_five (worker_at demo_state 1)))]
           demo_fits run_demo eq_refl).
Defined.

(** * The partition of a local table *)

Lemma shuffle_assign_length E m :
  0 < num_threads E -> length (shuffle_assign E m) = num_threads E.
Proof.
  intros HW. unfold shuffle_assign.
  apply (shuffle_assign_fold E m 0 HW (repeat [] (num_threads E))).
  apply repeat_length.
Qed.

Lemma shuffle_assign_buckets E m :
  0 < num_threads E ->
  shuffle_assign E m = map (fun j => bucket E j m) (seq 0 (num_threads E)).
Proof.
  intros HW. apply (nth_ext _ _ [] []).
  - now rewrite length_map, length_seq, shuffle_assign_length.
  - intros j Hj. rewrite shuffle_assign_length in Hj by exact HW.
    rewrite (nth_error_nth _ j [] (shuffle_assign_nth E m j Hj)).
    symmetry. apply nth_error_nth.
    apply (map_nth_error (fun j => bucket E j m) j).
    rewrite nth_error_nth' with (d := 0) by now rewrite length_seq.
    now rewrite seq_nth.
Qed.

Lemma filter_disjoint_perm {A} (p q : A -> bool) m :
  (forall x, p x = true -> q x = false) ->
  Permutation (filter p m ++ filter q m) (filter (fun x => p x || q x) m).
Proof.
  intros Hd. induction m as [|x m IH]; [constructor|]. cbn [filter].
  destruct (p x) eqn:Hp; cbn [orb].
  - rewrite (Hd x Hp). cbn [app]. now constructor.
  - destruct (q x); [|exact IH].
    etransitivity; [symmetry; apply Permutation_middle|]. now constructor.
Qed.

Lemma buckets_perm {A} (f : A -> nat) m js :
  NoDup js ->
  Permutation
    (concat (map (fun j => filter (fun e => f e =? j) m) js))
    (filter (fun e => existsb (Nat.eqb (f e)) js) m).
Proof.
  induction 1 as [|j js Hni Hnd IH]; cbn [map concat existsb].
  - induction m as [|x m IHm]; [constructor|exact IHm].
  - etransitivity; [apply Permutation_app_head, IH|].
    apply filter_disjoint_perm.
    intros x Hx. apply Nat.eqb_eq in Hx. subst j.
    destruct (existsb (Nat.eqb (f x)) js) eqn:Hex; [|reflexivity].
    apply existsb_exists in Hex as (j & Hj & Heq).
    apply Nat.eqb_eq in Heq. now subst j.
Qed.

Lemma filter_all {A} (p : A -> bool) m :
  (forall x, p x = true) -> filter p m = m.
Proof.
  intros H. induction m as [|x m IH]; [reflexivity|].
  cbn [filter]. now rewrite H, IH.
Qed.

Lemma buckets_concat_perm E m :
  0 < num_threads E ->
  Permutation
    (concat (map (fun j => bucket E j m) (seq 0 (num_threads E)))) m.
Proof.
  intros HW. unfold bucket. etransitivity.
  - apply (buckets_perm (fun e => assigned_thread E (fst e)) m
             (seq 0 (num_threads E))). apply seq_NoDup.
  - rewrite filter_all; [reflexivity|].
    intros e. apply existsb_exists.
    exists (assigned_thread E (fst e)). split; [|apply Nat.eqb_refl].
    apply in_seq. pose proof (assigned_thread_lt E (fst e) HW). lia.
Qed.

(** X9: the partition of a local table loses and duplicates nothing.
    With at least one worker, [assignment_matrix] has one vector per
    worker; the vector of worker [j] holds the entries of the table whose
    key hashes to [j], in key order; and the vectors together hold every
    entry of the table exactly once. *)
Theorem X9_partition_lossless (E : engine) (m : list (list ascii * Z)) :
  1 <= num_threads E ->
  length (shuffle_assign E m) = num_threads E
  /\ shuffle_assign E m
     = map (fun j => filter (fun e => assigned_thread E (fst e) =? j) m)
         (seq 0 (num_threads E))
  /\ Permutation (concat (shuffle_assign E m)) m.
Proof.
  intros HW. split; [now apply shuffle_assign_length|].
  split; [now apply shuffle_assign_buckets|].
  rewrite shuffle_assign_buckets by exact HW.
  now apply buckets_concat_perm.
Qed.

Lemma X9_witness :
  Permutation
    (concat (shuffle_assign demo_engine
               [(s_ "a b", 3%Z); (s_ "b a", 1%Z)]))
    [(s_ "a b", 3%Z); (s_ "b a", 1%Z)].
Proof.
  exact (proj2 (proj2 (X9_partition_lossless demo_engine
                         [(s_ "a b", 3%Z); (s_ "b a", 1%Z)]
                         (le_S 1 1 (le_n 1))))).
Defined.

(** * The two matrices *)

Lemma push_back_loop {A B} (x : A) (l : list B) :
  forall acc,
    fold_left (fun vec _ => vec ++ [x]) l acc = acc ++ repeat x (length l).
Proof.
  induction l as [|y l IH]; intros acc; cbn [fold_left length repeat].
  - now rewrite app_nil_r.
  - rewrite IH, <- app_assoc. reflexivity.
Qed.

Lemma promise_row_repeat n : promise_row n = repeat None n.
Proof.
  unfold promise_row. now rewrite push_back_loop, length_seq.
Qed.

Lemma build_shuffle_matrix_repeat n :
  build_shuffle_matrix n = repeat (repeat None n) n.
Proof.
  unfold build_shuffle_matrix.
  now rewrite push_back_loop, length_seq, promise_row_repeat.
Qed.

Lemma nth_error_repeat_lt {A} (x : A) n i :
  nth_error (repeat x n) i = if i <? n then Some x else None.
Proof.
  revert i. induction n as [|n IH]; intros [|i]; try reflexivity.
  cbn [repeat nth_error]. rewrite IH. reflexivity.
Qed.

Lemma at2_build n i j :
  at2 (build_shuffle_matrix n) i j
  = if (i <? n) && (j <? n) then Some None else None.
Proof.
  unfold at2. rewrite build_shuffle_matrix_repeat, nth_error_repeat_lt.
  destruct (i <? n); [|reflexivity]. now rewrite nth_error_repeat_lt.
Qed.

Lemma future_row_loop {A} (m : list (list A)) i l :
  (forall j, In j l -> at2 m i j <> None) ->
  forall acc,
    fold_left (fun acc prom_id =>
       match acc, at2 m i prom_id with
       | Some vec, Some _ => Some (vec ++ [(i, prom_id)])
       | _, _ => None
       end) l (Some acc)
    = Some (acc ++ map (pair i) l).
Proof.
  induction l as [|j l IH]; intros H acc; cbn [fold_left map].
  - now rewrite app_nil_r.
  - destruct (at2 m i j) eqn:Hj; [|now destruct (H j (or_introl eq_refl))].
    rewrite IH by (intros j' Hj'; apply H; now right).
    now rewrite <- app_assoc.
Qed.

Lemma future_row_some (m : list (list promise)) n i :
  (forall j, j < n -> at2 m i j <> None) ->
  future_row m n i = Some (map (pair i) (seq 0 n)).
Proof.
  intros H. unfold future_row. rewrite future_row_loop; [reflexivity|].
  intros j Hj. apply in_seq in Hj. apply H. lia.
Qed.

Lemma future_matrix_loop (m : list (list promise)) n l :
  (forall i j, In i l -> j < n -> at2 m i j <> None) ->
  forall acc,
    fold_left (fun acc i =>
       match acc, future_row m n i with
       | Some rows, Some vec => Some (rows ++ [vec])
       | _, _ => None
       end) l (Some acc)
    = Some (acc ++ map (fun i => map (pair i) (seq 0 n)) l).
Proof.
  induction l as [|i l IH]; intros H acc; cbn [fold_left map].
  - now rewrite app_nil_r.
  - rewrite (future_row_some m n i)
      by (intros j Hj; apply H; [now left|exact Hj]).
    rewrite IH by (intros i' j Hi' Hj; apply H; [now right|easy]).
    now rewrite <- app_assoc.
Qed.

(** X10: the matrices built by [compute]. The two nested loops build a
    square matrix of [num_threads] rows of [num_threads] promises without
    a value, the one the workers start from; [at(i).at(j)] succeeds on it
    exactly when both indices are below [num_threads]; so the loops that
    build the matrix of futures never leave the matrix, and the future at
    position [(i, prom_id)] is the one of the promise at the same
    position, each promise giving its future once. *)
Theorem X10_matrices (E : engine) :
  build_shuffle_matrix (num_threads E) = shuffle_matrix (init E)
  /\ (forall i j,
        at2 (build_shuffle_matrix (num_threads E)) i j
        = if (i <? num_threads E) && (j <? num_threads E)
          then Some None else None)
  /\ build_future_matrix (build_shuffle_matrix (num_threads E))
       (num_threads E)
     = Some (map (fun i => map (pair i) (seq 0 (num_threads E)))
               (seq 0 (num_threads E))).
Proof.
  split; [apply build_shuffle_matrix_repeat|].
  split; [intros i j; apply at2_build|].
  unfold build_future_matrix. rewrite future_matrix_loop; [reflexivity|].
  intros i j Hi Hj. apply in_seq in Hi. rewrite at2_build.
  replace (i <? num_threads E) with true
    by (symmetry; apply Nat.ltb_lt; lia).
  replace (j <? num_threads E) with true
    by (symmetry; now apply Nat.ltb_lt).
  discriminate.
Qed.

(** * Degenerate parameters *)

Lemma file_ngrams_zero c : file_ngrams 0 c = [].
Proof.
  unfold file_ngrams.
  induction (regex_split (normalize c)) as [|seg segs IH]; [reflexivity|].
  cbn [flat_map]. rewrite IH.
  destruct seg; [reflexivity|]. now rewrite sequence_ngrams_zero.
Qed.

Lemma emitted_zero E w tr : ngram E = 0 -> emitted_by E w tr = [].
Proof.
  intros Hn. unfold emitted_by. rewrite Hn.
  induction (claimed_by E w tr) as [|i l IH]; [reflexivity|].
  cbn [flat_map]. now rewrite IH, file_ngrams_zero.
Qed.

Lemma reduced_of_nil E s w t :
  (forall t', local_freq (worker_at s t') = []) -> reduced_of E s w t = [].
Proof.
  intros H. unfold reduced_of.
  induction t as [|t IH]; [reflexivity|].
  now rewrite seq_S, fold_left_app, IH, Nat.add_0_l; cbn [fold_left];
    rewrite H.
Qed.

(** X11: an n-gram length of 0. [process_file] then leaves the table as
    it is, whatever the file holds: the counter [n] starts at 1 and is
    never equal to [ngram]. In every run all the tables stay empty, and a
    block that is printed holds the header and five placeholder lines. *)
Theorem X11_ngram_zero (E : engine) (tr : list event) (s : state) :
  ngram E = 0 -> index_fits E -> run E tr s ->
  (forall c m, process_file (ngram E) c m = m)
  /\ (forall w, local_freq (worker_at s w) = []
                /\ reduced_freq (worker_at s w) = [])
  /\ (forall w b, In (Print w b) tr ->
        b = (s_ "Thread " ++ print_number (Z.of_nat w) ++ s_ ":")
              :: repeat placeholder_line 5).
Proof.
  intros Hn Hfit Hrun. pose proof (run_inv E tr s Hfit Hrun) as Hinv.
  assert (Hloc : forall w, local_freq (worker_at s w) = []).
  { intros w. destruct (Nat.lt_ge_cases w (num_threads E)) as [Hw|Hw].
    - rewrite (wi_local _ _ _ _ (inv_each _ _ _ Hinv w Hw)).
      now rewrite emitted_zero.
    - unfold worker_at. rewrite nth_overflow; [reflexivity|].
      now rewrite (inv_workers _ _ _ Hinv). }
  assert (Hred : forall w, reduced_freq (worker_at s w) = []).
  { intros w. destruct (Nat.lt_ge_cases w (num_threads E)) as [Hw|Hw].
    - rewrite (wi_reduced _ _ _ _ (inv_each _ _ _ Hinv w Hw)).
      now apply reduced_of_nil.
    - unfold worker_at. rewrite nth_overflow; [reflexivity|].
      now rewrite (inv_workers _ _ _ Hinv). }
  split; [|split].
  - intros c m. rewrite process_file_ngrams, Hn, file_ngrams_zero.
    reflexivity.
  - intros w. split; [apply Hloc|apply Hred].
  - intros w b Hb.
    destruct (Nat.lt_ge_cases w (num_threads E)) as [Hw|Hw].
    + pose proof (inv_each _ _ _ Hinv w Hw) as Hwi.
      apply (wi_print_tr _ _ _ _ Hwi) in Hb as [Hpc ->].
      rewrite (wi_top _ _ _ _ Hwi (or_intror Hpc)), Hred. reflexivity.
    + exfalso. apply in_split in Hb as (tr1 & tr2 & Htr).
      destruct (exec_split E _ _ _ Hrun _ _ _ Htr)
        as (s1 & s2 & w0 & Hex1 & Hstep & _).
      destruct (step_event E w0 s1 _ s2 Hstep) as (Hlt & Hw0 & _).
      rewrite (inv_workers _ _ _ (run_inv E _ s1 Hfit Hex1)) in Hlt.
      simpl in Hw0. lia.
Qed.

(** X12: no worker. With [num_threads = 0] no thread is started: the
    only run is the empty one, no file is fetched and nothing is
    printed, and all the threads (none) are joined at once. *)
Theorem X12_no_worker (E : engine) (tr : list event) (s : state) :
  num_threads E = 0 -> run E tr s ->
  tr = [] /\ s = init E /\ finished s /\ global_index s = 0%Z.
Proof.
  intros HW Hrun. unfold run in Hrun. remember (init E) as s0 eqn:H0.
  induction Hrun as [s|s tr s1 w ev s2 Hex IH Hstep].
  - subst s. repeat split. unfold finished, init. rewrite HW. constructor.
  - exfalso. destruct (IH H0) as (_ & -> & _). subst s.
    unfold step_thread, init in Hstep. cbn [workers] in Hstep.
    rewrite HW in Hstep. now destruct w.
Qed.

(** * Bytes the tokenizer cannot tell apart *)

Lemma alike_lower c1 c2 : alike c1 c2 -> is_lower c1 = is_lower c2.
Proof.
  intros [->|[H1 H2]]; [reflexivity|]. unfold is_separator in *.
  apply andb_true_iff in H1 as [H1 _], H2 as [H2 _].
  apply negb_true_iff in H1, H2. congruence.
Qed.

Lemma alike_break c1 c2 : alike c1 c2 -> is_break c1 = is_break c2.
Proof.
  intros [->|[H1 H2]]; [reflexivity|]. unfold is_separator in *.
  apply andb_true_iff in H1 as [_ H1], H2 as [_ H2].
  apply negb_true_iff in H1, H2. congruence.
Qed.

Lemma alike_lower_eq c1 c2 : alike c1 c2 -> is_lower c1 = true -> c1 = c2.
Proof.
  intros [->|[H1 _]] Hl; [reflexivity|]. unfold is_separator in H1.
  rewrite Hl in H1. discriminate.
Qed.

Lemma words_from_alike s1 s2 :
  Forall2 alike s1 s2 -> forall cur, words_from cur s1 = words_from cur s2.
Proof.
  induction 1 as [|c1 c2 s1 s2 Hc _ IH]; intros cur; [reflexivity|].
  cbn [words_from]. rewrite <- (alike_lower c1 c2 Hc).
  destruct (is_lower c1) eqn:Hl.
  - rewrite <- (alike_lower_eq c1 c2 Hc Hl). apply IH.
  - rewrite (IH []). reflexivity.
Qed.

Lemma split_tokens_alike s1 s2 :
  Forall2 alike s1 s2 ->
  forall cur1 cur2,
    Forall2 alike cur1 cur2 ->
    Forall2 (Forall2 alike) (split_tokens cur1 s1) (split_tokens cur2 s2).
Proof.
  induction 1 as [|c1 c2 s1 s2 Hc _ IH]; intros cur1 cur2 Hcur;
    cbn [split_tokens].
  - destruct Hcur as [|a1 a2 cur1 cur2 Ha Hcur]; [constructor|].
    apply Forall2_cons; [|constructor]. now apply Forall2_cons.
  - rewrite <- (alike_break c1 c2 Hc). destruct (is_break c1).
    + apply Forall2_cons; [exact Hcur|]. apply IH. constructor.
    + apply IH. apply Forall2_app; [exact Hcur|].
      apply Forall2_cons; [exact Hc|constructor].
Qed.

Lemma existsb_break_alike s1 s2 :
  Forall2 alike s1 s2 -> existsb is_break s1 = existsb is_break s2.
Proof.
  induction 1 as [|c1 c2 s1 s2 Hc _ IH]; [reflexivity|].
  cbn [existsb]. now rewrite (alike_break c1 c2 Hc), IH.
Qed.

Lemma regex_split_alike s1 s2 :
  Forall2 alike s1 s2 ->
  Forall2 (Forall2 alike) (regex_split s1) (regex_split s2).
Proof.
  intros H. unfold regex_split. rewrite <- (existsb_break_alike s1 s2 H).
  destruct (existsb is_break s1).
  - apply split_tokens_alike; [exact H|constructor].
  - apply Forall2_cons; [exact H|constructor].
Qed.

Lemma normalize_map s : normalize s = map normalize_char s.
Proof. unfold normalize. now rewrite !map_map. Qed.

Lemma file_ngrams_alike n c1 c2 :
  Forall2 same_class c1 c2 -> file_ngrams n c1 = file_ngrams n c2.
Proof.
  intros H. unfold file_ngrams.
  assert (Hn : Forall2 alike (normalize c1) (normalize c2)).
  { rewrite !normalize_map. induction H; constructor; assumption. }
  pose proof (regex_split_alike _ _ Hn) as Hs.
  induction Hs as [|q1 q2 l1 l2 Hq _ IH]; [reflexivity|].
  cbn [flat_map]. rewrite IH. f_equal.
  destruct Hq as [|a1 a2 q1 q2 Ha Hq]; [reflexivity|].
  unfold regex_words.
  now rewrite (words_from_alike (a1 :: q1) (a2 :: q2)
                 (Forall2_cons _ _ Ha Hq)).
Qed.

(** X13: what [process_file] cannot see. Two files of the same length
    whose bytes agree position by position up to the three transforms
    (the case of a letter; tab, newline or space; which punctuation mark
    or digit) and up to the choice of a byte that is neither a letter
    nor a break once transformed, give the same n-grams in the same
    order, and [process_file] does the same to any table. *)
Theorem X13_same_class_files (n : nat) (c1 c2 : list ascii) :
  Forall2 same_class c1 c2 ->
  file_ngrams n c1 = file_ngrams n c2
  /\ forall m, process_file n c1 m = process_file n c2 m.
Proof.
  intros H. pose proof (file_ngrams_alike n c1 c2 H) as Hf.
  split; [exact Hf|]. intros m. now rewrite !process_file_ngrams, Hf.
Qed.

Lemma X13_witness :
  file_ngrams 2 (s_ "Ab c" ++ ["009"%char] ++ s_ "d,E" ++ ["000"%char])
  = file_ngrams 2 (s_ "aB C" ++ ["010"%char] ++ s_ "D9e ").
Proof.
  apply (X13_same_class_files 2).
  repeat constructor;
    solve [left; reflexivity | right; split; reflexivity].
Defined.

(** * Counters do not wrap *)

Lemma sequence_ngrams_length n ws :
  length (sequence_ngrams n ws) <= length ws.
Proof.
  induction ws as [|w rest IH]; [reflexivity|]. cbn [sequence_ngrams].
  destruct (extend_ngram n 1 w rest) as [k g].
  rewrite length_app. destruct (k =? n); simpl; lia.
Qed.

Lemma words_from_length s :
  forall cur,
    length (words_from cur s)
    <= length s + match cur with [] => 0 | _ => 1 end.
Proof.
  induction s as [|c s IH]; intros cur; cbn [words_from].
  - destruct cur; simpl; lia.
  - destruct (is_lower c).
    + specialize (IH (cur ++ [c])). destruct cur; simpl in *; lia.
    + specialize (IH []). destruct cur; simpl in *; lia.
Qed.

Lemma token_ngrams_length n sequence :
  length (match sequence with
          | [] => []
          | _ => sequence_ngrams n (regex_words sequence)
          end) <= length sequence.
Proof.
  destruct sequence as [|c q]; [reflexivity|].
  etransitivity; [apply sequence_ngrams_length|].
  pose proof (words_from_length (c :: q) []) as H.
  unfold regex_words. cbn [length] in *. lia.
Qed.

Lemma split_tokens_ngrams_length n s :
  forall cur,
    length (flat_map
              (fun sequence =>
                 match sequence with
                 | [] => []
                 | _ => sequence_ngrams n (regex_words sequence)
                 end) (split_tokens cur s))
    <= length cur + length s.
Proof.
  induction s as [|c s IH]; intros cur; cbn [split_tokens].
  - destruct cur as [|a cur]; [simpl; lia|]. cbn [flat_map].
    rewrite app_nil_r. pose proof (token_ngrams_length n (a :: cur)).
    simpl in *. lia.
  - destruct (is_break c).
    + cbn [flat_map]. rewrite length_app.
      pose proof (token_ngrams_length n cur). specialize (IH []).
      simpl in *. lia.
    + specialize (IH (cur ++ [c])). rewrite length_app in IH.
      simpl in *. lia.
Qed.

Lemma file_ngrams_length n c : length (file_ngrams n c) <= length c.
Proof.
  unfold file_ngrams, regex_split.
  replace (length c) with (length (normalize c))
    by (rewrite normalize_map; apply length_map).
  destruct (existsb is_break (normalize c)).
  - apply (split_tokens_ngrams_length n (normalize c) []).
  - cbn [flat_map]. rewrite app_nil_r. apply token_ngrams_length.
Qed.

Lemma all_ngrams_length E : length (all_ngrams E) <= total_bytes E.
Proof.
  unfold all_ngrams, total_bytes.
  induction (files_to_sweep E) as [|c files IH]; [reflexivity|].
  cbn [flat_map map]. rewrite length_app.
  unfold list_sum in *. cbn [fold_right].
  pose proof (file_ngrams_length (ngram E) c). lia.
Qed.

(** X14: no counter wraps on files of a realistic size. A file yields at
    most as many n-grams as it has bytes; so when the files hold fewer
    than [2^64] bytes in total, after a complete run the counts of a key
    in the workers' reduced tables add up to the exact number of its
    occurrences in the files, not just to that number modulo [2^64]. *)
Theorem X14_counts_exact (E : engine) (tr : list event) (s : state)
    (k : list ascii) :
  1 <= num_threads E -> index_fits E ->
  (Z.of_nat (total_bytes E) < UINT64_MOD)%Z ->
  run E tr s -> finished s ->
  (forall c, length (file_ngrams (ngram E) c) <= length c)
  /\ total_reported E s k = Z.of_nat (occ (all_ngrams E) k).
Proof.
  intros HW Hfit Hb Hrun Hfin. split; [intros c; apply file_ngrams_length|].
  apply (total_reported_exact E tr s k HW Hfit); try assumption.
  pose proof (all_ngrams_length E). lia.
Qed.

Lemma X14_witness :
  total_reported demo_engine demo_state (s_ "a b") = 3%Z.
Proof.
  exact (proj2 (X14_counts_exact demo_engine demo_trace demo_state
                  (s_ "a b") (le_S 1 1 (le_n 1)) demo_fits eq_refl
                  run_demo demo_finished)).
Defined.

(** * [process_file] on any table *)

Lemma tbl_get_add_same k c m :
  tbl_sorted m ->
  tbl_get k (tbl_add k c m) = ((tbl_get k m + c) mod UINT64_MOD)%Z.
Proof. intros H. unfold tbl_get at 1. now rewrite tbl_find_add_same. Qed.

Lemma tbl_get_add_other k k' c m :
  k' <> k -> tbl_get k' (tbl_add k c m) = tbl_get k' m.
Proof. intros H. unfold tbl_get. now rewrite tbl_find_add_other. Qed.

Lemma fold_incr_sorted keys :
  forall m, tbl_sorted m ->
            tbl_sorted (fold_left (fun m k => tbl_incr k m) keys m).
Proof.
  induction keys as [|x keys IH]; intros m Hm; [exact Hm|].
  cbn [fold_left]. apply IH. now apply tbl_add_sorted.
Qed.

Lemma fold_incr_find keys k :
  forall m,
    tbl_sorted m ->
    tbl_find k (fold_left (fun m k => tbl_incr k m) keys m)
    = if occ keys k =? 0 then tbl_find k m
      else Some ((tbl_get k m + Z.of_nat (occ keys k)) mod UINT64_MOD)%Z.
Proof.
  induction keys as [|x keys IH]; intros m Hm; [reflexivity|].
  cbn [fold_left]. rewrite IH by now apply tbl_add_sorted.
  unfold tbl_incr. rewrite occ_cons.
  destruct (str_eq_dec k x) as [Heq|Hne]; [subst x|].
  - rewrite tbl_find_add_same, tbl_get_add_same by exact Hm.
    destruct (occ keys k) as [|o]; cbn [Nat.eqb Nat.add].
    + reflexivity.
    + f_equal. rewrite Zplus_mod_idemp_l. f_equal. lia.
  - rewrite tbl_find_add_other, tbl_get_add_other by congruence.
    reflexivity.
Qed.

(** X15: [process_file] on a table that already holds counts. The
    table stays ordered by key; the count of a key that occurs [c > 0]
    times in the file is raised by [c] modulo [2^64] (from 0 when the key
    was absent) and every other entry is left as it is; so two files can
    be processed in either order with the same table as a result, which
    is why it does not matter which worker fetches which file first. *)
Theorem X15_process_file_adds (n : nat) (c : list ascii)
    (m : list (list ascii * Z)) :
  tbl_sorted m ->
  tbl_sorted (process_file n c m)
  /\ (forall k,
        tbl_find k (process_file n c m)
        = if occ (file_ngrams n c) k =? 0 then tbl_find k m
          else Some ((tbl_get k m + Z.of_nat (occ (file_ngrams n c) k))
                     mod UINT64_MOD)%Z)
  /\ (forall c',
        process_file n c (process_file n c' m)
        = process_file n c' (process_file n c m)).
Proof.
  intros Hm. split; [|split].
  - rewrite process_file_ngrams. now apply fold_incr_sorted.
  - intros k. rewrite process_file_ngrams. now apply fold_incr_find.
  - intros c'. rewrite !process_file_ngrams.
    apply tbl_ext; try (apply fold_incr_sorted; now apply fold_incr_sorted).
    intros k. rewrite !fold_incr_find
      by (try apply fold_incr_sorted; exact Hm).
    unfold tbl_get. rewrite !fold_incr_find by exact Hm.
    fold (tbl_get k m).
    destruct (occ (file_ngrams n c) k) as [|a];
      destruct (occ (file_ngrams n c') k) as [|b];
      cbn [Nat.eqb]; try reflexivity.
    f_equal. rewrite !Zplus_mod_idemp_l. f_equal. lia.
Qed.

Lemma X15_witness :
  process_file 2 (s_ "a b a b") (process_file 2 (s_ "b a") [])
  = process_file 2 (s_ "b a") (process_file 2 (s_ "a b a b") []).
Proof.
  exact (proj2 (proj2 (X15_process_file_adds 2 (s_ "a b a b") [] I))
           (s_ "b a")).
Defined.

(** * Runs of the degenerate engines *)

Lemma run_zero : run zero_engine zero_trace zero_state.
Proof. apply (run_schedule_exec zero_engine demo_schedule). reflexivity. Qed.

Lemma run_solo : run solo_engine solo_trace solo_state.
Proof. apply (run_schedule_exec solo_engine solo_schedule). reflexivity. Qed.

Lemma solo_finished : finished solo_state.
Proof. repeat constructor. Qed.

Lemma X11_witness :
  process_file (ngram zero_engine) (s_ "a b a b") [] = []
  /\ local_freq (worker_at zero_state 0) = []
  /\ reduced_freq (worker_at zero_state 1) = [].
Proof.
  destruct (X11_ngram_zero zero_engine zero_trace zero_state
              eq_refl eq_refl run_zero) as (H1 & H2 & _).
  exact (conj (H1 (s_ "a b a b") [])
           (conj (proj1 (H2 0)) (proj2 (H2 1)))).
Defined.

Lemma X12_witness :
  @nil event = [] /\ init idle_engine = init idle_engine
  /\ finished (init idle_engine) /\ global_index (init idle_engine) = 0%Z.
Proof.
  exact (X12_no_worker idle_engine [] (init idle_engine) eq_refl
           (exec_nil idle_engine (init idle_engine))).
Defined.

(** * A single worker *)

Lemma bucket_single E m : num_threads E = 1 -> bucket E 0 m = m.
Proof.
  intros HW. unfold bucket. apply filter_all. intros e.
  apply Nat.eqb_eq.
  pose proof (assigned_thread_lt E (fst e) ltac:(lia)). lia.
Qed.

(** X16: one worker. With [num_threads = 1] the shuffle changes nothing:
    after a complete run the local table and the reduced table of the
    only worker are both the table of a single loop over the files, and
    the block it prints is the report of the five slots that
    [std::partial_sort_copy], as the C++ library computes it, fills from
    that table, the choice and the order among tied counts included. *)
Theorem X16_single_worker (E : engine) (tr : list event) (s : state) :
  num_threads E = 1 -> index_fits E -> run E tr s -> finished s ->
  local_freq (worker_at s 0) = sequential_table E
  /\ reduced_freq (worker_at s 0) = sequential_table E
  /\ In (Print 0 (report 0 (select_top_five (sequential_table E)))) tr.
Proof.
  intros HW Hfit Hrun Hfin. pose proof (run_inv E tr s Hfit Hrun) as Hinv.
  assert (H0 : 0 < num_threads E) by lia.
  pose proof (inv_each _ _ _ Hinv 0 H0) as Hwi.
  pose proof (finished_pc E tr s 0 Hinv Hfin H0) as Hpc.
  assert (Hred : reduced_freq (worker_at s 0) = sequential_table E).
  { rewrite (final_reduced E tr s 0 Hinv Hfin H0), bucket_single by exact HW.
    unfold sequential_table. now rewrite sequential_count. }
  split; [|split; [exact Hred|]].
  - unfold sequential_table. rewrite sequential_count.
    apply (tbl_repr_unique _ _ (occ (all_ngrams E)));
      [|apply count_table_repr].
    apply (tbl_repr_fun _ (occ (emitted_by E 0 tr)));
      [|now apply local_repr].
    intros k. rewrite <- (merged_finished E tr s k Hinv Hfin H0).
    unfold merged_count. rewrite HW. simpl. lia.
  - rewrite <- Hred, <- (wi_top _ _ _ _ Hwi (or_intror Hpc)).
    apply (wi_print_tr _ _ _ _ Hwi). now split.
Qed.

Lemma X16_witness :
  In (Print 0 [s_ "Thread 0:"; s_ "       b: 1"; s_ "       d: 1";
               s_ "       a: 1"; s_ "       c: 1"; s_ "       ..."])
    tie_trace
  /\ local_freq (worker_at solo_state 0) = sequential_table solo_engine
  /\ reduced_freq (worker_at solo_state 0) = sequential_table solo_engine.
Proof.
  destruct (X16_single_worker solo_engine solo_trace solo_state
              eq_refl eq_refl run_solo solo_finished) as (H1 & H2 & _).
  destruct (X16_single_worker tie_engine tie_trace tie_state
              eq_refl eq_refl run_tie ltac:(repeat constructor))
    as (_ & _ & H3).
  exact (conj H3 (conj H1 H2)).
Defined.

(** * Where a worker waits *)

(** X17: a worker waits only in [get]. In a state a run can reach, a
    worker has no step exactly when it has returned from [sweep], or
    when it is at the [get] of the future of some producer [t] that has
    not yet set the promise addressed to this worker. *)
Theorem X17_blocked_only_in_get (E : engine) (tr : list event) (s : state)
    (w : nat) :
  index_fits E -> run E tr s -> w < num_threads E ->
  step_thread E w s = None
  <-> pc_at s w = PDone
      \/ exists t, pc_at s w = PRead t /\ ~ In (Write t w) tr.
Proof.
  intros Hfit Hrun Hw. pose proof (run_inv E tr s Hfit Hrun) as Hinv.
  pose proof (inv_each _ _ _ Hinv w Hw) as Hwi.
  pose proof (wi_pc _ _ _ _ Hwi) as Hpcr.
  unfold step_thread. rewrite (worker_exists E tr s w Hinv Hw).
  fold (pc_at s w). destruct (pc_at s w) eqn:Hpc.
  - destruct (global_index s <? _)%Z;
      (split; [discriminate|intros [H|(t & H & _)]; discriminate]).
  - destruct (slot s i w) as [[|]|];
      destruct (nth_error (assignment_matrix (worker_at s w)) i);
      (split; [discriminate|intros [H|(t' & H & _)]; discriminate]).
  - pose proof (inv_each _ _ _ Hinv t Hpcr) as Hwt.
    rewrite (wi_slots _ _ _ _ Hwt w Hw).
    destruct (w <? writes_done E (pc_at s t)) eqn:Hlt.
    + apply Nat.ltb_lt in Hlt. split; [discriminate|].
      intros [H|(t' & H & Hn)]; [discriminate|].
      injection H as <-. exfalso. apply Hn.
      now apply (wi_writes_tr _ _ _ _ Hwt).
    + apply Nat.ltb_ge in Hlt. split; [|reflexivity].
      intros _. right. exists t. split; [reflexivity|].
      intros Hin. apply (wi_writes_tr _ _ _ _ Hwt) in Hin. lia.
  - split; [discriminate|intros [H|(t & H & _)]; discriminate].
  - split; [now left|reflexivity].
  - contradiction.
Qed.

Lemma X17_witness :
  step_thread demo_engine 0 early_state = None
  <-> pc_at early_state 0 = PDone
      \/ exists t, pc_at early_state 0 = PRead t
                   /\ ~ In (Write t 0) early_trace.
Proof.
  exact (X17_blocked_only_in_get demo_engine early_trace early_state 0
           demo_fits run_early (le_S 1 1 (le_n 1))).
Defined.

(** * The command line *)

(** X18: the arguments [main] accepts. [main] hands [argv[2]] and
    [argv[3]] to [std::stoi] as they are. An argument written the way
    the usage line shows it, [-t=<num-threads>] or [-n=<n-gram>], has no
    digit after its sign, so [std::stoi] throws [std::invalid_argument]
    and [compute] is never reached; the counts have to be given as bare
    numbers. With fewer than three arguments after the name of the
    program [main] prints the usage line. *)
Theorem X18_main_usage_syntax (argv0 dir : list ascii) :
  (forall x a3 rest,
     main (argv0 :: dir :: (s_ "-t=" ++ x) :: a3 :: rest) = MainThrows)
  /\ (forall a2 y rest,
        main (argv0 :: dir :: a2 :: (s_ "-n=" ++ y) :: rest) = MainThrows)
  /\ main [argv0; dir; s_ "4"; s_ "2"] = MainRuns dir 4 2
  /\ (forall a b,
        main [argv0] = MainUsage (usage_line argv0)
        /\ main [argv0; a] = MainUsage (usage_line argv0)
        /\ main [argv0; a; b] = MainUsage (usage_line argv0)).
Proof.
  split; [|split; [|split]]; try reflexivity.
  - intros a2 y rest. unfold main. cbn [length Nat.ltb Nat.leb nth].
    change (stoi (s_ "-n=" ++ y)) with InvalidArgument.
    now destruct (stoi a2).
  - intros a b. repeat split.
Qed.

(** * The reduced tables together *)

(** X19: map, shuffle and reduce compute the single-threaded table.
    After a complete run the reduced tables of the workers, put side by
    side, hold exactly the entries of the table that a single loop over
    the files builds: every key with its full count, in one worker's
    table only. *)
Theorem X19_reduce_is_partition (E : engine) (tr : list event) (s : state) :
  index_fits E -> run E tr s -> finished s -> 1 <= num_threads E ->
  Permutation
    (concat (map (fun w => reduced_freq (worker_at s w))
               (seq 0 (num_threads E))))
    (sequential_table E).
Proof.
  intros Hfit Hrun Hfin HW. pose proof (run_inv E tr s Hfit Hrun) as Hinv.
  rewrite (map_ext_in _ (fun w => bucket E w (sequential_table E))).
  - now apply buckets_concat_perm.
  - intros w Hw. apply in_seq in Hw. unfold sequential_table.
    rewrite sequential_count. apply (final_reduced E tr s w Hinv Hfin). lia.
Qed.

Lemma X19_witness :
  Permutation
    (concat (map (fun w => reduced_freq (worker_at demo_state w))
               (seq 0 2)))
    (sequential_table demo_engine).
Proof.
  exact (X19_reduce_is_partition demo_engine demo_trace demo_state
           demo_fits run_demo demo_finished (le_S 1 1 (le_n 1))).
Defined.
